(** * Raptor: GRDDL engine, parser registry and QName resolver

    A shallow embedding of the parts of [raptor_qname.c], [raptor_parse.c]
    and [raptor_grddl.c] that the specification speaks about, with the
    theorems that settle each of its claims.

    Conventions.
    - A C string is modelled by the [string] of its bytes before the
      terminating NUL; a pointer that may be NULL by an [option].
    - [int] values are modelled in [Z]; lengths of strings are taken to fit
      in the C type that holds them.  Where an operation on [int]s can
      overflow, the definition says what is made of it.
    - A [raptor_uri] is modelled by its string; [raptor_uri_equals] is
      string equality.
    - Allocation failure is not modelled. *)

From Stdlib Require Import List String Ascii ZArith Lia Bool Arith.
From Stdlib Require Import Permutation Sorted.
Import ListNotations.

Local Open Scope string_scope.
Local Open Scope list_scope.

(** ** C strings, characters and results *)

(** The bytes of [name] from offset [n] on ([name + n] as a C string). *)
Fixpoint string_from (n : nat) (name : string) : string :=
  match n, name with
  | O, _ => name
  | S n', EmptyString => EmptyString
  | S n', String _ rest => string_from n' rest
  end.

(** The first [n] bytes of [name]. *)
Fixpoint string_upto (n : nat) (name : string) : string :=
  match n, name with
  | O, _ => EmptyString
  | S n', EmptyString => EmptyString
  | S n', String c rest => String c (string_upto n' rest)
  end.

Lemma string_length_app (a b : string) :
  String.length (a ++ b)%string = String.length a + String.length b.
Proof.
  induction a as [|c a IH]; simpl; [reflexivity|now rewrite IH].
Qed.

Lemma last_cons {A : Type} (x d : A) (l : list A) :
  last (x :: l) d = last l x.
Proof.
  revert x d; induction l as [|y l IH]; intros x d; [reflexivity|].
  change (last (x :: y :: l) d) with (last (y :: l) d).
  now rewrite (IH y d), (IH y x).
Qed.

Lemma string_app_assoc (a b c : string) :
  ((a ++ b) ++ c = a ++ (b ++ c))%string.
Proof.
  induction a as [|x a IH]; simpl; [reflexivity|now rewrite IH].
Qed.

Lemma string_app_nil_r (a : string) : (a ++ "")%string = a.
Proof.
  induction a as [|x a IH]; simpl; [reflexivity|now rewrite IH].
Qed.

Lemma string_app_inv_head (a b c : string) :
  (a ++ b = a ++ c)%string -> b = c.
Proof.
  induction a as [|x a IH]; simpl; [auto|]. intros [= H]. auto.
Qed.

Lemma string_upto_all (s : string) : string_upto (String.length s) s = s.
Proof.
  induction s as [|c s IH]; simpl; [reflexivity|now rewrite IH].
Qed.

(** The value of a character constant such as ['.']. *)
Definition ch (c : ascii) : Z := Z.of_N (N_of_ascii c).

(** [!strcmp(a, b)] where either pointer may be NULL and is tested first. *)
Definition streq_opt (a b : option string) : bool :=
  match a, b with
  | Some x, Some y => String.eqb x y
  | _, _ => false
  end.

(** [INT_MAX] and [INT_MIN] of an [int] of 32 bits. *)
Definition INT_MAX : Z := 2147483647.
Definition INT_MIN : Z := -2147483648.

(** What a call of the modelled code comes to.  Besides a returned value
    there are the ways in which the C code does not return one: it aborts
    through [RAPTOR_FATAL], its behaviour is undefined (a NULL pointer is
    dereferenced, an array is accessed out of bounds, memory is freed that
    is still in use), or the model ran
    out of the budget it was given for nested engines or for the
    iterations of a loop. *)
Inductive outcome (A : Type) : Type :=
| Ret (a : A)
| Fatal
| Undefined
| RecursionLimit
| LoopLimit.

Arguments Ret {A} a.
Arguments Fatal {A}.
Arguments Undefined {A}.
Arguments RecursionLimit {A}.
Arguments LoopLimit {A}.

Definition bind {A B : Type} (m : outcome A) (k : A -> outcome B) : outcome B :=
  match m with
  | Ret a => k a
  | Fatal => Fatal
  | Undefined => Undefined
  | RecursionLimit => RecursionLimit
  | LoopLimit => LoopLimit
  end.

Notation "x <- m ;; k" := (bind m (fun x => k))
  (at level 61, m at next level, right associativity).
Notation "' p <- m ;; k" := (bind m (fun x => match x with p => k end))
  (at level 61, p pattern, m at next level, right associativity).

(** ** Namespaces *)

Module Namespace.

(** [struct raptor_namespace_s]: prefix (NULL for the default
    namespace), URI and declaration depth. *)
Record raptor_namespace := mk_namespace {
  prefix : option string;
  uri : option string;
  depth : nat
}.

Definition raptor_namespace_get_uri (ns : raptor_namespace) : option string :=
  uri ns.

End Namespace.

(** ** QNames: [raptor_qname.c] *)

Module QName.
Import Namespace.

Record raptor_qname := mk_qname {
  local_name : string;
  value : option string;
  nspace : option raptor_namespace;
  uri : option string
}.

(** Modelled from the spec: [raptor_new_uri_from_uri_local_name] is not in
    the sources at hand; the specification gives the expanded URI as the
    concatenation of the namespace URI and the local name. *)
Definition raptor_new_uri_from_uri_local_name (u local : string) : string :=
  u ++ local.

(** [for(p = name; *p && *p != ':'; p++) ;] as the offset reached by [p]. *)
Fixpoint find_colon (name : string) : nat :=
  match name with
  | EmptyString => 0
  | String c rest => if Ascii.eqb c ":" then 0 else S (find_colon rest)
  end.

Section NewQName.

(** The namespace stack is opaque to the qname constructor: it is used
    only through these two look-ups of [raptor_namespace.c]. *)
Variable raptor_namespace_stack : Type.
Variable raptor_namespaces_get_default_namespace :
  raptor_namespace_stack -> option raptor_namespace.
Variable raptor_namespaces_find_namespace :
  raptor_namespace_stack -> string -> option raptor_namespace.

(** [raptor_new_qname(nstack, name, value)]. *)
Definition raptor_new_qname (nstack : raptor_namespace_stack)
           (name : string) (value : option string) : raptor_qname :=
  let p := find_colon name in
  let '(new_name, ns) :=
    if Nat.eqb p (String.length name) then
      (* No : in the name *)
      (name,
       match value with
       | None => raptor_namespaces_get_default_namespace nstack
       | Some _ => None
       end)
    else
      (* There is a namespace prefix *)
      (string_from (S p) name,
       raptor_namespaces_find_namespace nstack (string_upto p name))
  in
  let local_name_length := String.length new_name in
  {| local_name := new_name;
     value := value;
     nspace := ns;
     uri :=
       match ns with
       | Some n =>
           if Nat.eqb local_name_length 0 then None
           else
             match raptor_namespace_get_uri n with
             | Some u => Some (raptor_new_uri_from_uri_local_name u new_name)
             | None => None
             end
       | None => None
       end |}.

(** *** Splitting a name at its first colon *)

Lemma find_colon_prefix (p l : string) :
  ~ In ":"%char (list_ascii_of_string p) ->
  find_colon (p ++ String ":" l)%string = String.length p.
Proof.
  induction p as [|c rest IH]; simpl; intros Hp.
  - reflexivity.
  - destruct (Ascii.eqb_spec c ":") as [->|_].
    + exfalso. apply Hp. now left.
    + f_equal. apply IH. intros Hin. apply Hp. now right.
Qed.

Lemma string_from_app (p l : string) (c : ascii) :
  string_from (S (String.length p)) (p ++ String c l)%string = l.
Proof.
  induction p as [|d rest IH]; simpl; [reflexivity|exact IH].
Qed.

Lemma string_upto_app (p l : string) :
  string_upto (String.length p) (p ++ l)%string = p.
Proof.
  induction p as [|d rest IH]; simpl.
  - now destruct l.
  - now rewrite IH.
Qed.

Lemma length_zero_empty (s : string) :
  Nat.eqb (String.length s) 0 = true <-> s = "".
Proof.
  destruct s; simpl; split; intros H; try reflexivity; discriminate.
Qed.

(** C8. For a namespace stack and a qualified name [p:l] (the prefix [p]
    has no colon, the local part [l] is not empty) whose prefix resolves in
    the stack to a namespace [ns] with URI [U], [raptor_new_qname] gives a
    qname whose namespace is [ns], whose local name is [l] and whose
    expanded URI is the concatenation of [U] and [l].  And for every name:
    when the qname built has a namespace with a URI and a local name that
    is not empty, its expanded URI is the concatenation of that URI and the
    local name. *)
Theorem raptor_new_qname_expanded_uri :
  (forall nstack p l value ns U,
      ~ In ":"%char (list_ascii_of_string p) ->
      l <> "" ->
      raptor_namespaces_find_namespace nstack p = Some ns ->
      raptor_namespace_get_uri ns = Some U ->
      let q := raptor_new_qname nstack (p ++ ":" ++ l)%string value in
      nspace q = Some ns /\ local_name q = l /\ uri q = Some (U ++ l)%string)
  /\
  (forall nstack name value ns U,
      let q := raptor_new_qname nstack name value in
      nspace q = Some ns ->
      raptor_namespace_get_uri ns = Some U ->
      local_name q <> "" ->
      uri q = Some (U ++ local_name q)%string).
Proof.
  split.
  - intros nstack p l value ns U Hp Hl Hns HU q. subst q.
    unfold raptor_new_qname.
    change (p ++ ":" ++ l)%string with (p ++ String ":" l)%string.
    rewrite (find_colon_prefix p l Hp).
    assert (Hlen : Nat.eqb (String.length p) (String.length (p ++ String ":" l)%string) = false).
    { apply Nat.eqb_neq. rewrite string_length_app. simpl. lia. }
    rewrite Hlen, string_from_app, string_upto_app, Hns. simpl.
    destruct (Nat.eqb (String.length l) 0) eqn:El.
    + apply length_zero_empty in El. contradiction.
    + rewrite HU. unfold raptor_new_uri_from_uri_local_name. auto.
  - intros nstack name value ns U q. subst q.
    unfold raptor_new_qname.
    destruct (Nat.eqb (find_colon name) (String.length name));
      cbn [nspace local_name uri]; intros Hns HU Hl.
    + destruct value as [v|]; [discriminate|].
      rewrite Hns.
      destruct (Nat.eqb (String.length name) 0) eqn:El.
      * apply length_zero_empty in El. contradiction.
      * rewrite HU. reflexivity.
    + rewrite Hns.
      destruct (Nat.eqb (String.length (string_from (S (find_colon name)) name)) 0) eqn:El.
      * apply length_zero_empty in El. contradiction.
      * rewrite HU. reflexivity.
Qed.

End NewQName.

(** A namespace stack, for examples.  Modelled from the spec:
    [raptor_namespace.c] is not at hand; the specification describes the
    stack as an ordered sequence of namespaces with "find by prefix
    (most-recent wins)" and "get default".  The most recent declaration is
    the head of the list. *)
Definition namespace_list : Type := list raptor_namespace.

Definition namespaces_get_default_namespace (nstack : namespace_list)
  : option raptor_namespace :=
  find (fun ns => match prefix ns with None => true | Some _ => false end) nstack.

Definition namespaces_find_namespace (nstack : namespace_list) (p : string)
  : option raptor_namespace :=
  find (fun ns => match prefix ns with
                  | Some q => String.eqb q p
                  | None => false
                  end) nstack.

Definition dc_namespace : raptor_namespace :=
  {| prefix := Some "dc"; Namespace.uri := Some "http://purl.org/dc/elements/1.1/";
     depth := 1 |}.

Definition example_nstack : namespace_list :=
  [ {| prefix := Some "dc"; Namespace.uri := Some "http://purl.org/dc/elements/1.1/";
       depth := 1 |};
    {| prefix := None; Namespace.uri := Some "http://example.org/ns#"; depth := 0 |};
    {| prefix := Some "dc"; Namespace.uri := Some "http://example.org/old-dc#";
       depth := 0 |} ].

Example new_qname_dc_title :
  raptor_new_qname namespace_list namespaces_get_default_namespace
    namespaces_find_namespace example_nstack "dc:title" None
  = {| local_name := "title"; value := None; nspace := Some dc_namespace;
       uri := Some "http://purl.org/dc/elements/1.1/title" |}.
Proof. reflexivity. Qed.

Example new_qname_prefix_only :
  uri (raptor_new_qname namespace_list namespaces_get_default_namespace
         namespaces_find_namespace example_nstack "dc:" None) = None.
Proof. reflexivity. Qed.

Example new_qname_attribute_no_default :
  nspace (raptor_new_qname namespace_list namespaces_get_default_namespace
            namespaces_find_namespace example_nstack "title" (Some "v")) = None.
Proof. reflexivity. Qed.

(** The first part of [raptor_new_qname_expanded_uri] at ["dc:title"]. *)
Lemma raptor_new_qname_expanded_uri_witness :
  let q := raptor_new_qname namespace_list namespaces_get_default_namespace
             namespaces_find_namespace example_nstack ("dc" ++ ":" ++ "title")%string None in
  nspace q = Some dc_namespace /\ local_name q = "title"
  /\ uri q = Some ("http://purl.org/dc/elements/1.1/" ++ "title")%string.
Proof.
  refine (proj1 (raptor_new_qname_expanded_uri namespace_list
                   namespaces_get_default_namespace namespaces_find_namespace)
                example_nstack "dc" "title" None dc_namespace
                "http://purl.org/dc/elements/1.1/" _ _ _ _).
  - simpl. intros [H|[H|[]]]; discriminate.
  - discriminate.
  - reflexivity.
  - reflexivity.
Defined.

(** *** The other constructors, comparison and names *)

Section QNameOperations.

Variable raptor_namespace_stack : Type.
Variable raptor_namespaces_get_default_namespace :
  raptor_namespace_stack -> option raptor_namespace.
Variable raptor_namespaces_find_namespace :
  raptor_namespace_stack -> string -> option raptor_namespace.

(** [ns1 != ns2] on pointers to namespaces.  Two pointers to one object
    are equal and the object has one content; two objects may have the
    same content. *)
Variable same_namespace : raptor_namespace -> raptor_namespace -> bool.

(** What [raptor_namespace_get_uri] returns for a NULL pointer, if it
    returns ([raptor_namespace.c] is not at hand). *)
Variable raptor_namespace_get_uri_of_null : outcome (option string).

(** The largest value of a [size_t]. *)
Variable SIZE_MAX : Z.

(** [raptor_new_qname_from_namespace_local_name(world, ns, local_name,
    value)], for a world and a local name that are not NULL. *)
Definition raptor_new_qname_from_namespace_local_name
           (ns : option raptor_namespace) (local_name_ : string)
           (value_ : option string) : raptor_qname :=
  {| local_name := local_name_;
     value := value_;
     nspace := ns;
     uri :=
       match ns with
       | Some n =>
           match raptor_namespace_get_uri n with
           | Some u => Some (raptor_new_uri_from_uri_local_name u local_name_)
           | None => None
           end
       | None => None
       end |}.

(** [raptor_qname_copy(qname)] *)
Definition raptor_qname_copy (qname : raptor_qname) : outcome raptor_qname :=
  new_uri <-
    match nspace qname with
    | Some n => Ret (raptor_namespace_get_uri n)
    | None => raptor_namespace_get_uri_of_null
    end ;;
  Ret {| local_name := local_name qname;
         value := value qname;
         nspace := nspace qname;
         uri :=
           match new_uri with
           | Some u =>
               Some (raptor_new_uri_from_uri_local_name u (local_name qname))
           | None => None
           end |}.

(** [raptor_qname_equal(name1, name2)] *)
Definition raptor_qname_equal (name1 name2 : raptor_qname) : Z :=
  if negb match nspace name1, nspace name2 with
          | Some n1, Some n2 => same_namespace n1 n2
          | None, None => true
          | _, _ => false
          end
  then 0%Z
  else if negb (Nat.eqb (String.length (local_name name1))
                        (String.length (local_name name2)))
  then 0%Z
  else if negb (String.eqb (local_name name1) (local_name name2))
  then 0%Z
  else 1%Z.

(** [n - 1] on a [size_t]. *)
Definition size_t_pred (n : Z) : Z :=
  if (n =? 0)%Z then SIZE_MAX else (n - 1)%Z.

(** [raptor_qname_string_to_uri(nstack, name, name_len)] *)
Definition raptor_qname_string_to_uri (nstack : raptor_namespace_stack)
           (name : option string) (name_len : Z) : option string :=
  let '(ns, local_name_) :=
    match name with
    | None =>
        (* Empty string is default namespace URI *)
        (raptor_namespaces_get_default_namespace nstack, "")
    | Some name =>
        (* If starts with :, it is relative to default namespace, so skip it *)
        let '(name, name_len) :=
          match name with
          | String c rest =>
              if Ascii.eqb c ":" then (rest, size_t_pred name_len)
              else (name, name_len)
          | EmptyString => (name, name_len)
          end in
        let p := find_colon name in
        if (Z.of_nat p =? size_t_pred name_len)%Z then
          (* If ends with :, it is the URI of a namespace *)
          (raptor_namespaces_find_namespace nstack (string_upto p name), "")
        else if Nat.eqb p (String.length name) then
          (* pick up the default namespace if there is one *)
          (raptor_namespaces_get_default_namespace nstack, name)
        else
          (* There is a namespace prefix *)
          (raptor_namespaces_find_namespace nstack (string_upto p name),
           string_from (S p) name)
    end in
  match ns with
  | Some n =>
      match raptor_namespace_get_uri n with
      | Some u =>
          if negb (Nat.eqb (String.length local_name_) 0)
          then Some (raptor_new_uri_from_uri_local_name u local_name_)
          else Some u (* raptor_uri_copy *)
      | None => None
      end
  | None => None
  end.

(** Modelled from the spec: the [prefix_length] of a namespace
    ([raptor_namespace.c] is not at hand) is the length of its prefix, 0
    for the default namespace, whose prefix is NULL. *)
Definition prefix_length (ns : raptor_namespace) : nat :=
  match prefix ns with
  | Some p => String.length p
  | None => 0
  end.

(** [raptor_qname_to_counted_name(qname, &length)]: the string and the
    length stored. *)
Definition raptor_qname_to_counted_name (qname : raptor_qname)
  : string * nat :=
  let len := String.length (local_name qname) in
  match nspace qname with
  | Some ns =>
      if Nat.ltb 0 (prefix_length ns) then
        (match prefix ns with
         | Some p => (string_upto (prefix_length ns) p ++ ":"
                      ++ local_name qname)%string
         | None => local_name qname
         end,
         len + (1 + prefix_length ns))
      else (local_name qname, len)
  | None => (local_name qname, len)
  end.

(** [raptor_qname_get_namespace], [raptor_qname_get_local_name],
    [raptor_qname_get_value] and [raptor_qname_get_counted_value] *)
Definition raptor_qname_get_namespace (name : raptor_qname) := nspace name.
Definition raptor_qname_get_local_name (name : raptor_qname) := local_name name.
Definition raptor_qname_get_value (name : raptor_qname) := value name.
Definition raptor_qname_get_counted_value (name : raptor_qname)
  : option string * nat :=
  (value name,
   match value name with Some v => String.length v | None => 0 end).


(** The namespace URI of a qname followed by its local name. *)
Definition expanded_uri (q : raptor_qname) : option string :=
  match nspace q with
  | Some n =>
      match raptor_namespace_get_uri n with
      | Some u => Some (raptor_new_uri_from_uri_local_name u (local_name q))
      | None => None
      end
  | None => None
  end.

(** X1. The two constructors.  For a name [p:l] whose prefix [p] (without
    colon) the stack resolves to a namespace, [raptor_new_qname] and
    [raptor_new_qname_from_namespace_local_name] with that namespace and
    [l] build qnames with the same local name, namespace and value.  They
    are the same qname when [l] is not empty; when it is empty the first
    has no URI, while the second has the URI of the namespace. *)
Theorem new_qname_agrees_with_namespace_local_name
        (nstack : raptor_namespace_stack) (p l : string)
        (value_ : option string) (ns : raptor_namespace) :
  ~ In ":"%char (list_ascii_of_string p) ->
  raptor_namespaces_find_namespace nstack p = Some ns ->
  let q1 := raptor_new_qname raptor_namespace_stack
              raptor_namespaces_get_default_namespace
              raptor_namespaces_find_namespace nstack (p ++ ":" ++ l)%string
              value_ in
  let q2 := raptor_new_qname_from_namespace_local_name (Some ns) l value_ in
  local_name q1 = local_name q2 /\ nspace q1 = nspace q2
  /\ value q1 = value q2
  /\ (l <> "" -> q1 = q2)
  /\ (l = "" -> uri q1 = None /\ uri q2 = raptor_namespace_get_uri ns).
Proof.
  intros Hp Hns q1 q2. subst q1 q2.
  unfold raptor_new_qname, raptor_new_qname_from_namespace_local_name.
  change (p ++ ":" ++ l)%string with (p ++ String ":" l)%string.
  rewrite (find_colon_prefix p l Hp).
  assert (Hlen : Nat.eqb (String.length p)
                         (String.length (p ++ String ":" l)%string) = false).
  { apply Nat.eqb_neq. rewrite string_length_app. simpl. lia. }
  rewrite Hlen, string_from_app, string_upto_app, Hns.
  cbn [local_name nspace value uri].
  split; [reflexivity|]. split; [reflexivity|]. split; [reflexivity|].
  split.
  - intros Hl. destruct (Nat.eqb (String.length l) 0) eqn:El; [|reflexivity].
    apply length_zero_empty in El. contradiction.
  - intros ->. split; [reflexivity|].
    unfold raptor_new_uri_from_uri_local_name.
    destruct (raptor_namespace_get_uri ns) as [u|]; [|reflexivity].
    now rewrite string_app_nil_r.
Qed.

(** X2. Copies.  The copy of a qname that has a namespace is the qname
    that [raptor_new_qname_from_namespace_local_name] builds from its
    namespace, local name and value: the URI is made anew.  So the copy is
    the qname itself when that constructor built it, or when
    [raptor_new_qname] built it with a local name that is not empty; the
    copy of a qname that [raptor_new_qname] built for a name [p:] has a
    URI that the original has not. *)
Theorem qname_copy_rebuilds :
  (forall q ns,
      nspace q = Some ns ->
      raptor_qname_copy q
      = Ret (raptor_new_qname_from_namespace_local_name
               (Some ns) (local_name q) (value q)))
  /\ (forall ns l v,
         raptor_qname_copy
           (raptor_new_qname_from_namespace_local_name (Some ns) l v)
         = Ret (raptor_new_qname_from_namespace_local_name (Some ns) l v))
  /\ (forall nstack name v,
         let q := raptor_new_qname raptor_namespace_stack
                    raptor_namespaces_get_default_namespace
                    raptor_namespaces_find_namespace nstack name v in
         (nspace q <> None -> local_name q <> "" -> raptor_qname_copy q = Ret q)
         /\ (forall ns u, nspace q = Some ns ->
                          raptor_namespace_get_uri ns = Some u ->
                          local_name q = "" ->
                          uri q = None
                          /\ exists q', raptor_qname_copy q = Ret q'
                                        /\ uri q' = Some u)).
Proof.
  split; [|split].
  - intros q ns Hns. unfold raptor_qname_copy. rewrite Hns. reflexivity.
  - intros ns l v. reflexivity.
  - intros nstack name v q. subst q. split.
    + unfold raptor_qname_copy, raptor_new_qname.
      destruct (Nat.eqb (find_colon name) (String.length name));
        cbn [nspace local_name uri value]; intros Hns Hl.
      * destruct v as [v|]; [contradiction|].
        destruct (raptor_namespaces_get_default_namespace nstack) as [ns|];
          [|contradiction].
        cbn [bind]. destruct (Nat.eqb (String.length name) 0) eqn:El;
          [apply length_zero_empty in El; contradiction|reflexivity].
      * destruct (raptor_namespaces_find_namespace nstack _) as [ns|];
          [|contradiction].
        cbn [bind].
        destruct (Nat.eqb (String.length (string_from (S (find_colon name)) name)) 0)
          eqn:El; [apply length_zero_empty in El; contradiction|reflexivity].
    + intros ns u Hns Hu Hl. unfold raptor_qname_copy. rewrite Hns. cbn [bind].
      rewrite Hu. split.
      * revert Hns Hl. unfold raptor_new_qname.
        destruct (Nat.eqb (find_colon name) (String.length name));
          cbn [nspace local_name uri]; intros Hns Hl; rewrite Hns, Hl;
          reflexivity.
      * eexists. split; [reflexivity|]. cbn [uri]. rewrite Hl.
        unfold raptor_new_uri_from_uri_local_name. now rewrite string_app_nil_r.
Qed.

(** Pointers to namespaces are compared by an equivalence. *)
Hypothesis same_namespace_refl : forall n, same_namespace n n = true.
Hypothesis same_namespace_sym :
  forall n m, same_namespace n m = same_namespace m n.
Hypothesis same_namespace_trans :
  forall n m k, same_namespace n m = true -> same_namespace m k = true ->
                same_namespace n k = true.

Lemma qname_equal_spec (name1 name2 : raptor_qname) :
  raptor_qname_equal name1 name2 = 1%Z <->
  match nspace name1, nspace name2 with
  | Some n1, Some n2 => same_namespace n1 n2 = true
  | None, None => True
  | _, _ => False
  end /\ local_name name1 = local_name name2.
Proof.
  unfold raptor_qname_equal.
  destruct (nspace name1) as [n1|], (nspace name2) as [n2|]; cbn [negb];
    try (split; [discriminate|tauto]).
  - destruct (same_namespace n1 n2); cbn [negb];
      [|split; [discriminate|intros [H _]; discriminate]].
    destruct (String.eqb_spec (local_name name1) (local_name name2)) as [->|Hne].
    + rewrite Nat.eqb_refl. cbn. tauto.
    + destruct (Nat.eqb _ _); cbn; split; try discriminate; tauto.
  - destruct (String.eqb_spec (local_name name1) (local_name name2)) as [->|Hne].
    + rewrite Nat.eqb_refl. cbn. tauto.
    + destruct (Nat.eqb _ _); cbn; split; try discriminate; tauto.
Qed.

(** X3. [raptor_qname_equal] returns 0 or 1, and the qnames it returns 1
    for are those with the same namespace and the same local name: it is
    reflexive, symmetric and transitive, it looks neither at the value nor
    at the URI, and a copy is equal to its original. *)
Theorem qname_equal_equivalence :
  (forall a b, raptor_qname_equal a b = 0%Z \/ raptor_qname_equal a b = 1%Z)
  /\ (forall a, raptor_qname_equal a a = 1%Z)
  /\ (forall a b, raptor_qname_equal a b = raptor_qname_equal b a)
  /\ (forall a b c, raptor_qname_equal a b = 1%Z ->
                    raptor_qname_equal b c = 1%Z ->
                    raptor_qname_equal a c = 1%Z)
  /\ (forall a v u,
         raptor_qname_equal a {| local_name := local_name a; value := v;
                                 nspace := nspace a; uri := u |} = 1%Z)
  /\ (forall a a', nspace a <> None -> raptor_qname_copy a = Ret a' ->
                   raptor_qname_equal a' a = 1%Z).
Proof.
  assert (Hrefl : forall a, raptor_qname_equal a a = 1%Z).
  { intros a. apply qname_equal_spec. split; [|reflexivity].
    destruct (nspace a); auto. }
  assert (H01 : forall a b,
             raptor_qname_equal a b = 0%Z \/ raptor_qname_equal a b = 1%Z).
  { intros a b. unfold raptor_qname_equal.
    repeat match goal with
           | |- context [if negb ?c then _ else _] => destruct c; cbn [negb]
           end; auto. }
  split; [exact H01|]. split; [exact Hrefl|]. split; [|split; [|split]].
  - intros a b.
    assert (Hiff : raptor_qname_equal a b = 1%Z <-> raptor_qname_equal b a = 1%Z).
    { rewrite !qname_equal_spec.
      destruct (nspace a) as [n1|], (nspace b) as [n2|];
        try rewrite (same_namespace_sym n1 n2); intuition congruence. }
    destruct (H01 a b) as [Hab|Hab], (H01 b a) as [Hba|Hba]; try congruence.
    + apply Hiff in Hba. congruence.
    + apply Hiff in Hab. congruence.
  - intros a b c Hab Hbc. apply qname_equal_spec in Hab, Hbc.
    apply qname_equal_spec. destruct Hab as [Hn1 Hl1], Hbc as [Hn2 Hl2].
    split; [|congruence].
    destruct (nspace a) as [n1|], (nspace b) as [n2|], (nspace c) as [n3|];
      try tauto. eauto.
  - intros a v u. apply qname_equal_spec. cbn [nspace local_name].
    split; [|reflexivity]. destruct (nspace a); auto.
  - intros a a' Hns Hcopy. destruct (nspace a) as [ns|] eqn:Ha; [|contradiction].
    unfold raptor_qname_copy in Hcopy. rewrite Ha in Hcopy.
    injection Hcopy as <-. apply qname_equal_spec. cbn [nspace local_name].
    rewrite Ha. split; [apply same_namespace_refl|reflexivity].
Qed.

(** A name without the colon that it may begin with. *)
Definition without_leading_colon (name : string) : string :=
  match name with
  | String c rest => if Ascii.eqb c ":" then rest else name
  | EmptyString => name
  end.

Lemma find_colon_le (name : string) : find_colon name <= String.length name.
Proof.
  induction name as [|c rest IH]; simpl; [lia|].
  destruct (Ascii.eqb c ":"); lia.
Qed.

Lemma string_from_after_last_colon (name : string) :
  find_colon name < String.length name ->
  Nat.eqb (find_colon name) (String.length name - 1) = true ->
  string_from (S (find_colon name)) name = "".
Proof.
  induction name as [|c rest IH]; simpl; [lia|].
  destruct (Ascii.eqb c ":").
  - intros _ H. apply Nat.eqb_eq in H.
    destruct rest; [reflexivity|simpl in H; lia].
  - intros Hlt H. apply IH; [lia|].
    apply Nat.eqb_eq in H. apply Nat.eqb_eq. lia.
Qed.

(** X4. [raptor_qname_string_to_uri] and [raptor_new_qname].  For a name
    given with its length (below [SIZE_MAX]), the URI returned is the one
    of the qname that [raptor_new_qname] builds, as an element name, for
    the name without the colon it may begin with: the URI of its
    namespace followed by its local name.  Where the local name is empty -
    the names [p:], the empty name and the name [:] - this is the URI of
    the namespace itself, which [raptor_new_qname] does not give its
    qname.  A NULL name gives the URI of the default namespace. *)
Theorem qname_string_to_uri_expands
        (nstack : raptor_namespace_stack) :
  (forall name,
      (Z.of_nat (String.length name) < SIZE_MAX)%Z ->
      raptor_qname_string_to_uri nstack (Some name)
                                 (Z.of_nat (String.length name))
      = expanded_uri
          (raptor_new_qname raptor_namespace_stack
             raptor_namespaces_get_default_namespace
             raptor_namespaces_find_namespace nstack
             (without_leading_colon name) None))
  /\ (forall name_len,
         raptor_qname_string_to_uri nstack None name_len
         = match raptor_namespaces_get_default_namespace nstack with
           | Some n => raptor_namespace_get_uri n
           | None => None
           end).
Proof.
  split.
  - intros name Hlen. unfold raptor_qname_string_to_uri.
    set (name' := without_leading_colon name).
    assert (Hstrip :
      (match name with
       | String c rest =>
           if Ascii.eqb c ":"
           then (rest, size_t_pred (Z.of_nat (String.length name)))
           else (name, Z.of_nat (String.length name))
       | EmptyString => (name, Z.of_nat (String.length name))
       end) = (name', Z.of_nat (String.length name'))).
    { subst name'. destruct name as [|c rest]; [reflexivity|].
      cbn [without_leading_colon]. destruct (Ascii.eqb c ":"); [|reflexivity].
      unfold size_t_pred. cbn [String.length].
      destruct (Z.eqb_spec (Z.of_nat (S (String.length rest))) 0); [lia|].
      f_equal. lia. }
    rewrite Hstrip.
    assert (Hlen' : (Z.of_nat (String.length name') < SIZE_MAX)%Z).
    { subst name'. destruct name as [|c rest]; [assumption|].
      cbn [without_leading_colon]. destruct (Ascii.eqb c ":"); [|assumption].
      cbn [String.length] in Hlen. lia. }
    clearbody name'. clear Hstrip Hlen name.
    unfold expanded_uri, raptor_new_qname, size_t_pred.
    pose proof (find_colon_le name') as Hle.
    destruct (Nat.eqb_spec (find_colon name') (String.length name')) as [Heq|Hne].
    + (* no colon *)
      assert (Hnot : (Z.of_nat (find_colon name')
                      =? (if (Z.of_nat (String.length name') =? 0)%Z
                          then SIZE_MAX
                          else Z.of_nat (String.length name') - 1))%Z = false).
      { apply Z.eqb_neq.
        destruct (Z.eqb_spec (Z.of_nat (String.length name')) 0); lia. }
      rewrite Hnot. cbn [nspace local_name].
      destruct (raptor_namespaces_get_default_namespace nstack) as [ns|];
        [|reflexivity].
      destruct (raptor_namespace_get_uri ns) as [u|]; [|reflexivity].
      destruct (Nat.eqb_spec (String.length name') 0) as [H0|H0]; [|reflexivity].
      cbn [negb]. destruct name'; [|discriminate].
      unfold raptor_new_uri_from_uri_local_name. now rewrite string_app_nil_r.
    + destruct (Z.eqb_spec (Z.of_nat (String.length name')) 0) as [H0|H0]; [lia|].
      destruct (Z.eqb_spec (Z.of_nat (find_colon name'))
                           (Z.of_nat (String.length name') - 1)) as [Hlast|Hmid].
      * (* the colon is the last byte *)
        cbn [nspace local_name].
        rewrite string_from_after_last_colon; [|lia|apply Nat.eqb_eq; lia].
        destruct (raptor_namespaces_find_namespace nstack _) as [ns|];
          [|reflexivity].
        destruct (raptor_namespace_get_uri ns) as [u|]; [|reflexivity].
        cbn. unfold raptor_new_uri_from_uri_local_name.
        now rewrite string_app_nil_r.
      * cbn [nspace local_name].
        destruct (raptor_namespaces_find_namespace nstack _) as [ns|];
          [|reflexivity].
        destruct (raptor_namespace_get_uri ns) as [u|]; [|reflexivity].
        destruct (Nat.eqb_spec
                    (String.length (string_from (S (find_colon name')) name')) 0)
          as [He|He]; [|reflexivity].
        cbn [negb].
        destruct (string_from (S (find_colon name')) name'); [|discriminate].
        unfold raptor_new_uri_from_uri_local_name. now rewrite string_app_nil_r.
  - intros name_len. unfold raptor_qname_string_to_uri.
    destruct (raptor_namespaces_get_default_namespace nstack) as [ns|];
      [|reflexivity].
    now destruct (raptor_namespace_get_uri ns).
Qed.

(** A stack gives for a prefix a namespace that has this prefix. *)
Hypothesis find_namespace_prefix :
  forall nstack p ns,
    raptor_namespaces_find_namespace nstack p = Some ns -> prefix ns = Some p.

(** X5. Names written and read again.  A name [p:l] whose prefix (not
    empty, without colon) the stack knows is the name that
    [raptor_qname_to_counted_name] gives for its qname, with its length;
    when the stack does not know the prefix, the name written is [l]
    alone.  And the name written for a qname whose namespace the stack
    finds under its prefix is read by [raptor_new_qname] as a qname that
    [raptor_qname_equal] holds equal to it. *)
Theorem qname_name_round_trip (nstack : raptor_namespace_stack)
        (p l : string) (value_ : option string) :
  ~ In ":"%char (list_ascii_of_string p) ->
  p <> "" ->
  let read name := raptor_new_qname raptor_namespace_stack
                     raptor_namespaces_get_default_namespace
                     raptor_namespaces_find_namespace nstack name value_ in
  (forall ns, raptor_namespaces_find_namespace nstack p = Some ns ->
     raptor_qname_to_counted_name (read (p ++ ":" ++ l)%string)
     = ((p ++ ":" ++ l)%string, String.length (p ++ ":" ++ l)%string))
  /\ (raptor_namespaces_find_namespace nstack p = None ->
      raptor_qname_to_counted_name (read (p ++ ":" ++ l)%string)
      = (l, String.length l))
  /\ (forall q ns,
         nspace q = Some ns -> prefix ns = Some p ->
         raptor_namespaces_find_namespace nstack p = Some ns ->
         raptor_qname_equal (read (fst (raptor_qname_to_counted_name q))) q
         = 1%Z).
Proof.
  intros Hp Hne read. subst read.
  assert (Hsplit : forall l',
    raptor_new_qname raptor_namespace_stack
      raptor_namespaces_get_default_namespace
      raptor_namespaces_find_namespace nstack (p ++ ":" ++ l')%string value_
    = {| local_name := l'; value := value_;
         nspace := raptor_namespaces_find_namespace nstack p;
         uri := match raptor_namespaces_find_namespace nstack p with
                | Some n =>
                    if Nat.eqb (String.length l') 0 then None
                    else match raptor_namespace_get_uri n with
                         | Some u =>
                             Some (raptor_new_uri_from_uri_local_name u l')
                         | None => None
                         end
                | None => None
                end |}).
  { intros l'. unfold raptor_new_qname.
    change (p ++ ":" ++ l')%string with (p ++ String ":" l')%string.
    rewrite (find_colon_prefix p l' Hp).
    assert (Hlen : Nat.eqb (String.length p)
                           (String.length (p ++ String ":" l')%string) = false).
    { apply Nat.eqb_neq. rewrite string_length_app. simpl. lia. }
    now rewrite Hlen, string_from_app, string_upto_app. }
  assert (Hpos : Nat.ltb 0 (String.length p) = true).
  { apply Nat.ltb_lt. destruct p; [contradiction|simpl; lia]. }
  split; [|split].
  - intros ns Hns. rewrite Hsplit, Hns.
    unfold raptor_qname_to_counted_name, prefix_length. cbn [nspace local_name].
    rewrite (find_namespace_prefix _ _ _ Hns), Hpos.
    rewrite string_upto_all. f_equal.
    rewrite !string_length_app. cbn [String.length]. lia.
  - intros Hns. rewrite Hsplit, Hns. reflexivity.
  - intros q ns Hq Hprefix Hns.
    unfold raptor_qname_to_counted_name at 1, prefix_length.
    rewrite Hq, Hprefix, Hpos. cbn [fst]. rewrite string_upto_all.
    rewrite Hsplit. apply qname_equal_spec. cbn [nspace local_name].
    rewrite Hns, Hq. split; [apply same_namespace_refl|reflexivity].
Qed.

(** *** Writing a qname to a stream

    [raptor_iostream.c] is not at hand: the stream, the two functions that
    write to it and the bytes written to it so far. *)
Variable raptor_iostream : Type.
Variable raptor_iostream_counted_string_write :
  string -> nat -> raptor_iostream -> raptor_iostream.
Variable raptor_iostream_write_byte : ascii -> raptor_iostream -> raptor_iostream.
Variable written : raptor_iostream -> string.

(** [raptor_qname_write(qname, iostr)]: the value returned and the stream
    afterwards. *)
Definition raptor_qname_write (qname : raptor_qname) (iostr : raptor_iostream)
  : Z * raptor_iostream :=
  let iostr :=
    match nspace qname with
    | Some ns =>
        if Nat.ltb 0 (prefix_length ns) then
          raptor_iostream_write_byte ":"
            (raptor_iostream_counted_string_write
               (match prefix ns with Some p => p | None => "" end)
               (prefix_length ns) iostr)
        else iostr
    | None => iostr
    end in
  (0%Z,
   raptor_iostream_counted_string_write (local_name qname)
     (String.length (local_name qname)) iostr).

(** The two functions add to the end of what is written: the first [n]
    bytes of the string, and the byte. *)
Hypothesis counted_string_write_appends :
  forall s n iostr,
    written (raptor_iostream_counted_string_write s n iostr)
    = (written iostr ++ string_upto n s)%string.
Hypothesis write_byte_appends :
  forall c iostr,
    written (raptor_iostream_write_byte c iostr)
    = (written iostr ++ String c "")%string.

(** X6. The two ways to write a qname agree.  [raptor_qname_write]
    returns 0 and adds to the stream exactly the string that
    [raptor_qname_to_counted_name] returns; and the length that the latter
    stores is the length of that string. *)
Theorem qname_write_writes_counted_name
        (qname : raptor_qname) (iostr : raptor_iostream) :
  fst (raptor_qname_write qname iostr) = 0%Z
  /\ written (snd (raptor_qname_write qname iostr))
     = (written iostr ++ fst (raptor_qname_to_counted_name qname))%string
  /\ String.length (fst (raptor_qname_to_counted_name qname))
     = snd (raptor_qname_to_counted_name qname).
Proof.
  unfold raptor_qname_write, raptor_qname_to_counted_name, prefix_length.
  cbn [fst snd]. split; [reflexivity|].
  rewrite counted_string_write_appends, string_upto_all.
  destruct (nspace qname) as [ns|]; [|split; reflexivity].
  destruct (prefix ns) as [p|]; [|split; reflexivity].
  destruct (Nat.ltb 0 (String.length p)); [|split; reflexivity].
  cbn [fst snd]. rewrite write_byte_appends, counted_string_write_appends.
  rewrite string_upto_all. split.
  - now rewrite !string_app_assoc.
  - rewrite !string_length_app. cbn [String.length]. lia.
Qed.

End QNameOperations.

(** Namespaces of the example stack are compared by content. *)
Definition option_string_eqb (a b : option string) : bool :=
  match a, b with
  | Some x, Some y => String.eqb x y
  | None, None => true
  | _, _ => false
  end.

Definition namespace_eqb (n m : raptor_namespace) : bool :=
  option_string_eqb (prefix n) (prefix m)
  && option_string_eqb (raptor_namespace_get_uri n) (raptor_namespace_get_uri m)
  && Nat.eqb (depth n) (depth m).

Lemma option_string_eqb_eq (a b : option string) :
  option_string_eqb a b = true <-> a = b.
Proof.
  destruct a as [x|], b as [y|]; simpl; try (split; [discriminate|congruence]).
  - rewrite String.eqb_eq. split; congruence.
  - tauto.
Qed.

Lemma namespace_eqb_eq (n m : raptor_namespace) :
  namespace_eqb n m = true <-> n = m.
Proof.
  unfold namespace_eqb, raptor_namespace_get_uri.
  rewrite !andb_true_iff, !option_string_eqb_eq, Nat.eqb_eq.
  destruct n, m; simpl. split; [intros [[-> ->] ->]; reflexivity|].
  intros H; injection H as -> -> ->. auto.
Qed.

Lemma namespace_eqb_refl n : namespace_eqb n n = true.
Proof. now apply namespace_eqb_eq. Qed.

Lemma namespace_eqb_sym n m : namespace_eqb n m = namespace_eqb m n.
Proof.
  destruct (namespace_eqb n m) eqn:E1, (namespace_eqb m n) eqn:E2;
    try reflexivity.
  - apply namespace_eqb_eq in E1. subst. now rewrite namespace_eqb_refl in E2.
  - apply namespace_eqb_eq in E2. subst. now rewrite namespace_eqb_refl in E1.
Qed.

Lemma namespace_eqb_trans n m k :
  namespace_eqb n m = true -> namespace_eqb m k = true ->
  namespace_eqb n k = true.
Proof. rewrite !namespace_eqb_eq. congruence. Qed.

Lemma namespaces_find_namespace_prefix
      (nstack : namespace_list) (p : string) (ns : raptor_namespace) :
  namespaces_find_namespace nstack p = Some ns -> prefix ns = Some p.
Proof.
  unfold namespaces_find_namespace. intros H. apply find_some in H.
  destruct H as [_ H]. destruct (prefix ns) as [q|]; [|discriminate].
  apply String.eqb_eq in H. now subst.
Qed.

Lemma dc_has_no_colon : ~ In ":"%char (list_ascii_of_string "dc").
Proof. simpl. intros [H|[H|[]]]; discriminate. Qed.

(** [new_qname_agrees_with_namespace_local_name] at ["dc:title"]. *)
Lemma new_qname_agrees_with_namespace_local_name_witness :
  raptor_new_qname namespace_list namespaces_get_default_namespace
    namespaces_find_namespace example_nstack ("dc" ++ ":" ++ "title")%string
    None
  = raptor_new_qname_from_namespace_local_name (Some dc_namespace) "title" None.
Proof.
  refine (proj1 (proj2 (proj2 (proj2
    (new_qname_agrees_with_namespace_local_name namespace_list
       namespaces_get_default_namespace namespaces_find_namespace
       example_nstack "dc" "title" None dc_namespace dc_has_no_colon _)))) _).
  - reflexivity.
  - discriminate.
Defined.

(** [qname_equal_equivalence] for namespaces compared by content. *)
Lemma qname_equal_equivalence_witness :
  raptor_qname_equal namespace_eqb
    (raptor_new_qname_from_namespace_local_name (Some dc_namespace) "title" None)
    (raptor_new_qname_from_namespace_local_name (Some dc_namespace) "title" None)
  = 1%Z.
Proof.
  exact (proj1 (proj2
    (qname_equal_equivalence namespace_eqb (Ret None) namespace_eqb_refl
       namespace_eqb_sym namespace_eqb_trans)) _).
Defined.

(** [qname_name_round_trip] at ["dc:title"]. *)
Lemma qname_name_round_trip_witness :
  raptor_qname_to_counted_name
    (raptor_new_qname namespace_list namespaces_get_default_namespace
       namespaces_find_namespace example_nstack ("dc" ++ ":" ++ "title")%string
       None)
  = (("dc" ++ ":" ++ "title")%string,
     String.length ("dc" ++ ":" ++ "title")%string).
Proof.
  refine (proj1
    (qname_name_round_trip namespace_list namespaces_get_default_namespace
       namespaces_find_namespace namespace_eqb namespace_eqb_refl
       namespaces_find_namespace_prefix example_nstack "dc" "title" None
       dc_has_no_colon _) dc_namespace _).
  - discriminate.
  - reflexivity.
Defined.

(** [qname_write_writes_counted_name] for a stream that is the string of
    the bytes written to it. *)
Lemma qname_write_writes_counted_name_witness :
  raptor_qname_write string
    (fun s n iostr => (iostr ++ string_upto n s)%string)
    (fun c iostr => (iostr ++ String c "")%string)
    (raptor_new_qname namespace_list namespaces_get_default_namespace
       namespaces_find_namespace example_nstack "dc:title" None)
    "<"
  = (0%Z, "<dc:title").
Proof.
  pose proof (qname_write_writes_counted_name string
                (fun s n iostr => (iostr ++ string_upto n s)%string)
                (fun c iostr => (iostr ++ String c "")%string)
                (fun iostr => iostr)
                (fun s n iostr => eq_refl) (fun c iostr => eq_refl)
                (raptor_new_qname namespace_list
                   namespaces_get_default_namespace namespaces_find_namespace
                   example_nstack "dc:title" None)
                "<") as [Hrc [Hwritten _]].
  destruct (raptor_qname_write string _ _ _ "<") as [rc iostr].
  cbn [fst snd] in Hrc, Hwritten. now subst.
Defined.

(** A name that ends with its colon: no URI in the qname, the URI of the
    namespace from [raptor_qname_string_to_uri]; and a name that begins
    with a colon. *)
Example string_to_uri_of_prefix_only :
  raptor_qname_string_to_uri namespace_list namespaces_get_default_namespace
    namespaces_find_namespace 18446744073709551615 example_nstack
    (Some "dc:") 3
  = Some "http://purl.org/dc/elements/1.1/".
Proof. reflexivity. Qed.

Example string_to_uri_leading_colon :
  raptor_qname_string_to_uri namespace_list namespaces_get_default_namespace
    namespaces_find_namespace 18446744073709551615 example_nstack
    (Some ":title") 6
  = Some "http://example.org/ns#title".
Proof. reflexivity. Qed.

End QName.


(** ** Prefixed-name check: [raptor_qname.c] *)

Module PrefixedName.

(** [raptor_prefixed_name_check_type] *)
Definition RAPTOR_PREFIXED_NAME_CHECK_VARNAME : Z := 0.
Definition RAPTOR_PREFIXED_NAME_CHECK_QNAME_PREFIX : Z := 1.
Definition RAPTOR_PREFIXED_NAME_CHECK_QNAME_LOCAL : Z := 2.
Definition RAPTOR_PREFIXED_NAME_CHECK_BLANK : Z := 3.

(** [raptor_prefixed_name_check_bitflags] *)
Definition RAPTOR_PREFIXED_NAME_CHECK_ALLOW_09_FIRST : Z := 1.
Definition RAPTOR_PREFIXED_NAME_CHECK_ALLOW_MINUS_REST : Z := 2.
Definition RAPTOR_PREFIXED_NAME_CHECK_ALLOW_DOT_REST : Z := 4.
Definition RAPTOR_PREFIXED_NAME_CHECK_ALLOW_UL_FIRST : Z := 8.
Definition RAPTOR_PREFIXED_NAME_CHECK_ALLOW_COLON : Z := 16.
Definition RAPTOR_PREFIXED_NAME_CHECK_ALLOW_HEX : Z := 32.
Definition RAPTOR_PREFIXED_NAME_CHECK_ALLOW_EXTRA_UNICODE : Z := 64.
Definition RAPTOR_PREFIXED_NAME_CHECK_ALLOW_BS_ESCAPE : Z := 128.

(** [check_bits & flag] as a truth value. *)
Definition allows (check_bits flag : Z) : bool :=
  negb (Z.land check_bits flag =? 0)%Z.

(** The chain of [if(check_type == ...) check_bits = ...; else return -1;]:
    [None] stands for the [return -1]. *)
Definition check_bits_of (check_type : Z) : option Z :=
  if (check_type =? RAPTOR_PREFIXED_NAME_CHECK_VARNAME)%Z then
    Some (Z.lor RAPTOR_PREFIXED_NAME_CHECK_ALLOW_UL_FIRST
         (Z.lor RAPTOR_PREFIXED_NAME_CHECK_ALLOW_09_FIRST
                RAPTOR_PREFIXED_NAME_CHECK_ALLOW_EXTRA_UNICODE))
  else if (check_type =? RAPTOR_PREFIXED_NAME_CHECK_QNAME_PREFIX)%Z then
    Some (Z.lor RAPTOR_PREFIXED_NAME_CHECK_ALLOW_DOT_REST
         (Z.lor RAPTOR_PREFIXED_NAME_CHECK_ALLOW_MINUS_REST
         (Z.lor RAPTOR_PREFIXED_NAME_CHECK_ALLOW_HEX
                RAPTOR_PREFIXED_NAME_CHECK_ALLOW_EXTRA_UNICODE)))
  else if (check_type =? RAPTOR_PREFIXED_NAME_CHECK_QNAME_LOCAL)%Z then
    Some (Z.lor RAPTOR_PREFIXED_NAME_CHECK_ALLOW_09_FIRST
         (Z.lor RAPTOR_PREFIXED_NAME_CHECK_ALLOW_DOT_REST
         (Z.lor RAPTOR_PREFIXED_NAME_CHECK_ALLOW_MINUS_REST
         (Z.lor RAPTOR_PREFIXED_NAME_CHECK_ALLOW_HEX
         (Z.lor RAPTOR_PREFIXED_NAME_CHECK_ALLOW_COLON
         (Z.lor RAPTOR_PREFIXED_NAME_CHECK_ALLOW_EXTRA_UNICODE
                RAPTOR_PREFIXED_NAME_CHECK_ALLOW_BS_ESCAPE))))))
  else if (check_type =? RAPTOR_PREFIXED_NAME_CHECK_BLANK)%Z then
    Some (Z.lor RAPTOR_PREFIXED_NAME_CHECK_ALLOW_09_FIRST
         (Z.lor RAPTOR_PREFIXED_NAME_CHECK_ALLOW_DOT_REST
         (Z.lor RAPTOR_PREFIXED_NAME_CHECK_ALLOW_MINUS_REST
                RAPTOR_PREFIXED_NAME_CHECK_ALLOW_EXTRA_UNICODE)))
  else None.

(** The characters that may follow a backslash. *)
Definition escaped_char (unichar : Z) : bool :=
  existsb (Z.eqb unichar)
    [ch "_"; ch "~"; ch "."; ch "-"; ch "!"; ch "$"; ch "&"; ch "'"; ch "(";
     ch ")"; ch "*"; ch "+"; ch ","; ch ";"; ch "="; ch "/"; ch "?"; ch "#";
     ch "@"; ch "%"].

(** How one turn of the character loop ends: [continue] (with the new
    value of [escaping]) or [goto done]. *)
Inductive turn : Type :=
| Continue (escaping : bool)
| GotoDone.

Section Check.

(** Declared in [raptor_internal.h] and defined in [raptor_unicode.c],
    neither of which is at hand: the UTF-8 decoder (its return value and the
    character it stores), the largest codepoint and the two XML 1.1 name
    classes. *)
Variable raptor_unicode_utf8_string_get_char : string -> Z * Z.
Variable raptor_unicode_max_codepoint : Z.
Variable raptor_unicode_is_xml11_namestartchar : Z -> bool.
Variable raptor_unicode_is_xml11_namechar : Z -> bool.

(** The body of the loop from [if(escaping)] on. *)
Definition check_char (check_bits : Z) (pos : nat) (escaping : bool)
           (unichar : Z) : turn :=
  if escaping then
    if escaped_char unichar then Continue false else GotoDone
  else if (unichar =? ch "\")%Z then Continue true
  else if (unichar =? ch ":")%Z then
    if allows check_bits RAPTOR_PREFIXED_NAME_CHECK_ALLOW_COLON
    then Continue false else GotoDone
  else if (unichar =? ch "%")%Z then
    if allows check_bits RAPTOR_PREFIXED_NAME_CHECK_ALLOW_HEX
    then Continue false else GotoDone
  else if Nat.eqb pos 0 then
    (* start of name *)
    if ((ch "0" <=? unichar) && (unichar <=? ch "9"))%Z then
      if allows check_bits RAPTOR_PREFIXED_NAME_CHECK_ALLOW_09_FIRST
      then Continue false else GotoDone
    else if (unichar =? ch "_")%Z then
      if allows check_bits RAPTOR_PREFIXED_NAME_CHECK_ALLOW_UL_FIRST
      then Continue false else GotoDone
    else if negb (raptor_unicode_is_xml11_namestartchar unichar) then GotoDone
    else Continue false
  else
    (* rest of name *)
    if ((unichar =? 0x00B7)
        || ((0x0300 <=? unichar) && (unichar <=? 0x036F))
        || ((0x203F <=? unichar) && (unichar <=? 0x2040)))%Z then
      if allows check_bits RAPTOR_PREFIXED_NAME_CHECK_ALLOW_EXTRA_UNICODE
      then Continue false else GotoDone
    else if (unichar =? ch ".")%Z then
      if allows check_bits RAPTOR_PREFIXED_NAME_CHECK_ALLOW_DOT_REST
      then Continue false else GotoDone
    else if (unichar =? ch "-")%Z then
      if allows check_bits RAPTOR_PREFIXED_NAME_CHECK_ALLOW_MINUS_REST
      then Continue false else GotoDone
    else if negb (raptor_unicode_is_xml11_namechar unichar) then GotoDone
    else Continue false.

(** The [for] loop and what follows it.  [p] holds the [length] bytes that
    are left, [unichar] the character decoded last.  The result is [rc];
    [None] when [fuel] turns did not reach the end of the loop. *)
Fixpoint check_loop (fuel : nat) (check_bits : Z) (p : string) (pos : nat)
         (unichar : Z) (escaping : bool) : option Z :=
  match fuel with
  | O => None
  | S fuel' =>
      if Nat.eqb (String.length p) 0 then
        (* Check final character *)
        if (unichar =? ch ".")%Z then Some 0%Z else Some 1%Z
      else
        let '(unichar_len, unichar') := raptor_unicode_utf8_string_get_char p in
        if ((unichar_len <? 0) || (Z.of_nat (String.length p) <? unichar_len))%Z
        then Some 0%Z
        else if (raptor_unicode_max_codepoint <? unichar')%Z then Some 0%Z
        else
          match check_char check_bits pos escaping unichar' with
          | GotoDone => Some 0%Z
          | Continue escaping' =>
              check_loop fuel' check_bits
                         (string_from (Z.to_nat unichar_len) p) (S pos)
                         unichar' escaping'
          end
  end.

(** [raptor_prefixed_name_check(string, length, check_type)], where
    [string] holds the [length] bytes. *)
Definition raptor_prefixed_name_check (string : string) (check_type : Z)
  : option Z :=
  match check_bits_of check_type with
  | None => Some (-1)%Z
  | Some check_bits =>
      if Nat.eqb (String.length string) 0 then Some (-1)%Z
      else check_loop (S (String.length string)) check_bits string 0 0%Z false
  end.

(** *** The codepoints of a string

    What the decoder reads when it is run over the whole of [p], one
    character after the other; [None] when it refuses some byte sequence or
    when [fuel] characters did not reach the end. *)
Fixpoint codepoints (fuel : nat) (p : string) : option (list Z) :=
  match fuel with
  | O => None
  | S fuel' =>
      if Nat.eqb (String.length p) 0 then Some []
      else
        let '(unichar_len, unichar) := raptor_unicode_utf8_string_get_char p in
        if ((unichar_len <? 0) || (Z.of_nat (String.length p) <? unichar_len))%Z
        then None
        else
          match codepoints fuel' (string_from (Z.to_nat unichar_len) p) with
          | Some rest => Some (unichar :: rest)
          | None => None
          end
  end.

Lemma check_bits_of_known (check_type : Z) :
  (0 <= check_type <= 3)%Z <-> exists bits, check_bits_of check_type = Some bits.
Proof.
  unfold check_bits_of, RAPTOR_PREFIXED_NAME_CHECK_VARNAME,
    RAPTOR_PREFIXED_NAME_CHECK_QNAME_PREFIX,
    RAPTOR_PREFIXED_NAME_CHECK_QNAME_LOCAL, RAPTOR_PREFIXED_NAME_CHECK_BLANK.
  destruct (Z.eqb_spec check_type 0); [split; [eauto|lia]|].
  destruct (Z.eqb_spec check_type 1); [split; [eauto|lia]|].
  destruct (Z.eqb_spec check_type 2); [split; [eauto|lia]|].
  destruct (Z.eqb_spec check_type 3); [split; [eauto|lia]|].
  split; [lia|intros [bits H]; discriminate].
Qed.

(** The loop answers 1 only when the character decoded last is not a
    dot. *)
Lemma check_loop_last_not_dot (fuel : nat) :
  forall fuel' check_bits p pos unichar escaping cps,
    check_loop fuel check_bits p pos unichar escaping = Some 1%Z ->
    codepoints fuel' p = Some cps ->
    last cps unichar <> ch ".".
Proof.
  induction fuel as [|fuel IH]; intros fuel' bits p pos u e cps; simpl;
    [discriminate|].
  destruct fuel' as [|fuel']; simpl; [discriminate|].
  destruct (Nat.eqb (String.length p) 0).
  - destruct (Z.eqb_spec u (ch ".")); [discriminate|].
    intros _ [= <-]. exact n.
  - destruct (raptor_unicode_utf8_string_get_char p) as [n u'].
    destruct ((n <? 0) || (Z.of_nat (String.length p) <? n))%Z; [discriminate|].
    destruct (raptor_unicode_max_codepoint <? u')%Z; [discriminate|].
    destruct (check_char bits pos e u') as [e'|]; [|discriminate].
    intros Hloop Hcps.
    destruct (codepoints fuel' (string_from (Z.to_nat n) p)) as [rest|] eqn:Hrest;
      [|discriminate].
    injection Hcps as <-.
    specialize (IH fuel' bits _ (S pos) u' e' rest Hloop Hrest).
    now rewrite last_cons.
Qed.

Lemma string_from_length (n : nat) (p : string) :
  String.length (string_from n p) = String.length p - n.
Proof.
  revert p; induction n as [|n IH]; intros p; simpl; [lia|].
  destruct p; simpl; [reflexivity|apply IH].
Qed.

(** The decoder consumes at least one byte of a string that has one. *)
Hypothesis get_char_advances :
  forall p, p <> "" -> fst (raptor_unicode_utf8_string_get_char p) <> 0%Z.

(** With that, the loop ends within one turn per byte, with 0 or 1. *)
Lemma check_loop_returns (fuel : nat) :
  forall check_bits p pos unichar escaping,
    String.length p < fuel ->
    check_loop fuel check_bits p pos unichar escaping = Some 0%Z
    \/ check_loop fuel check_bits p pos unichar escaping = Some 1%Z.
Proof.
  induction fuel as [|fuel IH]; intros bits p pos u e Hlen; [lia|]. simpl.
  destruct (Nat.eqb (String.length p) 0) eqn:Ep.
  - destruct (u =? ch ".")%Z; auto.
  - assert (Hp : p <> "") by (intros ->; discriminate).
    pose proof (get_char_advances p Hp) as Hadv.
    destruct (raptor_unicode_utf8_string_get_char p) as [n u']. simpl in Hadv.
    destruct ((n <? 0) || (Z.of_nat (String.length p) <? n))%Z eqn:En; auto.
    destruct (raptor_unicode_max_codepoint <? u')%Z; auto.
    destruct (check_char bits pos e u') as [e'|]; auto.
    apply IH. rewrite string_from_length.
    apply orb_false_iff in En. destruct En as [En1 En2].
    apply Z.ltb_ge in En1. apply Z.ltb_ge in En2.
    apply Nat.eqb_neq in Ep. lia.
Qed.

(** *** The names that are accepted

    The rule of the loop, on the codepoints of the name.  Outside an
    escape, what a codepoint needs at the start of the name and further
    on: *)
Definition may_start (check_bits unichar : Z) : bool :=
  if (unichar =? ch ":")%Z then
    allows check_bits RAPTOR_PREFIXED_NAME_CHECK_ALLOW_COLON
  else if (unichar =? ch "%")%Z then
    allows check_bits RAPTOR_PREFIXED_NAME_CHECK_ALLOW_HEX
  else if ((ch "0" <=? unichar) && (unichar <=? ch "9"))%Z then
    allows check_bits RAPTOR_PREFIXED_NAME_CHECK_ALLOW_09_FIRST
  else if (unichar =? ch "_")%Z then
    allows check_bits RAPTOR_PREFIXED_NAME_CHECK_ALLOW_UL_FIRST
  else raptor_unicode_is_xml11_namestartchar unichar.

Definition may_follow (check_bits unichar : Z) : bool :=
  if (unichar =? ch ":")%Z then
    allows check_bits RAPTOR_PREFIXED_NAME_CHECK_ALLOW_COLON
  else if (unichar =? ch "%")%Z then
    allows check_bits RAPTOR_PREFIXED_NAME_CHECK_ALLOW_HEX
  else if ((unichar =? 0x00B7)
           || ((0x0300 <=? unichar) && (unichar <=? 0x036F))
           || ((0x203F <=? unichar) && (unichar <=? 0x2040)))%Z then
    allows check_bits RAPTOR_PREFIXED_NAME_CHECK_ALLOW_EXTRA_UNICODE
  else if (unichar =? ch ".")%Z then
    allows check_bits RAPTOR_PREFIXED_NAME_CHECK_ALLOW_DOT_REST
  else if (unichar =? ch "-")%Z then
    allows check_bits RAPTOR_PREFIXED_NAME_CHECK_ALLOW_MINUS_REST
  else raptor_unicode_is_xml11_namechar unichar.

(** The codepoints [cps] are acceptable, the first of them standing at the
    start of the name when [first] is set and following a backslash when
    [escaped] is.  A backslash outside an escape opens one, whatever the
    flags are; the codepoint that follows it has to be one of
    [escaped_char] and is held to nothing else; a backslash that nothing
    follows is let through. *)
Fixpoint acceptable (check_bits : Z) (first escaped : bool) (cps : list Z)
  : bool :=
  match cps with
  | [] => true
  | unichar :: rest =>
      if escaped then
        escaped_char unichar && acceptable check_bits false false rest
      else if (unichar =? ch "\")%Z then acceptable check_bits false true rest
      else (if first then may_start check_bits unichar
            else may_follow check_bits unichar)
           && acceptable check_bits false false rest
  end.

(** A name is accepted when the decoder reads it to its end, no codepoint
    is above [raptor_unicode_max_codepoint], the codepoints are acceptable
    and the last of them is not a dot. *)
Definition accepted (check_bits : Z) (name : string) : bool :=
  match codepoints (S (String.length name)) name with
  | Some cps =>
      forallb (fun unichar => (unichar <=? raptor_unicode_max_codepoint)%Z) cps
      && acceptable check_bits true false cps
      && negb (last cps 0 =? ch ".")%Z
  | None => false
  end.

Lemma check_char_rule (check_bits : Z) (pos : nat) (escaping : bool)
      (unichar : Z) :
  check_char check_bits pos escaping unichar =
  if escaping then
    if escaped_char unichar then Continue false else GotoDone
  else if (unichar =? ch "\")%Z then Continue true
  else if (if Nat.eqb pos 0 then may_start check_bits unichar
           else may_follow check_bits unichar)
       then Continue false else GotoDone.
Proof.
  unfold check_char, may_start, may_follow.
  destruct escaping; [reflexivity|].
  destruct (unichar =? ch "\")%Z; [reflexivity|].
  destruct (unichar =? ch ":")%Z; [now destruct (Nat.eqb pos 0)|].
  destruct (unichar =? ch "%")%Z; [now destruct (Nat.eqb pos 0)|].
  destruct (Nat.eqb pos 0).
  - destruct ((ch "0" <=? unichar) && (unichar <=? ch "9"))%Z; [reflexivity|].
    destruct (unichar =? ch "_")%Z; [reflexivity|].
    now destruct (raptor_unicode_is_xml11_namestartchar unichar).
  - destruct ((unichar =? 0x00B7)
              || ((0x0300 <=? unichar) && (unichar <=? 0x036F))
              || ((0x203F <=? unichar) && (unichar <=? 0x2040)))%Z;
      [reflexivity|].
    destruct (unichar =? ch ".")%Z; [reflexivity|].
    destruct (unichar =? ch "-")%Z; [reflexivity|].
    now destruct (raptor_unicode_is_xml11_namechar unichar).
Qed.

(** The loop, from any of its states, answers 1 when what is left of the
    name is read to its end and is acceptable and the character read last
    is not a dot, and 0 when not. *)
Lemma check_loop_accepts (fuel : nat) :
  forall check_bits p pos unichar escaping,
    String.length p < fuel ->
    check_loop fuel check_bits p pos unichar escaping =
    Some (if match codepoints fuel p with
             | Some cps =>
                 forallb (fun c => (c <=? raptor_unicode_max_codepoint)%Z) cps
                 && acceptable check_bits (Nat.eqb pos 0) escaping cps
                 && negb (last cps unichar =? ch ".")%Z
             | None => false
             end
          then 1%Z else 0%Z).
Proof.
  induction fuel as [|fuel IH]; intros bits p pos u e Hlen; [lia|].
  cbn [check_loop codepoints].
  destruct (Nat.eqb (String.length p) 0) eqn:Ep.
  - cbn [forallb acceptable last andb]. now destruct (u =? ch ".")%Z.
  - assert (Hp : p <> "") by (intros ->; discriminate).
    pose proof (get_char_advances p Hp) as Hadv.
    destruct (raptor_unicode_utf8_string_get_char p) as [n u']. simpl in Hadv.
    destruct ((n <? 0) || (Z.of_nat (String.length p) <? n))%Z eqn:En;
      [reflexivity|].
    assert (Hrest : String.length (string_from (Z.to_nat n) p) < fuel).
    { rewrite string_from_length.
      apply orb_false_iff in En. destruct En as [En1 En2].
      apply Z.ltb_ge in En1. apply Z.ltb_ge in En2.
      apply Nat.eqb_neq in Ep. lia. }
    destruct (Z.ltb_spec raptor_unicode_max_codepoint u') as [Hmax|Hmax].
    { destruct (codepoints fuel _) as [rest|]; [|reflexivity].
      cbn [forallb]. destruct (Z.leb_spec u' raptor_unicode_max_codepoint);
        [lia|reflexivity]. }
    rewrite check_char_rule.
    assert (Hnext : forall e',
      check_loop fuel bits (string_from (Z.to_nat n) p) (S pos) u' e' =
      Some (if match codepoints fuel (string_from (Z.to_nat n) p) with
               | Some rest =>
                   forallb (fun c => (c <=? raptor_unicode_max_codepoint)%Z)
                           (u' :: rest)
                   && acceptable bits false e' rest
                   && negb (last (u' :: rest) u =? ch ".")%Z
               | None => false
               end
            then 1%Z else 0%Z)).
    { intros e'. rewrite (IH bits _ (S pos) u' e' Hrest).
      destruct (codepoints fuel _) as [rest|]; [|reflexivity].
      cbn [forallb Nat.eqb]. rewrite last_cons.
      destruct (Z.leb_spec u' raptor_unicode_max_codepoint); [|lia].
      reflexivity. }
    destruct e.
    + destruct (escaped_char u') eqn:Hesc.
      * rewrite Hnext. destruct (codepoints fuel _) as [rest|]; [|reflexivity].
        cbn [acceptable]. now rewrite Hesc.
      * destruct (codepoints fuel _) as [rest|]; [|reflexivity].
        cbn [acceptable]. rewrite Hesc. cbn [andb].
        now rewrite andb_false_r.
    + destruct (u' =? ch "\")%Z eqn:Hbs.
      * rewrite Hnext. destruct (codepoints fuel _) as [rest|]; [|reflexivity].
        cbn [acceptable]. now rewrite Hbs.
      * destruct (if Nat.eqb pos 0 then may_start bits u' else may_follow bits u')
          eqn:Hmay.
        -- rewrite Hnext. destruct (codepoints fuel _) as [rest|]; [|reflexivity].
           cbn [acceptable]. rewrite Hbs, Hmay. reflexivity.
        -- destruct (codepoints fuel _) as [rest|]; [|reflexivity].
           cbn [acceptable]. rewrite Hbs, Hmay. cbn [andb].
           now rewrite andb_false_r.
Qed.


(** The decoder reads an ASCII byte as the character of that value. *)
Hypothesis get_char_ascii :
  forall c rest,
    (ch c < 128)%Z ->
    raptor_unicode_utf8_string_get_char (String c rest) = (1%Z, ch c).
Hypothesis max_codepoint_ascii : (128 <= raptor_unicode_max_codepoint)%Z.
Hypothesis namestartchar_a :
  raptor_unicode_is_xml11_namestartchar (ch "a") = true.

(** C9. The name [a\], which ends with a backslash that no character
    follows, is accepted under the QName-local check: [escaping] is not
    looked at once the loop has ended. *)
Theorem raptor_prefixed_name_check_unterminated_escape :
  raptor_prefixed_name_check "a\" RAPTOR_PREFIXED_NAME_CHECK_QNAME_LOCAL
  = Some 1%Z.
Proof.
  unfold raptor_prefixed_name_check. simpl check_bits_of. cbv iota.
  change (Nat.eqb (String.length "a\") 0) with false. cbv iota.
  change (String.length "a\") with 2.
  cbn [check_loop].
  change (Nat.eqb (String.length "a\") 0) with false. cbv iota.
  rewrite (get_char_ascii "a" "\") by reflexivity.
  change (((1 <? 0) || (Z.of_nat (String.length "a\") <? 1))%Z) with false.
  cbv iota.
  replace (raptor_unicode_max_codepoint <? ch "a")%Z with false
    by (symmetry; apply Z.ltb_ge; change (ch "a") with 97%Z;
        pose proof max_codepoint_ascii; lia).
  unfold check_char at 1.
  rewrite namestartchar_a.
  change (Z.to_nat 1) with 1. simpl string_from.
  change (Nat.eqb (String.length "\") 0) with false. cbv iota.
  rewrite (get_char_ascii "\" "") by reflexivity.
  change (((1 <? 0) || (Z.of_nat (String.length "\") <? 1))%Z) with false.
  cbv iota.
  replace (raptor_unicode_max_codepoint <? ch "\")%Z with false
    by (symmetry; apply Z.ltb_ge; change (ch "\") with 92%Z;
        pose proof max_codepoint_ascii; lia).
  reflexivity.
Qed.

(** *** What the check types have in common and where they differ *)

(** The flags that the loop tests: all but
    [RAPTOR_PREFIXED_NAME_CHECK_ALLOW_BS_ESCAPE]. *)
Definition tested_flags : list Z :=
  [ RAPTOR_PREFIXED_NAME_CHECK_ALLOW_09_FIRST;
    RAPTOR_PREFIXED_NAME_CHECK_ALLOW_MINUS_REST;
    RAPTOR_PREFIXED_NAME_CHECK_ALLOW_DOT_REST;
    RAPTOR_PREFIXED_NAME_CHECK_ALLOW_UL_FIRST;
    RAPTOR_PREFIXED_NAME_CHECK_ALLOW_COLON;
    RAPTOR_PREFIXED_NAME_CHECK_ALLOW_HEX;
    RAPTOR_PREFIXED_NAME_CHECK_ALLOW_EXTRA_UNICODE ].

(** [bits'] has every tested flag that [bits] has. *)
Definition allows_no_less (bits bits' : Z) : Prop :=
  forall flag, In flag tested_flags ->
               allows bits flag = true -> allows bits' flag = true.

Lemma check_char_no_less (bits bits' : Z) (pos : nat) (escaping : bool)
      (unichar : Z) (escaping' : bool) :
  allows_no_less bits bits' ->
  check_char bits pos escaping unichar = Continue escaping' ->
  check_char bits' pos escaping unichar = Continue escaping'.
Proof.
  intros Hle. unfold check_char.
  repeat match goal with
         | |- context [if allows bits ?f then _ else _] =>
             let H := fresh "H" in
             destruct (allows bits f) eqn:H;
             [rewrite (Hle f) by (assumption || (unfold tested_flags; simpl; tauto))|]
         end;
    repeat match goal with
           | |- context [if ?c then _ else _] =>
               match c with
               | context [bits'] => fail 1
               | _ => destruct c
               end
           end; try discriminate; try (intros H'; exact H').
Qed.

Lemma check_loop_no_less (fuel : nat) :
  forall bits bits' p pos unichar escaping,
    allows_no_less bits bits' ->
    check_loop fuel bits p pos unichar escaping = Some 1%Z ->
    check_loop fuel bits' p pos unichar escaping = Some 1%Z.
Proof.
  induction fuel as [|fuel IH]; intros bits bits' p pos u e Hle; simpl;
    [discriminate|].
  destruct (Nat.eqb (String.length p) 0); [auto|].
  destruct (raptor_unicode_utf8_string_get_char p) as [n u'].
  destruct ((n <? 0) || (Z.of_nat (String.length p) <? n))%Z; [auto|].
  destruct (raptor_unicode_max_codepoint <? u')%Z; [auto|].
  destruct (check_char bits pos e u') as [e'|] eqn:Hc; [|discriminate].
  rewrite (check_char_no_less _ _ _ _ _ _ Hle Hc). now apply IH.
Qed.

(** X7. Names that one check accepts and another too.  A name accepted
    as a QName prefix or as a blank node name is accepted as a QName local
    name: the flags of [RAPTOR_PREFIXED_NAME_CHECK_QNAME_LOCAL] include
    those of the two other checks. *)
Theorem qname_local_accepts_prefix_and_blank (s : string) (check_type : Z) :
  check_type = RAPTOR_PREFIXED_NAME_CHECK_QNAME_PREFIX
  \/ check_type = RAPTOR_PREFIXED_NAME_CHECK_BLANK ->
  raptor_prefixed_name_check s check_type = Some 1%Z ->
  raptor_prefixed_name_check s RAPTOR_PREFIXED_NAME_CHECK_QNAME_LOCAL
  = Some 1%Z.
Proof.
  intros Htype. unfold raptor_prefixed_name_check.
  destruct Htype as [-> | ->]; cbn [check_bits_of Z.eqb
    RAPTOR_PREFIXED_NAME_CHECK_QNAME_PREFIX RAPTOR_PREFIXED_NAME_CHECK_BLANK
    RAPTOR_PREFIXED_NAME_CHECK_QNAME_LOCAL];
    (destruct (Nat.eqb (String.length s) 0); [discriminate|]);
    apply check_loop_no_less;
    intros flag Hin; unfold tested_flags in Hin; simpl in Hin;
    repeat (destruct Hin as [<-|Hin]; [vm_compute; congruence|]);
    destruct Hin.
Qed.

Lemma allows_same (bits bits' flag : Z) :
  Z.land bits 127 = Z.land bits' 127 ->
  In flag tested_flags ->
  allows bits flag = allows bits' flag.
Proof.
  intros Hsame Hin. unfold allows.
  assert (Hflag : Z.land 127 flag = flag).
  { unfold tested_flags in Hin. simpl in Hin.
    repeat (destruct Hin as [<-|Hin]; [reflexivity|]). destruct Hin. }
  rewrite <- Hflag, !Z.land_assoc, Hsame. reflexivity.
Qed.

(** X8. The flag that is not tested.  The loop never looks at
    [RAPTOR_PREFIXED_NAME_CHECK_ALLOW_BS_ESCAPE]: with flags that differ
    in this one only its result is the same, so that a backslash escapes
    the next character under every check type, not only under
    [RAPTOR_PREFIXED_NAME_CHECK_QNAME_LOCAL] which alone has the flag. *)
Theorem backslash_escape_flag_not_tested (bits bits' : Z) :
  Z.land bits 127 = Z.land bits' 127 ->
  forall fuel p pos unichar escaping,
    check_loop fuel bits p pos unichar escaping
    = check_loop fuel bits' p pos unichar escaping.
Proof.
  intros Hsame fuel.
  assert (Hchar : forall pos e u, check_char bits pos e u = check_char bits' pos e u).
  { intros pos e u. unfold check_char.
    rewrite !(allows_same bits bits') by
      (assumption || (unfold tested_flags; simpl; tauto)).
    reflexivity. }
  induction fuel as [|fuel IH]; intros p pos u e; simpl; [reflexivity|].
  destruct (Nat.eqb (String.length p) 0); [reflexivity|].
  destruct (raptor_unicode_utf8_string_get_char p) as [n u'].
  destruct ((n <? 0) || (Z.of_nat (String.length p) <? n))%Z; [reflexivity|].
  destruct (raptor_unicode_max_codepoint <? u')%Z; [reflexivity|].
  rewrite Hchar. destruct (check_char bits' pos e u'); [apply IH|reflexivity].
Qed.

Lemma check_loop_decodes (fuel : nat) :
  forall bits p pos unichar escaping,
    check_loop fuel bits p pos unichar escaping = Some 1%Z ->
    exists cps,
      codepoints fuel p = Some cps
      /\ Forall (fun c => (c <= raptor_unicode_max_codepoint)%Z) cps
      /\ (allows bits RAPTOR_PREFIXED_NAME_CHECK_ALLOW_COLON = false ->
          ~ In (ch ":") cps).
Proof.
  induction fuel as [|fuel IH]; intros bits p pos u e; simpl; [discriminate|].
  destruct (Nat.eqb (String.length p) 0).
  - intros _. exists []. split; [reflexivity|]. split; [constructor|].
    intros _ [].
  - destruct (raptor_unicode_utf8_string_get_char p) as [n u'].
    destruct ((n <? 0) || (Z.of_nat (String.length p) <? n))%Z; [discriminate|].
    destruct (Z.ltb_spec raptor_unicode_max_codepoint u') as [|Hmax];
      [discriminate|].
    destruct (check_char bits pos e u') as [e'|] eqn:Hc; [|discriminate].
    intros Hloop. destruct (IH _ _ _ _ _ Hloop) as (cps & -> & Hall & Hcolon).
    exists (u' :: cps). split; [reflexivity|]. split; [now constructor|].
    intros Hno [Hu|Hin]; [|exact (Hcolon Hno Hin)].
    subst u'. revert Hc. unfold check_char. rewrite Hno.
    destruct e; [discriminate|].
    change (ch ":" =? ch "\")%Z with false. rewrite Z.eqb_refl. discriminate.
Qed.

(** X9. What an accepted name is made of.  A name is accepted by
    [raptor_prefixed_name_check] only if the decoder reads it to its end,
    as codepoints none of which is above [raptor_unicode_max_codepoint];
    and under the checks other than
    [RAPTOR_PREFIXED_NAME_CHECK_QNAME_LOCAL] none of them is a colon,
    escaped or not. *)
Theorem accepted_name_codepoints (s : string) (check_type : Z) :
  raptor_prefixed_name_check s check_type = Some 1%Z ->
  exists cps,
    codepoints (S (String.length s)) s = Some cps
    /\ cps <> []
    /\ Forall (fun c => (c <= raptor_unicode_max_codepoint)%Z) cps
    /\ (check_type <> RAPTOR_PREFIXED_NAME_CHECK_QNAME_LOCAL ->
        ~ In (ch ":") cps).
Proof.
  unfold raptor_prefixed_name_check.
  destruct (check_bits_of check_type) as [bits|] eqn:Hbits; [|discriminate].
  destruct (Nat.eqb (String.length s) 0) eqn:Hs; [discriminate|].
  intros Hloop. destruct (check_loop_decodes _ _ _ _ _ _ Hloop)
    as (cps & Hcps & Hall & Hcolon).
  exists cps. split; [exact Hcps|]. split; [|split; [exact Hall|]].
  - intros ->. simpl in Hcps. rewrite Hs in Hcps.
    destruct (raptor_unicode_utf8_string_get_char s) as [n u'].
    destruct ((n <? 0) || (Z.of_nat (String.length s) <? n))%Z; [discriminate|].
    destruct (codepoints _ _); discriminate.
  - intros Htype. apply Hcolon. revert Hbits. unfold check_bits_of.
    destruct (check_type =? RAPTOR_PREFIXED_NAME_CHECK_VARNAME)%Z;
      [intros [= <-]; reflexivity|].
    destruct (check_type =? RAPTOR_PREFIXED_NAME_CHECK_QNAME_PREFIX)%Z;
      [intros [= <-]; reflexivity|].
    destruct (Z.eqb_spec check_type RAPTOR_PREFIXED_NAME_CHECK_QNAME_LOCAL);
      [contradiction|].
    destruct (check_type =? RAPTOR_PREFIXED_NAME_CHECK_BLANK)%Z;
      [intros [= <-]; reflexivity|discriminate].
Qed.

End Check.

(** *** A decoder and name classes to run the check with

    Modelled from the spec: [raptor_unicode.c] is not at hand.  The
    specification has the check decode "one UTF-8 codepoint at a time" and
    apply the "XML 1.1 NameStartChar" and "NameChar" rules; what follows is
    UTF-8 of one to four bytes and the two character classes of XML 1.1. *)
Definition continuation (c : ascii) : bool :=
  ((0x80 <=? ch c) && (ch c <? 0xC0))%Z.

Definition utf8_string_get_char (p : string) : Z * Z :=
  match p with
  | EmptyString => ((-1)%Z, 0%Z)
  | String c0 rest =>
      let b0 := ch c0 in
      if (b0 <? 0x80)%Z then (1%Z, b0)
      else if ((0xC0 <=? b0) && (b0 <? 0xE0))%Z then
        match rest with
        | String c1 _ =>
            if continuation c1 then
              (2%Z, Z.lor (Z.shiftl (Z.land b0 0x1F) 6) (Z.land (ch c1) 0x3F))
            else ((-1)%Z, 0%Z)
        | _ => ((-1)%Z, 0%Z)
        end
      else if ((0xE0 <=? b0) && (b0 <? 0xF0))%Z then
        match rest with
        | String c1 (String c2 _) =>
            if continuation c1 && continuation c2 then
              (3%Z, Z.lor (Z.shiftl (Z.land b0 0x0F) 12)
                   (Z.lor (Z.shiftl (Z.land (ch c1) 0x3F) 6)
                          (Z.land (ch c2) 0x3F)))
            else ((-1)%Z, 0%Z)
        | _ => ((-1)%Z, 0%Z)
        end
      else if ((0xF0 <=? b0) && (b0 <? 0xF8))%Z then
        match rest with
        | String c1 (String c2 (String c3 _)) =>
            if continuation c1 && continuation c2 && continuation c3 then
              (4%Z, Z.lor (Z.shiftl (Z.land b0 0x07) 18)
                   (Z.lor (Z.shiftl (Z.land (ch c1) 0x3F) 12)
                   (Z.lor (Z.shiftl (Z.land (ch c2) 0x3F) 6)
                          (Z.land (ch c3) 0x3F))))
            else ((-1)%Z, 0%Z)
        | _ => ((-1)%Z, 0%Z)
        end
      else ((-1)%Z, 0%Z)
  end.

Definition unicode_max_codepoint : Z := 0x10FFFF.

Definition in_ranges (ranges : list (Z * Z)) (c : Z) : bool :=
  existsb (fun r => (fst r <=? c) && (c <=? snd r))%Z ranges.

Definition is_xml11_namestartchar (c : Z) : bool :=
  in_ranges
    [(ch ":", ch ":"); (ch "A", ch "Z"); (ch "_", ch "_"); (ch "a", ch "z");
     (0xC0, 0xD6); (0xD8, 0xF6); (0xF8, 0x2FF); (0x370, 0x37D);
     (0x37F, 0x1FFF); (0x200C, 0x200D); (0x2070, 0x218F); (0x2C00, 0x2FEF);
     (0x3001, 0xD7FF); (0xF900, 0xFDCF); (0xFDF0, 0xFFFD);
     (0x10000, 0xEFFFF)]%Z c.

Definition is_xml11_namechar (c : Z) : bool :=
  is_xml11_namestartchar c
  || in_ranges
       [(ch "-", ch "-"); (ch ".", ch "."); (ch "0", ch "9"); (0xB7, 0xB7);
        (0x0300, 0x036F); (0x203F, 0x2040)]%Z c.

Definition prefixed_name_check : string -> Z -> option Z :=
  raptor_prefixed_name_check utf8_string_get_char unicode_max_codepoint
    is_xml11_namestartchar is_xml11_namechar.

Example check_local_name :
  prefixed_name_check "a.b-c" RAPTOR_PREFIXED_NAME_CHECK_QNAME_LOCAL = Some 1%Z.
Proof. reflexivity. Qed.

Example check_final_dot :
  prefixed_name_check "ab." RAPTOR_PREFIXED_NAME_CHECK_QNAME_LOCAL = Some 0%Z.
Proof. reflexivity. Qed.

Example check_final_escaped_dot :
  prefixed_name_check "ab\." RAPTOR_PREFIXED_NAME_CHECK_QNAME_LOCAL = Some 0%Z.
Proof. reflexivity. Qed.

Example check_digit_first_in_prefix :
  prefixed_name_check "1a" RAPTOR_PREFIXED_NAME_CHECK_QNAME_PREFIX = Some 0%Z.
Proof. reflexivity. Qed.

Example check_empty :
  prefixed_name_check "" RAPTOR_PREFIXED_NAME_CHECK_BLANK = Some (-1)%Z.
Proof. reflexivity. Qed.

Example check_unknown_type :
  prefixed_name_check "abc" 4 = Some (-1)%Z.
Proof. reflexivity. Qed.

Lemma utf8_string_get_char_advances (p : string) :
  p <> "" -> fst (utf8_string_get_char p) <> 0%Z.
Proof.
  destruct p as [|c0 rest]; [contradiction|]. intros _.
  unfold utf8_string_get_char.
  destruct (ch c0 <? 0x80)%Z; [discriminate|].
  destruct ((0xC0 <=? ch c0) && (ch c0 <? 0xE0))%Z.
  { destruct rest as [|c1 r1]; [discriminate|].
    destruct (continuation c1); discriminate. }
  destruct ((0xE0 <=? ch c0) && (ch c0 <? 0xF0))%Z.
  { destruct rest as [|c1 [|c2 r2]]; try discriminate.
    destruct (continuation c1 && continuation c2); discriminate. }
  destruct ((0xF0 <=? ch c0) && (ch c0 <? 0xF8))%Z.
  { destruct rest as [|c1 [|c2 [|c3 r3]]]; try discriminate.
    destruct (continuation c1 && continuation c2 && continuation c3);
      discriminate. }
  discriminate.
Qed.

Lemma utf8_string_get_char_ascii (c : ascii) (rest : string) :
  (ch c < 128)%Z -> utf8_string_get_char (String c rest) = (1%Z, ch c).
Proof.
  intros Hc. unfold utf8_string_get_char.
  destruct (Z.ltb_spec (ch c) 0x80); [reflexivity|lia].
Qed.


Example accepted_names :
  accepted utf8_string_get_char unicode_max_codepoint is_xml11_namestartchar
           is_xml11_namechar 247 "a.b-c" = true
  /\ accepted utf8_string_get_char unicode_max_codepoint is_xml11_namestartchar
              is_xml11_namechar 247 "ab." = false
  /\ accepted utf8_string_get_char unicode_max_codepoint is_xml11_namestartchar
              is_xml11_namechar 247 "-a" = false.
Proof. repeat split. Qed.

(** *** Names that the rules exclude

    The rules of a name as the specification words them, where the check
    does less.  Its table of flags has "[%HH] percent-escape permitted"
    for [RAPTOR_PREFIXED_NAME_CHECK_ALLOW_HEX], [H] a hexadecimal digit
    (the comment above the flags in [raptor_qname.c]: "% must be followed
    by two characters in the set A-Fa-f0-9"), and "[\X] escapes ...
    permitted" for [RAPTOR_PREFIXED_NAME_CHECK_ALLOW_BS_ESCAPE], a flag
    that of the four check types only the QName-local one has. *)
Definition spec_hex_digit (unichar : Z) : bool :=
  (((ch "0" <=? unichar) && (unichar <=? ch "9"))
   || ((ch "A" <=? unichar) && (unichar <=? ch "F"))
   || ((ch "a" <=? unichar) && (unichar <=? ch "f")))%Z.

(** Every [%] is followed by two hexadecimal digits. *)
Fixpoint spec_percent_escapes_complete (cps : list Z) : bool :=
  match cps with
  | [] => true
  | unichar :: rest =>
      (if (unichar =? ch "%")%Z then
         match rest with
         | h1 :: h2 :: _ => spec_hex_digit h1 && spec_hex_digit h2
         | _ => false
         end
       else true)
      && spec_percent_escapes_complete rest
  end.

(** Whether the check type permits escapes. *)
Definition spec_escapes_permitted (check_type : Z) : bool :=
  match check_bits_of check_type with
  | Some check_bits =>
      allows check_bits RAPTOR_PREFIXED_NAME_CHECK_ALLOW_BS_ESCAPE
  | None => false
  end.


Example codepoints_final_dot :
  codepoints utf8_string_get_char 4 "ab." = Some [ch "a"; ch "b"; ch "."].
Proof. reflexivity. Qed.

(** [raptor_prefixed_name_check_unterminated_escape] with the decoder and
    the name classes above. *)
Lemma raptor_prefixed_name_check_unterminated_escape_witness :
  prefixed_name_check "a\" RAPTOR_PREFIXED_NAME_CHECK_QNAME_LOCAL = Some 1%Z.
Proof.
  apply (raptor_prefixed_name_check_unterminated_escape utf8_string_get_char
           unicode_max_codepoint is_xml11_namestartchar is_xml11_namechar
           utf8_string_get_char_ascii).
  - vm_compute. discriminate.
  - reflexivity.
Defined.

Example check_variable_name_with_escape :
  prefixed_name_check "a\.b" RAPTOR_PREFIXED_NAME_CHECK_VARNAME = Some 1%Z.
Proof. reflexivity. Qed.

Example check_colon_in_blank_name :
  prefixed_name_check "a:b" RAPTOR_PREFIXED_NAME_CHECK_BLANK = Some 0%Z
  /\ prefixed_name_check "a\:b" RAPTOR_PREFIXED_NAME_CHECK_BLANK = Some 0%Z
  /\ prefixed_name_check "a:b" RAPTOR_PREFIXED_NAME_CHECK_QNAME_LOCAL
     = Some 1%Z.
Proof. repeat split. Qed.

Example check_underscore_first :
  prefixed_name_check "_a" RAPTOR_PREFIXED_NAME_CHECK_VARNAME = Some 1%Z
  /\ prefixed_name_check "_a" RAPTOR_PREFIXED_NAME_CHECK_QNAME_LOCAL
     = Some 0%Z.
Proof. split; reflexivity. Qed.

(** [qname_local_accepts_prefix_and_blank] at the prefix ["a.b-c"]. *)
Lemma qname_local_accepts_prefix_and_blank_witness :
  prefixed_name_check "a.b-c" RAPTOR_PREFIXED_NAME_CHECK_QNAME_LOCAL
  = Some 1%Z.
Proof.
  refine (qname_local_accepts_prefix_and_blank utf8_string_get_char
            unicode_max_codepoint is_xml11_namestartchar is_xml11_namechar
            "a.b-c" RAPTOR_PREFIXED_NAME_CHECK_QNAME_PREFIX _ _).
  - left. reflexivity.
  - reflexivity.
Defined.

(** [backslash_escape_flag_not_tested] at the flags of the QName-local
    check, with and without the flag, on the name ["a\.b"]. *)
Lemma backslash_escape_flag_not_tested_witness :
  check_loop utf8_string_get_char unicode_max_codepoint is_xml11_namestartchar
    is_xml11_namechar 5 247 "a\.b" 0 0%Z false
  = check_loop utf8_string_get_char unicode_max_codepoint
      is_xml11_namestartchar is_xml11_namechar 5 119 "a\.b" 0 0%Z false.
Proof.
  refine (backslash_escape_flag_not_tested utf8_string_get_char
            unicode_max_codepoint is_xml11_namestartchar is_xml11_namechar
            247 119 _ 5 "a\.b" 0 0%Z false).
  reflexivity.
Defined.

(** [accepted_name_codepoints] at the blank node name ["b1"]. *)
Lemma accepted_name_codepoints_witness :
  exists cps,
    codepoints utf8_string_get_char 3 "b1" = Some cps
    /\ cps <> []
    /\ Forall (fun c => (c <= unicode_max_codepoint)%Z) cps
    /\ (RAPTOR_PREFIXED_NAME_CHECK_BLANK
        <> RAPTOR_PREFIXED_NAME_CHECK_QNAME_LOCAL ->
        ~ In (ch ":") cps).
Proof.
  refine (accepted_name_codepoints utf8_string_get_char unicode_max_codepoint
            is_xml11_namestartchar is_xml11_namechar
            "b1" RAPTOR_PREFIXED_NAME_CHECK_BLANK _).
  reflexivity.
Defined.

End PrefixedName.

(** ** Parser registry: [raptor_parse.c] *)

Module Registry.

(** The [recognise_syntax] operation of a factory, applied to
    [buffer], [len], [identifier], [suffix] and [mime_type]. *)
Definition recognise_syntax_fn : Type :=
  option string -> nat -> option string -> option string -> option string -> Z.

(** The fields of [raptor_parser_factory] that the registry reads.  The
    [next] pointer is the tail of the list that holds the factory. *)
Record raptor_parser_factory := mk_factory {
  name : string;
  alias : option string;
  label : string;
  mime_type : option string;
  uri_string : option string;
  recognise_syntax : option recognise_syntax_fn
}.

(** The static [parsers]: the list of factories, from its head. *)
Definition parser_list : Type := list raptor_parser_factory.

(** [raptor_parser_register_factory(name, label, mime_type, uri_string,
    factory)]: the new factory and the new value of [parsers]. *)
Definition raptor_parser_register_factory (parsers : parser_list)
           (name_ label_ : string) (mime_type_ uri_string_ : option string)
           (factory : raptor_parser_factory -> raptor_parser_factory)
  : outcome (raptor_parser_factory * parser_list) :=
  if existsb (fun h => String.eqb (name h) name_) parsers then Fatal
  else
    let parser :=
      factory {| name := name_; alias := None; label := label_;
                 mime_type := mime_type_; uri_string := uri_string_;
                 recognise_syntax := None |} in
    Ret (parser, parser :: parsers).

(** The search loop of [raptor_get_parser_factory]. *)
Fixpoint find_factory (name_ : string) (factory : parser_list)
  : option raptor_parser_factory :=
  match factory with
  | [] => None
  | f :: next =>
      if String.eqb (name f) name_
         || match alias f with
            | Some a => String.eqb a name_
            | None => false
            end
      then Some f
      else find_factory name_ next
  end.

(** [raptor_get_parser_factory(name)] *)
Definition raptor_get_parser_factory (parsers : parser_list)
           (name_ : option string) : option raptor_parser_factory :=
  match name_ with
  | None => hd_error parsers
  | Some n => find_factory n parsers
  end.

(** What [raptor_syntaxes_enumerate] stores through its four pointers. *)
Record syntax_description := mk_description {
  d_name : string;
  d_label : string;
  d_mime_type : option string;
  d_uri_string : option string
}.

(** [for(i=0; factory && i<=counter; i++, factory=factory->next)] *)
Fixpoint enumerate_loop (i counter : nat) (factory : parser_list)
  : Z * option syntax_description :=
  match factory with
  | [] => (1%Z, None)
  | f :: next =>
      if Nat.leb i counter then
        if Nat.eqb i counter then
          (0%Z, Some {| d_name := name f; d_label := label f;
                        d_mime_type := mime_type f;
                        d_uri_string := uri_string f |})
        else enumerate_loop (S i) counter next
      else (1%Z, None)
  end.

(** [raptor_syntaxes_enumerate(counter, &name, &label, &mime_type,
    &uri_string)]: the return value and what was stored. *)
Definition raptor_syntaxes_enumerate (parsers : parser_list) (counter : nat)
  : Z * option syntax_description :=
  match parsers with
  | [] => (1%Z, None)
  | _ => enumerate_loop 0 counter parsers
  end.

(** [struct syntax_score] *)
Record syntax_score := mk_score {
  score : Z;
  factory : raptor_parser_factory
}.

(** What an [int] holds after an operation on [int]s whose exact result is
    [z]: [z] itself where it fits.  Where it does not fit, C leaves the
    behaviour undefined; the machine works in two's complement and keeps
    the low 32 bits, and that is what is modelled. *)
Definition int_result (z : Z) : Z :=
  ((z - INT_MIN) mod 2 ^ 32 + INT_MIN)%Z.

(** [compare_syntax_score]: the difference of two scores, an [int].  A
    recorded score is at most 10 and has no bound from below, so the
    difference of two of them need not fit. *)
Definition compare_syntax_score (a b : syntax_score) : Z :=
  int_result (score b - score a).

Definition MAX_PARSERS : nat := 10.

(** [p = strrchr(identifier, '.'); if(p) p++]: what follows the last dot. *)
Fixpoint after_last_dot (identifier : string) : option string :=
  match identifier with
  | EmptyString => None
  | String c rest =>
      match after_last_dot rest with
      | Some p => Some p
      | None => if Ascii.eqb c "." then Some rest else None
      end
  end.

(** [isupper(c) ? tolower(c) : c] in the C locale. *)
Definition lower (c : ascii) : ascii :=
  let n := nat_of_ascii c in
  if Nat.leb 65 n && Nat.leb n 90 then ascii_of_nat (n + 32) else c.

Fixpoint lowercase (s : string) : string :=
  match s with
  | EmptyString => EmptyString
  | String c rest => String (lower c) (lowercase rest)
  end.

Definition suffix_of (identifier : option string) : option string :=
  match identifier with
  | Some id =>
      match after_last_dot id with
      | Some p => Some (lowercase p)
      | None => None
      end
  | None => None
  end.

(** How the loop over the factories ends: at a [break] with [factory]
    pointing to a factory, or at the end of the list with [i] scores. *)
Inductive scan : Type :=
| Matched (factory : raptor_parser_factory)
| Scored (scores : list syntax_score).

(** The loop [for(i=0; factory; i++, factory=factory->next)] of
    [raptor_guess_parser_name]; [scores] holds [scores[0..i-1]]. *)
Fixpoint guess_loop (uri mime_type_ buffer : option string) (len : nat)
         (identifier suffix : option string)
         (i : nat) (factory : parser_list) (scores : list syntax_score)
  : outcome scan :=
  match factory with
  | [] => Ret (Scored scores)
  | f :: next =>
      if streq_opt mime_type_ (mime_type f) then Ret (Matched f)
      else if streq_opt uri (uri_string f) then Ret (Matched f)
      else
        let score_ :=
          match recognise_syntax f with
          | Some recognise => recognise buffer len identifier suffix mime_type_
          | None => (-1)%Z
          end in
        if Nat.ltb MAX_PARSERS i then Fatal
        else if Nat.leb MAX_PARSERS i then
          (* scores[MAX_PARSERS] is past the end of the array *)
          Undefined
        else
          guess_loop uri mime_type_ buffer len identifier suffix (S i) next
            (scores ++ [{| score := if (score_ <? 10)%Z then score_ else 10%Z;
                           factory := f |}])
  end.

(** *** Registration order *)

(** The arguments of one call of [raptor_parser_register_factory]. *)
Record registration := mk_registration {
  r_name : string;
  r_label : string;
  r_mime_type : option string;
  r_uri_string : option string;
  r_factory : raptor_parser_factory -> raptor_parser_factory
}.

(** A run of registrations, first to last: the factories made, in the
    order of the calls, and the final value of [parsers]. *)
Fixpoint register_all (regs : list registration) (parsers : parser_list)
  : outcome (list raptor_parser_factory * parser_list) :=
  match regs with
  | [] => Ret ([], parsers)
  | r :: rest =>
      '(parser, parsers1) <-
        raptor_parser_register_factory parsers (r_name r) (r_label r)
          (r_mime_type r) (r_uri_string r) (r_factory r) ;;
      '(made, parsers2) <- register_all rest parsers1 ;;
      Ret (parser :: made, parsers2)
  end.

Definition describe (f : raptor_parser_factory) : syntax_description :=
  {| d_name := name f; d_label := label f; d_mime_type := mime_type f;
     d_uri_string := uri_string f |}.

Lemma register_all_prepends (regs : list registration) :
  forall parsers made parsers',
    register_all regs parsers = Ret (made, parsers') ->
    parsers' = rev made ++ parsers.
Proof.
  induction regs as [|r rest IH]; intros parsers made parsers'; simpl.
  - intros [= <- <-]. reflexivity.
  - unfold raptor_parser_register_factory.
    destruct (existsb _ parsers); [discriminate|]. simpl.
    destruct (register_all rest _) as [[made1 parsers1]| | | |] eqn:Hrest;
      simpl; try discriminate.
    intros [= <- <-].
    rewrite (IH _ _ _ Hrest). simpl. now rewrite <- app_assoc.
Qed.

Lemma enumerate_loop_nth (factory : parser_list) :
  forall i counter,
    i <= counter ->
    enumerate_loop i counter factory =
    match nth_error factory (counter - i) with
    | Some f => (0%Z, Some (describe f))
    | None => (1%Z, None)
    end.
Proof.
  induction factory as [|f next IH]; intros i counter Hle; simpl.
  - now destruct (counter - i).
  - destruct (Nat.leb_spec i counter); [|lia].
    destruct (Nat.eqb_spec i counter) as [->|Hne].
    + rewrite Nat.sub_diag. reflexivity.
    + rewrite IH by lia.
      replace (counter - i) with (S (counter - S i)) by lia. reflexivity.
Qed.

Lemma raptor_syntaxes_enumerate_nth (parsers : parser_list) (counter : nat) :
  raptor_syntaxes_enumerate parsers counter =
  match nth_error parsers counter with
  | Some f => (0%Z, Some (describe f))
  | None => (1%Z, None)
  end.
Proof.
  unfold raptor_syntaxes_enumerate. destruct parsers as [|f next].
  - now destruct counter.
  - rewrite enumerate_loop_nth by lia. now rewrite Nat.sub_0_r.
Qed.

(** C10. Registration puts the new factory at the head of [parsers].  So
    after a run of registrations on an empty registry
    [raptor_syntaxes_enumerate] presents the factories in the reverse of
    the order in which they were registered (index 0 is the factory
    registered last), and [raptor_get_parser_factory(NULL)] is the factory
    registered last. *)
Theorem registration_order_reversed :
  forall regs made parsers,
    register_all regs [] = Ret (made, parsers) ->
    parsers = rev made
    /\ (forall parsers0 r parser parsers1,
           raptor_parser_register_factory parsers0 (r_name r) (r_label r)
             (r_mime_type r) (r_uri_string r) (r_factory r)
           = Ret (parser, parsers1) ->
           parsers1 = parser :: parsers0)
    /\ (forall counter,
           raptor_syntaxes_enumerate parsers counter =
           match nth_error (rev made) counter with
           | Some f => (0%Z, Some (describe f))
           | None => (1%Z, None)
           end)
    /\ raptor_get_parser_factory parsers None = hd_error (rev made)
    /\ (forall f, made <> [] ->
           raptor_get_parser_factory parsers None = Some (last made f)).
Proof.
  intros regs made parsers Hreg.
  apply register_all_prepends in Hreg. rewrite app_nil_r in Hreg. subst parsers.
  split; [reflexivity|]. split; [|split; [|split]].
  - intros parsers0 r parser parsers1. unfold raptor_parser_register_factory.
    destruct (existsb _ parsers0); [discriminate|]. now intros [= <- <-].
  - intros counter. apply raptor_syntaxes_enumerate_nth.
  - reflexivity.
  - intros f Hmade. simpl.
    destruct made as [|m made] using rev_ind; [contradiction|].
    rewrite rev_app_distr, last_last. reflexivity.
Qed.

(** Three syntaxes, registered in this order. *)
Definition example_registrations : list registration :=
  [ {| r_name := "rdfxml"; r_label := "RDF/XML";
       r_mime_type := Some "application/rdf+xml"; r_uri_string := None;
       r_factory := fun f => f |};
    {| r_name := "ntriples"; r_label := "N-Triples";
       r_mime_type := Some "text/plain"; r_uri_string := None;
       r_factory := fun f => f |};
    {| r_name := "turtle"; r_label := "Turtle";
       r_mime_type := Some "application/x-turtle"; r_uri_string := None;
       r_factory := fun f => f |} ].

Definition example_factory (n l m : string) : raptor_parser_factory :=
  {| name := n; alias := None; label := l; mime_type := Some m;
     uri_string := None; recognise_syntax := None |}.

Definition example_made : list raptor_parser_factory :=
  [ example_factory "rdfxml" "RDF/XML" "application/rdf+xml";
    example_factory "ntriples" "N-Triples" "text/plain";
    example_factory "turtle" "Turtle" "application/x-turtle" ].

Example register_twice_is_fatal :
  register_all (example_registrations ++ [nth 0 example_registrations
     {| r_name := ""; r_label := ""; r_mime_type := None; r_uri_string := None;
        r_factory := fun f => f |}]) [] = Fatal.
Proof. reflexivity. Qed.

(** [registration_order_reversed] at these three registrations: the
    factory at index 0 and the default factory are the one of "turtle". *)
Lemma registration_order_reversed_witness :
  raptor_syntaxes_enumerate (rev example_made) 0
  = (0%Z, Some (describe (example_factory "turtle" "Turtle" "application/x-turtle")))
  /\ raptor_get_parser_factory (rev example_made) None
     = Some (example_factory "turtle" "Turtle" "application/x-turtle").
Proof.
  destruct (registration_order_reversed example_registrations example_made
              (rev example_made) eq_refl) as [_ [_ [Henum [Hdefault _]]]].
  split.
  - rewrite Henum. reflexivity.
  - rewrite Hdefault. reflexivity.
Defined.

Section Guess.

(** The C library's [qsort], called with [compare_syntax_score]. *)
Variable qsort : list syntax_score -> list syntax_score.

(** [raptor_guess_parser_name(uri, mime_type, buffer, len, identifier)]:
    the name, or [None] for NULL. *)
Definition raptor_guess_parser_name (parsers : parser_list)
           (uri mime_type_ buffer : option string) (len : nat)
           (identifier : option string) : outcome (option string) :=
  let suffix := suffix_of identifier in
  r <- guess_loop uri mime_type_ buffer len identifier suffix 0 parsers [] ;;
  match r with
  | Matched f => Ret (Some (name f))
  | Scored scores =>
      match qsort scores with
      | [] => Undefined (* scores[0] was never written *)
      | s0 :: _ =>
          if (0 <=? score s0)%Z then Ret (Some (name (factory s0)))
          else Ret None
      end
  end.

(** *** What the guess returns *)

(** The score [recognise_syntax] gives a factory, -1 when it has none. *)
Definition recognised (buffer : option string) (len : nat)
           (identifier mime_type_ : option string) (f : raptor_parser_factory) : Z :=
  match recognise_syntax f with
  | Some recognise =>
      recognise buffer len identifier (suffix_of identifier) mime_type_
  | None => (-1)%Z
  end.

(** The entry of [scores] written for a factory. *)
Definition scored (buffer : option string) (len : nat)
           (identifier mime_type_ : option string) (f : raptor_parser_factory)
  : syntax_score :=
  {| score := Z.min (recognised buffer len identifier mime_type_ f) 10;
     factory := f |}.

(** A factory matches when its MIME type is the one given or, if not, its
    URI string is the URI given. *)
Definition exact_match (uri mime_type_ : option string)
           (f : raptor_parser_factory) : bool :=
  streq_opt mime_type_ (mime_type f) || streq_opt uri (uri_string f).

Lemma clamp_min (score_ : Z) :
  (if (score_ <? 10)%Z then score_ else 10%Z) = Z.min score_ 10.
Proof.
  destruct (Z.ltb_spec score_ 10); lia.
Qed.

Lemma guess_loop_scan (uri mime_type_ buffer : option string) (len : nat)
      (identifier : option string) (l : parser_list) :
  forall i scores,
    i + List.length l <= MAX_PARSERS ->
    guess_loop uri mime_type_ buffer len identifier (suffix_of identifier)
               i l scores =
    match find (exact_match uri mime_type_) l with
    | Some f => Ret (Matched f)
    | None =>
        Ret (Scored (scores ++ map (scored buffer len identifier mime_type_) l))
    end.
Proof.
  induction l as [|f next IH]; intros i scores Hlen.
  - simpl. now rewrite app_nil_r.
  - cbn [guess_loop find List.length map] in *.
    unfold exact_match at 1.
    destruct (streq_opt mime_type_ (mime_type f)); [reflexivity|].
    destruct (streq_opt uri (uri_string f)); [reflexivity|]. cbn [orb].
    destruct (Nat.ltb_spec MAX_PARSERS i); [lia|].
    destruct (Nat.leb_spec MAX_PARSERS i); [lia|].
    rewrite IH by lia.
    destruct (find (exact_match uri mime_type_) next); [reflexivity|].
    rewrite <- app_assoc. cbn [app]. unfold scored at 2, recognised.
    now rewrite clamp_min.
Qed.

Lemma guess_loop_matched (uri mime_type_ buffer : option string) (len : nat)
      (identifier suffix : option string) (f : raptor_parser_factory)
      (after : parser_list) (before : parser_list) :
  forall i scores,
    i + List.length before <= MAX_PARSERS ->
    find (exact_match uri mime_type_) before = None ->
    exact_match uri mime_type_ f = true ->
    guess_loop uri mime_type_ buffer len identifier suffix i
               (before ++ f :: after) scores = Ret (Matched f).
Proof.
  induction before as [|g next IH]; intros i scores Hlen Hbefore Hf.
  - cbn [app guess_loop]. unfold exact_match in Hf.
    destruct (streq_opt mime_type_ (mime_type f)); [reflexivity|].
    destruct (streq_opt uri (uri_string f)); [reflexivity|discriminate].
  - cbn [app guess_loop find List.length] in *.
    unfold exact_match at 1 in Hbefore.
    destruct (streq_opt mime_type_ (mime_type g)); [discriminate|].
    destruct (streq_opt uri (uri_string g)); [discriminate|]. cbn [orb] in Hbefore.
    destruct (Nat.ltb_spec MAX_PARSERS i); [lia|].
    destruct (Nat.leb_spec MAX_PARSERS i); [lia|].
    apply IH; [lia|exact Hbefore|exact Hf].
Qed.

Lemma int_result_fits (z : Z) :
  (INT_MIN <= z <= INT_MAX)%Z -> int_result z = z.
Proof.
  intros Hz. unfold int_result, INT_MIN, INT_MAX in *.
  rewrite Z.mod_small by lia. lia.
Qed.

(** An array of scores on which the comparison function does not overflow:
    the difference of any two of its scores fits an [int]. *)
Definition differences_fit (scores : list syntax_score) : Prop :=
  forall a b, In a scores -> In b scores ->
              (INT_MIN <= score b - score a <= INT_MAX)%Z.

Lemma compare_syntax_score_exact (scores : list syntax_score)
      (a b : syntax_score) :
  differences_fit scores -> In a scores -> In b scores ->
  compare_syntax_score a b = (score b - score a)%Z.
Proof.
  intros Hfit Ha Hb. unfold compare_syntax_score.
  apply int_result_fits. now apply Hfit.
Qed.

Lemma differences_fit_perm (scores scores' : list syntax_score) :
  Permutation scores scores' -> differences_fit scores ->
  differences_fit scores'.
Proof.
  intros Hperm Hfit a b Ha Hb.
  apply Hfit; apply (Permutation_in _ (Permutation_sym Hperm)); assumption.
Qed.

(** Where the comparison function does not overflow it is the order of
    the scores, and [qsort] leaves a permutation of the array in which no
    entry is followed by one that the comparison function puts before it.
    Of an array on which the comparison overflows nothing is assumed. *)
Hypothesis qsort_sorts :
  forall scores,
    differences_fit scores ->
    Permutation scores (qsort scores)
    /\ StronglySorted (fun a b => (compare_syntax_score a b <= 0)%Z)
                      (qsort scores).

(** The recorded scores lie so close that no difference of two of them
    overflows. *)
Lemma recorded_differences_fit (parsers : parser_list)
      (buffer : option string) (len : nat) (identifier mime_type_ : option string) :
  (forall f g, In f parsers -> In g parsers ->
               (score (scored buffer len identifier mime_type_ g)
                - score (scored buffer len identifier mime_type_ f)
                <= INT_MAX)%Z) ->
  differences_fit (map (scored buffer len identifier mime_type_) parsers).
Proof.
  intros Hclose a b Ha Hb.
  apply in_map_iff in Ha. destruct Ha as [f [<- Hf]].
  apply in_map_iff in Hb. destruct Hb as [g [<- Hg]].
  pose proof (Hclose f g Hf Hg). pose proof (Hclose g f Hg Hf).
  unfold INT_MIN, INT_MAX in *. lia.
Qed.

(** What the sorted array starts with, where the comparison does not
    overflow: an entry of the array whose score no other exceeds. *)
Lemma qsort_head_greatest (scores : list syntax_score) :
  differences_fit scores -> scores <> [] ->
  exists s0 rest,
    qsort scores = s0 :: rest
    /\ In s0 scores
    /\ forall s, In s scores -> (score s <= score s0)%Z.
Proof.
  intros Hfit Hne.
  destruct (qsort_sorts scores Hfit) as [Hperm Hsorted].
  destruct (qsort scores) as [|s0 rest] eqn:Hq.
  { apply Permutation_sym, Permutation_nil in Hperm. contradiction. }
  exists s0, rest. split; [reflexivity|].
  assert (Hs0 : In s0 scores).
  { apply (Permutation_in _ (Permutation_sym Hperm)). now left. }
  split; [exact Hs0|].
  intros s Hs.
  assert (Hs' : In s (s0 :: rest)) by now apply (Permutation_in _ Hperm).
  destruct Hs' as [<-|Hrest]; [lia|].
  apply StronglySorted_inv in Hsorted. destruct Hsorted as [_ Hall].
  rewrite Forall_forall in Hall. specialize (Hall _ Hrest).
  rewrite (compare_syntax_score_exact scores) in Hall by assumption. lia.
Qed.

(** C6, as amended.  [raptor_guess_parser_name] returns the name of the
    first factory, in the order of the list, whose MIME type is the one
    given or whose URI string is the URI given; the array of scores has
    [MAX_PARSERS] entries, and a factory is found when at most that many
    stand before it.  When there is no such factory, the registry is not
    empty and has at most [MAX_PARSERS] factories, every factory is scored
    by its [recognise_syntax], the score recorded being at most 10; and
    where no two recorded scores are further apart than [INT_MAX], which
    is where the comparison function does not overflow, the result is the
    name of a factory whose recorded score is the greatest when that score
    is not negative, and NULL otherwise. *)
Theorem raptor_guess_parser_name_first_match_or_best
        (parsers : parser_list) (uri mime_type_ buffer : option string)
        (len : nat) (identifier : option string) :
  let guess :=
    raptor_guess_parser_name parsers uri mime_type_ buffer len identifier in
  let recorded f := score (scored buffer len identifier mime_type_ f) in
  (forall before f after,
      parsers = before ++ f :: after ->
      List.length before <= MAX_PARSERS ->
      find (exact_match uri mime_type_) before = None ->
      exact_match uri mime_type_ f = true ->
      guess = Ret (Some (name f)))
  /\ (find (exact_match uri mime_type_) parsers = None ->
      parsers <> [] ->
      List.length parsers <= MAX_PARSERS ->
      (forall f, In f parsers -> (recorded f <= 10)%Z)
      /\ ((forall f g, In f parsers -> In g parsers ->
                       (recorded g - recorded f <= INT_MAX)%Z) ->
          (exists f, In f parsers
                     /\ (0 <= recorded f)%Z
                     /\ (forall g, In g parsers -> (recorded g <= recorded f)%Z)
                     /\ guess = Ret (Some (name f)))
          \/ ((forall g, In g parsers -> (recorded g < 0)%Z)
              /\ guess = Ret None))).
Proof.
  intros guess recorded. subst guess. unfold raptor_guess_parser_name. split.
  - intros before f after -> Hlen Hbefore Hf.
    rewrite (guess_loop_matched uri mime_type_ buffer len identifier
               (suffix_of identifier) f after before 0 [])
      by (simpl; auto).
    reflexivity.
  - intros Hnone Hne Hlen.
    split; [intros f _; subst recorded; simpl; lia|].
    intros Hclose.
    rewrite guess_loop_scan by (simpl; lia). rewrite Hnone. simpl.
    set (scores := map (scored buffer len identifier mime_type_) parsers).
    destruct (qsort_head_greatest scores) as [s0 [rest [Hq [Hs0 Hmax]]]].
    { now apply recorded_differences_fit. }
    { subst scores. destruct parsers; [contradiction|discriminate]. }
    rewrite Hq.
    apply in_map_iff in Hs0. destruct Hs0 as [f [Hf Hin]].
    assert (Hmax' : forall g, In g parsers -> (recorded g <= score s0)%Z).
    { intros g Hg. apply Hmax. subst scores. now apply in_map. }
    destruct (Z.leb_spec 0 (score s0)) as [Hpos|Hneg].
    + left. exists f. subst s0. repeat split; auto.
    + right. split; [|reflexivity].
      intros g Hg. specialize (Hmax' g Hg). lia.
Qed.

End Guess.

(** *** A sort to run the guess with *)

(** Insertion of an entry into a list sorted by falling scores. *)
Fixpoint insert_score (a : syntax_score) (l : list syntax_score)
  : list syntax_score :=
  match l with
  | [] => [a]
  | b :: rest =>
      if (compare_syntax_score a b <=? 0)%Z then a :: l
      else b :: insert_score a rest
  end.

Fixpoint sort_scores (l : list syntax_score) : list syntax_score :=
  match l with
  | [] => []
  | a :: rest => insert_score a (sort_scores rest)
  end.

Lemma insert_score_perm (a : syntax_score) (l : list syntax_score) :
  Permutation (a :: l) (insert_score a l).
Proof.
  induction l as [|b rest IH]; simpl; [reflexivity|].
  destruct (compare_syntax_score a b <=? 0)%Z; [reflexivity|].
  rewrite perm_swap. now apply perm_skip.
Qed.

Lemma sort_scores_perm (scores : list syntax_score) :
  Permutation scores (sort_scores scores).
Proof.
  induction scores as [|a rest IH]; simpl; [constructor|].
  rewrite <- insert_score_perm. now apply perm_skip.
Qed.

Lemma insert_score_sorted (a : syntax_score) (l : list syntax_score) :
  differences_fit (a :: l) ->
  StronglySorted (fun x y => (compare_syntax_score x y <= 0)%Z) l ->
  StronglySorted (fun x y => (compare_syntax_score x y <= 0)%Z)
                 (insert_score a l).
Proof.
  intros Hfit.
  assert (Hexact : forall x y, In x (a :: l) -> In y (a :: l) ->
                     compare_syntax_score x y = (score y - score x)%Z).
  { intros x y. now apply compare_syntax_score_exact. }
  clear Hfit.
  induction l as [|b rest IH]; simpl; intros Hs.
  - constructor; constructor.
  - apply StronglySorted_inv in Hs. destruct Hs as [Hrest Hb].
    destruct (Z.leb_spec (compare_syntax_score a b) 0) as [Hab|Hab].
    + constructor; [constructor; assumption|].
      constructor; [assumption|].
      rewrite Forall_forall in Hb |- *. intros x Hx. specialize (Hb x Hx).
      rewrite Hexact in * by (simpl; auto). lia.
    + constructor.
      * apply IH; [|exact Hrest].
        intros x y Hx Hy. apply Hexact; simpl in *; tauto.
      * rewrite Forall_forall in Hb |- *. intros x Hx.
        apply (Permutation_in _ (Permutation_sym (insert_score_perm a rest))) in Hx.
        destruct Hx as [<-|Hx]; [|auto].
        rewrite Hexact in * by (simpl; auto). lia.
Qed.

Lemma sort_scores_sorts (scores : list syntax_score) :
  differences_fit scores ->
  Permutation scores (sort_scores scores)
  /\ StronglySorted (fun a b => (compare_syntax_score a b <= 0)%Z)
                    (sort_scores scores).
Proof.
  intros Hfit. split; [apply sort_scores_perm|].
  induction scores as [|a rest IH]; simpl; [constructor|].
  apply insert_score_sorted.
  - apply (differences_fit_perm (a :: rest)); [|exact Hfit].
    apply perm_skip, sort_scores_perm.
  - apply IH. intros x y Hx Hy. apply Hfit; now right.
Qed.

(** Two factories: the first is known by a URI, the second by a MIME
    type. *)
Definition by_uri_factory : raptor_parser_factory :=
  {| name := "first"; alias := None; label := "known by its URI";
     mime_type := None; uri_string := Some "http://example.org/syntax";
     recognise_syntax := None |}.

Definition by_mime_factory : raptor_parser_factory :=
  {| name := "second"; alias := None; label := "known by its MIME type";
     mime_type := Some "text/x-example"; uri_string := None;
     recognise_syntax := None |}.

(** C6 as the specification words it fails: with a URI that is the first
    factory's and a MIME type that is the second factory's, the first
    factory whose MIME type is the one given is "second", yet the guess is
    "first". *)
Lemma guess_uri_match_before_mime_match :
  find (fun f => streq_opt (Some "text/x-example") (mime_type f))
       [by_uri_factory; by_mime_factory] = Some by_mime_factory
  /\ raptor_guess_parser_name sort_scores [by_uri_factory; by_mime_factory]
       (Some "http://example.org/syntax") (Some "text/x-example") None 0 None
     = Ret (Some "first")
  /\ name by_mime_factory <> "first".
Proof.
  split; [reflexivity|]. split; [reflexivity|]. discriminate.
Qed.

(** Factories that tell a syntax from the suffix of the identifier. *)
Definition suffix_factory (n suffix : string) (points : Z) : raptor_parser_factory :=
  {| name := n; alias := None; label := n; mime_type := None; uri_string := None;
     recognise_syntax :=
       Some (fun _ _ _ suffix' _ =>
               if streq_opt suffix' (Some suffix) then points else 0%Z) |}.

Definition example_parsers : parser_list :=
  [ suffix_factory "turtle" "ttl" 8; suffix_factory "rdfxml" "rdf" 12;
    suffix_factory "ntriples" "nt" 9 ].

Example guess_by_suffix :
  raptor_guess_parser_name sort_scores example_parsers None None None 0
    (Some "data/FOAF.RDF") = Ret (Some "rdfxml").
Proof. reflexivity. Qed.

Example guess_empty_registry :
  raptor_guess_parser_name sort_scores [] None None None 0 None = Undefined.
Proof. reflexivity. Qed.

Example guess_negative_scores :
  raptor_guess_parser_name sort_scores [by_uri_factory; by_mime_factory]
    None None None 0 None = Ret None.
Proof. reflexivity. Qed.

(** A factory found by its MIME type when [MAX_PARSERS] factories stand
    before it, in a registry of eleven. *)
Example guess_match_after_ten :
  raptor_guess_parser_name sort_scores
    (repeat by_uri_factory MAX_PARSERS ++ [by_mime_factory])
    None (Some "text/x-example") None 0 None = Ret (Some "second").
Proof. reflexivity. Qed.

(** A factory whose [recognise_syntax] returns [INT_MIN] whatever it is
    given. *)
Definition lowest_factory : raptor_parser_factory :=
  {| name := "lowest"; alias := None; label := "lowest"; mime_type := None;
     uri_string := None;
     recognise_syntax := Some (fun _ _ _ _ _ => INT_MIN) |}.

(** Where two scores lie further apart than [INT_MAX] the comparison
    function overflows: 5 - [INT_MIN] comes out negative, the entry of
    "lowest" is put first, and the guess is NULL although a factory scored
    5. *)
Example guess_with_overflowing_comparison :
  compare_syntax_score {| score := INT_MIN; factory := lowest_factory |}
                       {| score := 5; factory := suffix_factory "five" "x" 5 |}
  = (-2147483643)%Z
  /\ raptor_guess_parser_name sort_scores
       [lowest_factory; suffix_factory "five" "x" 5] None None None 0
       (Some "a.x") = Ret None
  /\ raptor_guess_parser_name sort_scores
       [suffix_factory "five" "x" 5; lowest_factory] None None None 0
       (Some "a.x") = Ret None.
Proof. repeat split; reflexivity. Qed.

(** [raptor_guess_parser_name_first_match_or_best] with this sort, at the
    two factories above (a match) and at the three that score. *)
Lemma raptor_guess_parser_name_first_match_or_best_witness :
  raptor_guess_parser_name sort_scores [by_uri_factory; by_mime_factory]
    (Some "http://example.org/syntax") (Some "text/x-example") None 0 None
  = Ret (Some "first")
  /\ ((exists f, In f example_parsers
         /\ raptor_guess_parser_name sort_scores example_parsers None None None 0
              (Some "data/FOAF.RDF") = Ret (Some (name f)))
      \/ raptor_guess_parser_name sort_scores example_parsers None None None 0
           (Some "data/FOAF.RDF") = Ret None).
Proof.
  split.
  - apply (proj1 (raptor_guess_parser_name_first_match_or_best sort_scores
                    sort_scores_sorts [by_uri_factory; by_mime_factory]
                    (Some "http://example.org/syntax") (Some "text/x-example")
                    None 0 None) [] by_uri_factory [by_mime_factory]).
    + reflexivity.
    + unfold MAX_PARSERS. simpl. lia.
    + reflexivity.
    + reflexivity.
  - destruct (proj2 (raptor_guess_parser_name_first_match_or_best sort_scores
                       sort_scores_sorts example_parsers None None None 0
                       (Some "data/FOAF.RDF")))
      as [_ [[f [Hin [_ [_ Hg]]]]|[_ Hg]]].
    + reflexivity.
    + discriminate.
    + unfold MAX_PARSERS. simpl. lia.
    + intros f g Hf Hg. simpl in Hf, Hg.
      repeat (destruct Hf as [<-|Hf]; [repeat (destruct Hg as [<-|Hg];
                [vm_compute; discriminate|]); contradiction|]).
      contradiction.
    + left. exists f. split; [exact Hin|exact Hg].
    + right. exact Hg.
Defined.

(** *** Aliases and look-up by name *)

(** [raptor_parser_factory_add_alias(factory, alias)]: the factory
    afterwards.  The alias is compared with the names of the factories in
    [parsers], not with their aliases; an alias the factory had is
    overwritten. *)
Definition raptor_parser_factory_add_alias (parsers : parser_list)
           (factory_ : raptor_parser_factory) (alias_ : string)
  : outcome raptor_parser_factory :=
  if existsb (fun p => String.eqb (name p) alias_) parsers then Fatal
  else
    Ret {| name := name factory_; alias := Some alias_; label := label factory_;
           mime_type := mime_type factory_; uri_string := uri_string factory_;
           recognise_syntax := recognise_syntax factory_ |}.

(** [raptor_syntax_name_check(name)] *)
Definition raptor_syntax_name_check (parsers : parser_list)
           (name_ : option string) : Z :=
  match raptor_get_parser_factory parsers name_ with
  | Some _ => 1%Z
  | None => 0%Z
  end.

(** [raptor_parsers_enumerate(counter, &name, &label)]: the return value
    and the name and label stored. *)
Definition raptor_parsers_enumerate (parsers : parser_list) (counter : nat)
  : Z * option (string * string) :=
  match raptor_syntaxes_enumerate parsers counter with
  | (rc, Some d) => (rc, Some (d_name d, d_label d))
  | (rc, None) => (rc, None)
  end.

(** Whether a factory answers to a name: by its name or by its alias. *)
Definition answers_to (name_ : string) (f : raptor_parser_factory) : bool :=
  String.eqb (name f) name_
  || match alias f with
     | Some a => String.eqb a name_
     | None => false
     end.

Lemma find_factory_find (name_ : string) (parsers : parser_list) :
  find_factory name_ parsers = find (answers_to name_) parsers.
Proof.
  induction parsers as [|f next IH]; simpl; [reflexivity|].
  unfold answers_to at 1. now rewrite IH.
Qed.

Lemma find_first {A : Type} (test : A -> bool) (l : list A) (x : A) :
  find test l = Some x ->
  exists before after,
    l = before ++ x :: after /\ test x = true
    /\ forall y, In y before -> test y = false.
Proof.
  induction l as [|a l IH]; simpl; [discriminate|].
  destruct (test a) eqn:Ha.
  - intros [= <-]. exists [], l. repeat split; auto. intros y [].
  - intros Hx. destruct (IH Hx) as (before & after & -> & Htest & Hbefore).
    exists (a :: before), after. repeat split; auto.
    intros y [<-|Hy]; auto.
Qed.

Lemma answers_to_spec (name_ : string) (f : raptor_parser_factory) :
  answers_to name_ f = true <-> name f = name_ \/ alias f = Some name_.
Proof.
  unfold answers_to. rewrite orb_true_iff, String.eqb_eq.
  destruct (alias f) as [a|].
  - rewrite String.eqb_eq. split; intros [H|H]; auto.
    + right. now f_equal.
    + right. now injection H.
  - split; intros [H|H]; auto; discriminate.
Qed.

Lemma answers_to_not (name_ : string) (f : raptor_parser_factory) :
  answers_to name_ f = false <-> name f <> name_ /\ alias f <> Some name_.
Proof.
  rewrite <- not_true_iff_false, answers_to_spec. tauto.
Qed.

(** X10. Look-up by name.  [raptor_get_parser_factory] with a name returns
    the first factory of the list - the one registered last - whose name or
    whose alias is that name, and NULL exactly when no factory has it as
    name or alias; [raptor_syntax_name_check] tells the two cases apart,
    and with a NULL name it is 0 only on the empty registry. *)
Theorem get_parser_factory_first_answering :
  forall parsers name_,
    (forall f,
        raptor_get_parser_factory parsers (Some name_) = Some f ->
        exists before after,
          parsers = before ++ f :: after
          /\ (name f = name_ \/ alias f = Some name_)
          /\ forall g, In g before -> name g <> name_ /\ alias g <> Some name_)
    /\ (raptor_get_parser_factory parsers (Some name_) = None <->
        forall g, In g parsers -> name g <> name_ /\ alias g <> Some name_)
    /\ (raptor_syntax_name_check parsers (Some name_) = 0%Z <->
        raptor_get_parser_factory parsers (Some name_) = None)
    /\ (raptor_syntax_name_check parsers None = 0%Z <-> parsers = []).
Proof.
  intros parsers n. unfold raptor_syntax_name_check, raptor_get_parser_factory.
  rewrite find_factory_find. split; [|split; [|split]].
  - intros f Hf. destruct (find_first _ _ _ Hf) as (b & a & -> & Ht & Hb).
    exists b, a. split; [reflexivity|]. split; [now apply answers_to_spec|].
    intros g Hg. apply answers_to_not. auto.
  - split.
    + intros Hnone g Hg. apply answers_to_not.
      exact (find_none _ _ Hnone g Hg).
    + intros Hall. destruct (find (answers_to n) parsers) as [f|] eqn:Hf;
        [|reflexivity].
      apply find_some in Hf. destruct Hf as [Hin Ht].
      apply answers_to_spec in Ht. destruct (Hall f Hin). tauto.
  - destruct (find (answers_to n) parsers); split; intros H;
      try reflexivity; discriminate.
  - destruct parsers; simpl; split; intros H; try reflexivity; discriminate.
Qed.

(** *** Registrations that give an alias

    A factory gets its alias in the function that
    [raptor_parser_register_factory] calls on the new object, before the
    object is linked into the list.  [register_aliased] is such a
    registration: the function given is the identity or a call of
    [raptor_parser_factory_add_alias].  The check of the name and the
    check of the alias both look at the list as it is before the call and
    both end in [RAPTOR_FATAL], so that the result does not depend on
    which of them is made first. *)
Record aliased_registration := mk_aliased {
  a_name : string;
  a_label : string;
  a_mime_type : option string;
  a_uri_string : option string;
  a_alias : option string
}.

Definition register_aliased (parsers : parser_list) (r : aliased_registration)
  : outcome (raptor_parser_factory * parser_list) :=
  match a_alias r with
  | None =>
      raptor_parser_register_factory parsers (a_name r) (a_label r)
        (a_mime_type r) (a_uri_string r) (fun f => f)
  | Some a =>
      if existsb (fun p => String.eqb (name p) a) parsers then Fatal
      else
        raptor_parser_register_factory parsers (a_name r) (a_label r)
          (a_mime_type r) (a_uri_string r)
          (fun f => match raptor_parser_factory_add_alias parsers f a with
                    | Ret f' => f'
                    | _ => f
                    end)
  end.

Fixpoint register_all_aliased (regs : list aliased_registration)
         (parsers : parser_list) : outcome parser_list :=
  match regs with
  | [] => Ret parsers
  | r :: rest =>
      '(_, parsers1) <- register_aliased parsers r ;;
      register_all_aliased rest parsers1
  end.

(** No factory stands in the list before another whose name it has as its
    name or as its alias. *)
Definition unshadowed (parsers : parser_list) : Prop :=
  forall before f after,
    parsers = before ++ f :: after ->
    forall g, In g before -> name g <> name f /\ alias g <> Some (name f).

Lemma register_aliased_new (parsers : parser_list) (r : aliased_registration)
      (parser : raptor_parser_factory) (parsers' : parser_list) :
  register_aliased parsers r = Ret (parser, parsers') ->
  parsers' = parser :: parsers
  /\ name parser = a_name r /\ alias parser = a_alias r
  /\ (forall f, In f parsers ->
                name f <> a_name r /\ Some (name f) <> a_alias r).
Proof.
  unfold register_aliased, raptor_parser_register_factory,
    raptor_parser_factory_add_alias.
  destruct (a_alias r) as [a|].
  - destruct (existsb (fun p => String.eqb (name p) a) parsers) eqn:Ha;
      [discriminate|].
    destruct (existsb (fun h => String.eqb (name h) (a_name r)) parsers) eqn:Hn;
      [discriminate|].
    intros [= <- <-]. repeat split; auto.
    + intros Hf. assert (Ht : existsb (fun h => String.eqb (name h) (a_name r)) parsers = true).
      { apply existsb_exists. exists f. split; [assumption|now apply String.eqb_eq]. }
      congruence.
    + intros [= Hf]. assert (Ht : existsb (fun p => String.eqb (name p) a) parsers = true).
      { apply existsb_exists. exists f. split; [assumption|now apply String.eqb_eq]. }
      congruence.
  - destruct (existsb (fun h => String.eqb (name h) (a_name r)) parsers) eqn:Hn;
      [discriminate|].
    intros [= <- <-]. repeat split; auto; [|discriminate].
    intros Hf. assert (Ht : existsb (fun h => String.eqb (name h) (a_name r)) parsers = true).
    { apply existsb_exists. exists f. split; [assumption|now apply String.eqb_eq]. }
    congruence.
Qed.

Lemma register_aliased_unshadowed (parsers : parser_list)
      (r : aliased_registration) (parser : raptor_parser_factory)
      (parsers' : parser_list) :
  unshadowed parsers ->
  register_aliased parsers r = Ret (parser, parsers') ->
  unshadowed parsers'.
Proof.
  intros Hok Hreg.
  destruct (register_aliased_new _ _ _ _ Hreg) as (-> & Hname & Halias & Hfresh).
  intros before f after Hsplit g Hg.
  destruct before as [|b before]; [destruct Hg|].
  injection Hsplit as <- Hsplit.
  assert (Hf : In f parsers).
  { rewrite Hsplit. apply in_or_app. right. now left. }
  destruct Hg as [<-|Hg].
  - destruct (Hfresh f Hf) as [H1 H2]. rewrite Hname, Halias. split; congruence.
  - exact (Hok before f after Hsplit g Hg).
Qed.

Lemma register_all_aliased_unshadowed (regs : list aliased_registration) :
  forall parsers parsers',
    unshadowed parsers ->
    register_all_aliased regs parsers = Ret parsers' ->
    unshadowed parsers'.
Proof.
  induction regs as [|r rest IH]; intros parsers parsers' Hok; simpl.
  - now intros [= <-].
  - destruct (register_aliased parsers r) as [[parser parsers1]| | | |] eqn:Hreg;
      simpl; try discriminate.
    apply IH. exact (register_aliased_unshadowed _ _ _ _ Hok Hreg).
Qed.

Lemma unshadowed_lookup (parsers : parser_list) (f : raptor_parser_factory) :
  unshadowed parsers -> In f parsers ->
  raptor_get_parser_factory parsers (Some (name f)) = Some f.
Proof.
  intros Hok Hin. unfold raptor_get_parser_factory. rewrite find_factory_find.
  destruct (in_split _ _ Hin) as (before & after & ->).
  assert (Hbefore : forall g, In g before -> answers_to (name f) g = false).
  { intros g Hg. apply answers_to_not. exact (Hok before f after eq_refl g Hg). }
  clear Hok Hin. induction before as [|b before IH]; simpl.
  - assert (Hf : answers_to (name f) f = true) by (apply answers_to_spec; now left).
    now rewrite Hf.
  - rewrite (Hbefore b) by now left. apply IH. intros g Hg. apply Hbefore. now right.
Qed.

Lemma unshadowed_NoDup (parsers : parser_list) :
  unshadowed parsers -> NoDup (map name parsers).
Proof.
  induction parsers as [|f rest IH]; intros Hok; simpl; constructor.
  - intros Hin. apply in_map_iff in Hin. destruct Hin as (g & Hname & Hg).
    destruct (in_split _ _ Hg) as (b & a & ->).
    destruct (Hok (f :: b) g a eq_refl f (or_introl eq_refl)) as [H _].
    congruence.
  - apply IH. intros before g after -> h Hh.
    exact (Hok (f :: before) g after eq_refl h (or_intror Hh)).
Qed.

(** X11. A registry built by registrations that give their aliases through
    [raptor_parser_factory_add_alias] keeps the names apart: no two
    factories have the same name, every factory is the one found under its
    own name, and so every registered name passes
    [raptor_syntax_name_check]. *)
Theorem registered_name_finds_its_factory
        (regs : list aliased_registration) (parsers : parser_list) :
  register_all_aliased regs [] = Ret parsers ->
  NoDup (map name parsers)
  /\ forall f, In f parsers ->
       raptor_get_parser_factory parsers (Some (name f)) = Some f
       /\ raptor_syntax_name_check parsers (Some (name f)) = 1%Z.
Proof.
  intros Hregs.
  assert (Hok : unshadowed parsers).
  { apply (register_all_aliased_unshadowed regs [] parsers); [|exact Hregs].
    intros before f after Hsplit. destruct before; discriminate. }
  split; [now apply unshadowed_NoDup|].
  intros f Hf. unfold raptor_syntax_name_check.
  now rewrite (unshadowed_lookup _ _ Hok Hf).
Qed.

(** A factory's alias is no such key: a later registration may take it as
    its name, and then the alias leads to the newer factory. *)
Definition aliased_registrations : list aliased_registration :=
  [ {| a_name := "ntriples"; a_label := "N-Triples"; a_mime_type := None;
       a_uri_string := None; a_alias := Some "nt" |};
    {| a_name := "nt"; a_label := "Another syntax"; a_mime_type := None;
       a_uri_string := None; a_alias := None |} ].

Definition aliased_parsers : parser_list :=
  [ {| name := "nt"; alias := None; label := "Another syntax";
       mime_type := None; uri_string := None; recognise_syntax := None |};
    {| name := "ntriples"; alias := Some "nt"; label := "N-Triples";
       mime_type := None; uri_string := None; recognise_syntax := None |} ].

Example alias_taken_as_name :
  register_all_aliased aliased_registrations [] = Ret aliased_parsers
  /\ raptor_get_parser_factory aliased_parsers (Some "nt")
     = hd_error aliased_parsers.
Proof. split; reflexivity. Qed.

Example alias_of_registered_name_is_fatal :
  register_all_aliased (rev aliased_registrations) [] = Fatal.
Proof. reflexivity. Qed.

Lemma registered_name_finds_its_factory_witness :
  NoDup (map name aliased_parsers)
  /\ forall f, In f aliased_parsers ->
       raptor_get_parser_factory aliased_parsers (Some (name f)) = Some f
       /\ raptor_syntax_name_check aliased_parsers (Some (name f)) = 1%Z.
Proof.
  exact (registered_name_finds_its_factory aliased_registrations
           aliased_parsers eq_refl).
Defined.

(** X12. Names listed and names known.  [raptor_parsers_enumerate] gives,
    for a counter below the number of factories, 0 with the name and the
    label of the factory at that place of the list, and every name it
    gives passes [raptor_syntax_name_check]; for any other counter it
    gives 1 and stores nothing. *)
Theorem enumerated_names_are_known :
  forall parsers counter,
    (counter < List.length parsers ->
     exists f,
       nth_error parsers counter = Some f
       /\ raptor_parsers_enumerate parsers counter
          = (0%Z, Some (name f, label f))
       /\ raptor_syntax_name_check parsers (Some (name f)) = 1%Z)
    /\ (List.length parsers <= counter ->
        raptor_parsers_enumerate parsers counter = (1%Z, None)).
Proof.
  intros parsers counter. unfold raptor_parsers_enumerate.
  rewrite raptor_syntaxes_enumerate_nth. split.
  - intros Hlt. destruct (nth_error parsers counter) as [f|] eqn:Hnth.
    + exists f. split; [reflexivity|]. split; [reflexivity|].
      unfold raptor_syntax_name_check, raptor_get_parser_factory.
      rewrite find_factory_find.
      destruct (find (answers_to (name f)) parsers) eqn:Hfind; [reflexivity|].
      pose proof (find_none _ _ Hfind f (nth_error_In _ _ Hnth)) as Hno.
      apply answers_to_not in Hno. destruct Hno as [Hno _]. contradiction.
    + apply nth_error_None in Hnth. lia.
  - intros Hge. apply nth_error_None in Hge. now rewrite Hge.
Qed.

End Registry.

(** ** Parser objects: [raptor_parse.c] *)

Module Parser.
Import Registry.

(** The enumerators of [raptor_feature] that [raptor_parse.c] names, and
    any other value of the type (the [default:] of its switches). *)
Inductive raptor_feature : Type :=
| RAPTOR_FEATURE_SCANNING
| RAPTOR_FEATURE_ASSUME_IS_RDF
| RAPTOR_FEATURE_ALLOW_NON_NS_ATTRIBUTES
| RAPTOR_FEATURE_ALLOW_OTHER_PARSETYPES
| RAPTOR_FEATURE_ALLOW_BAGID
| RAPTOR_FEATURE_ALLOW_RDF_TYPE_RDF_LIST
| RAPTOR_FEATURE_NORMALIZE_LANGUAGE
| RAPTOR_FEATURE_NON_NFC_FATAL
| RAPTOR_FEATURE_WARN_OTHER_PARSETYPES
| RAPTOR_FEATURE_CHECK_RDF_ID
| RAPTOR_FEATURE_RELATIVE_URIS
| RAPTOR_FEATURE_START_URI
| RAPTOR_FEATURE_WRITER_AUTO_INDENT
| RAPTOR_FEATURE_WRITER_AUTO_EMPTY
| RAPTOR_FEATURE_WRITER_INDENT_WIDTH
| RAPTOR_FEATURE_OTHER (value : Z).

(** The features that a parser has. *)
Definition parser_feature (feature : raptor_feature) : bool :=
  match feature with
  | RAPTOR_FEATURE_SCANNING | RAPTOR_FEATURE_ASSUME_IS_RDF
  | RAPTOR_FEATURE_ALLOW_NON_NS_ATTRIBUTES
  | RAPTOR_FEATURE_ALLOW_OTHER_PARSETYPES | RAPTOR_FEATURE_ALLOW_BAGID
  | RAPTOR_FEATURE_ALLOW_RDF_TYPE_RDF_LIST
  | RAPTOR_FEATURE_NORMALIZE_LANGUAGE | RAPTOR_FEATURE_NON_NFC_FATAL
  | RAPTOR_FEATURE_WARN_OTHER_PARSETYPES | RAPTOR_FEATURE_CHECK_RDF_ID => true
  | _ => false
  end.

(** The [feature_...] fields of [raptor_parser]. *)
Record parser_features := mk_features {
  feature_scanning_for_rdf_RDF : Z;
  feature_allow_non_ns_attributes : Z;
  feature_allow_other_parseTypes : Z;
  feature_allow_bagID : Z;
  feature_allow_rdf_type_rdf_List : Z;
  feature_normalize_language : Z;
  feature_non_nfc_fatal : Z;
  feature_warn_other_parseTypes : Z;
  feature_check_rdf_id : Z
}.

(** The [default_generate_id_handler_...] fields. *)
Record generate_id_parameters := mk_generate_id {
  default_generate_id_handler_base : Z;
  default_generate_id_handler_prefix : option string;
  default_generate_id_handler_prefix_length : nat
}.

Inductive raptor_genid_type : Type :=
| RAPTOR_GENID_TYPE_BNODEID
| RAPTOR_GENID_TYPE_BAGID.

(** A [raptor_generate_id_handler] with its user data: from the type and
    the identifier of the user to the identifier. *)
Definition generate_id_handler_fn : Type :=
  raptor_genid_type -> option string -> option string.

(** [raptor_locator] *)
Record raptor_locator := mk_locator {
  locator_uri : option string;
  locator_file : option string;
  locator_line : Z;
  locator_column : Z;
  locator_byte : Z
}.

(** *** Decimal numbers

    What [sprintf] writes for [%d]: the decimal digits of the number, after
    a minus sign when it is negative. *)
Definition digit (d : Z) : ascii := ascii_of_nat (48 + Z.to_nat d).

Fixpoint decimal_digits (fuel : nat) (n : Z) (acc : string) : string :=
  match fuel with
  | O => acc
  | S fuel' =>
      let acc := String (digit (n mod 10)) acc in
      if (n / 10 =? 0)%Z then acc else decimal_digits fuel' (n / 10) acc
  end.

Definition sprintf_d (n : Z) : string :=
  if (n <? 0)%Z
  then String "-" (decimal_digits (S (Z.to_nat (Z.log2 (- n)))) (- n) "")
  else decimal_digits (S (Z.to_nat (Z.log2 n))) n "".

(** The number that a string of decimal digits stands for. *)
Fixpoint decimal_value (s : string) (acc : Z) : Z :=
  match s with
  | EmptyString => acc
  | String c rest =>
      decimal_value rest (10 * acc + (Z.of_nat (nat_of_ascii c) - 48))
  end.

(** [length=2; while(tmpid/=10) length++;]: [length] afterwards, [None]
    when [fuel] turns did not end the loop. *)
Fixpoint count_digits (fuel : nat) (tmpid length : Z) : option Z :=
  match fuel with
  | O => None
  | S fuel' =>
      let tmpid := Z.quot tmpid 10 in
      if (tmpid =? 0)%Z then Some length
      else count_digits fuel' tmpid (length + 1)
  end.

Lemma digit_value (d : Z) :
  (0 <= d < 10)%Z -> (Z.of_nat (nat_of_ascii (digit d)) - 48 = d)%Z.
Proof.
  intros Hd. unfold digit. rewrite nat_ascii_embedding by lia. lia.
Qed.

Lemma decimal_digits_app (fuel : nat) :
  forall n acc,
    decimal_digits fuel n acc = (decimal_digits fuel n "" ++ acc)%string.
Proof.
  induction fuel as [|fuel IH]; intros n acc; simpl; [reflexivity|].
  destruct (n / 10 =? 0)%Z; [reflexivity|].
  rewrite IH. rewrite (IH _ (String _ "")).
  now rewrite string_app_assoc.
Qed.

Lemma decimal_value_app (s t : string) :
  forall acc, decimal_value (s ++ t)%string acc
              = decimal_value t (decimal_value s acc).
Proof.
  induction s as [|c s IH]; intros acc; simpl; [reflexivity|apply IH].
Qed.

(** The digits written stand for the number. *)
Lemma decimal_digits_value (fuel : nat) :
  forall n,
    (0 <= n < 2 ^ Z.of_nat fuel)%Z -> (0 < fuel)%nat ->
    forall acc,
      decimal_value (decimal_digits fuel n "") acc
      = (acc * 10 ^ Z.of_nat (String.length (decimal_digits fuel n "")) + n)%Z.
Proof.
  induction fuel as [|fuel IH]; intros n Hn Hfuel acc; [lia|].
  cbn [decimal_digits].
  destruct (Z.eqb_spec (n / 10) 0) as [Hq|Hq].
  - cbn [decimal_value String.length]. rewrite digit_value
      by (apply Z.mod_pos_bound; lia).
    assert (n mod 10 = n)%Z.
    { pose proof (Z.div_mod n 10). lia. }
    change (Z.of_nat 1) with 1%Z. lia.
  - assert (Hdiv : (0 < n / 10)%Z).
    { pose proof (Z.div_pos n 10). lia. }
    assert (Hfuel' : (0 < fuel)%nat).
    { destruct fuel; [|lia]. change (2 ^ Z.of_nat 1)%Z with 2%Z in Hn.
      assert (n / 10 = 0)%Z by (apply Z.div_small; lia). lia. }
    assert (Hbound : (0 <= n / 10 < 2 ^ Z.of_nat fuel)%Z).
    { split; [lia|].
      rewrite Nat2Z.inj_succ, Z.pow_succ_r in Hn by lia.
      apply Z.div_lt_upper_bound; lia. }
    rewrite decimal_digits_app, decimal_value_app.
    rewrite (IH _ Hbound Hfuel').
    cbn [decimal_value]. rewrite digit_value by (apply Z.mod_pos_bound; lia).
    rewrite string_length_app. cbn [String.length].
    rewrite Nat2Z.inj_add. rewrite Z.pow_add_r by lia.
    change (Z.of_nat 1) with 1%Z. rewrite Z.pow_1_r.
    pose proof (Z.div_mod n 10). lia.
Qed.

Lemma log2_bound (n : Z) :
  (0 <= n)%Z -> (0 <= n < 2 ^ Z.of_nat (S (Z.to_nat (Z.log2 n))))%Z.
Proof.
  intros Hn. split; [assumption|].
  rewrite Nat2Z.inj_succ, Z2Nat.id by apply Z.log2_nonneg.
  destruct (Z.eq_dec n 0) as [->|Hne]; [reflexivity|].
  apply Z.log2_spec. lia.
Qed.

(** [sprintf] with [%d] can be read back. *)
Lemma sprintf_d_value (n : Z) :
  (0 <= n)%Z -> decimal_value (sprintf_d n) 0 = n.
Proof.
  intros Hn. unfold sprintf_d.
  destruct (Z.ltb_spec n 0); [lia|].
  rewrite decimal_digits_value; [lia|now apply log2_bound|lia].
Qed.

Lemma sprintf_d_injective (i j : Z) :
  (0 <= i)%Z -> (0 <= j)%Z -> sprintf_d i = sprintf_d j -> i = j.
Proof.
  intros Hi Hj H. rewrite <- (sprintf_d_value i Hi), <- (sprintf_d_value j Hj).
  now rewrite H.
Qed.

(** The loop that counts the digits agrees with the digits written. *)
Lemma count_digits_length (fuel : nat) :
  forall fuel' n length,
    (0 <= n < 2 ^ Z.of_nat fuel)%Z -> (0 < fuel)%nat -> (fuel <= fuel')%nat ->
    count_digits fuel' n length
    = Some (length + Z.of_nat (String.length (decimal_digits fuel n "")) - 1)%Z.
Proof.
  induction fuel as [|fuel IH]; intros fuel' n len Hn Hfuel Hle; [lia|].
  destruct fuel' as [|fuel']; [lia|].
  cbn [count_digits decimal_digits].
  rewrite Z.quot_div_nonneg by lia.
  destruct (Z.eqb_spec (n / 10) 0) as [Hq|Hq].
  - cbn [String.length]. apply f_equal. lia.
  - assert (Hdiv : (0 < n / 10)%Z).
    { pose proof (Z.div_pos n 10). lia. }
    assert (Hfuel' : (0 < fuel)%nat).
    { destruct fuel; [|lia]. change (2 ^ Z.of_nat 1)%Z with 2%Z in Hn.
      assert (n / 10 = 0)%Z by (apply Z.div_small; lia). lia. }
    assert (Hbound : (0 <= n / 10 < 2 ^ Z.of_nat fuel)%Z).
    { split; [lia|].
      rewrite Nat2Z.inj_succ, Z.pow_succ_r in Hn by lia.
      apply Z.div_lt_upper_bound; lia. }
    rewrite (IH fuel' _ _ Hbound Hfuel') by lia.
    rewrite (decimal_digits_app fuel (n / 10) (String (digit (n mod 10)) "")).
    rewrite string_length_app. cbn [String.length].
    apply f_equal. lia.
Qed.

Section Handle.

(** What [rdf_parser->context] points to. *)
Variable parser_context : Type.

(** [raptor_parser], as far as [raptor_parse.c] reads and writes it. *)
Record raptor_parser := mk_parser {
  factory : raptor_parser_factory;
  context : parser_context;
  failed : Z;
  base_uri : option string;
  locator : raptor_locator;
  features : parser_features;
  generate_id_handler : option generate_id_handler_fn;
  generate_id_parameters_of : generate_id_parameters
}.

Definition set_features (p : raptor_parser) (f : parser_features) :=
  mk_parser (factory p) (context p) (failed p) (base_uri p) (locator p) f
            (generate_id_handler p) (generate_id_parameters_of p).

Definition set_generate_id_parameters (p : raptor_parser)
           (g : generate_id_parameters) :=
  mk_parser (factory p) (context p) (failed p) (base_uri p) (locator p)
            (features p) (generate_id_handler p) g.

Definition set_base_uri_locator (p : raptor_parser) (u : option string)
           (l : raptor_locator) :=
  mk_parser (factory p) (context p) (failed p) u l (features p)
            (generate_id_handler p) (generate_id_parameters_of p).

(** The operations of a factory: the block that [RAPTOR_CALLOC] gives for
    its [context_length], and its [init], [start] (which may be NULL) and
    [chunk]. *)
Variable zeroed_context : raptor_parser_factory -> parser_context.
Variable factory_init :
  raptor_parser_factory -> raptor_parser -> option string -> Z * raptor_parser.
Variable factory_start :
  raptor_parser_factory -> option (raptor_parser -> Z * raptor_parser).
Variable factory_chunk :
  raptor_parser_factory -> raptor_parser -> option string -> nat -> bool ->
  Z * raptor_parser.

(** *** Features *)

(** [raptor_set_feature(parser, feature, value)] *)
Definition raptor_set_feature (parser : raptor_parser)
           (feature : raptor_feature) (value : Z) : Z * raptor_parser :=
  if (value <? 0)%Z then ((-1)%Z, parser)
  else
    let f := features parser in
    match feature with
    | RAPTOR_FEATURE_SCANNING =>
        (0%Z, set_features parser
           (mk_features value (feature_allow_non_ns_attributes f)
              (feature_allow_other_parseTypes f) (feature_allow_bagID f)
              (feature_allow_rdf_type_rdf_List f) (feature_normalize_language f)
              (feature_non_nfc_fatal f) (feature_warn_other_parseTypes f)
              (feature_check_rdf_id f)))
    | RAPTOR_FEATURE_ASSUME_IS_RDF => (0%Z, parser)
    | RAPTOR_FEATURE_ALLOW_NON_NS_ATTRIBUTES =>
        (0%Z, set_features parser
           (mk_features (feature_scanning_for_rdf_RDF f) value
              (feature_allow_other_parseTypes f) (feature_allow_bagID f)
              (feature_allow_rdf_type_rdf_List f) (feature_normalize_language f)
              (feature_non_nfc_fatal f) (feature_warn_other_parseTypes f)
              (feature_check_rdf_id f)))
    | RAPTOR_FEATURE_ALLOW_OTHER_PARSETYPES =>
        (0%Z, set_features parser
           (mk_features (feature_scanning_for_rdf_RDF f)
              (feature_allow_non_ns_attributes f) value (feature_allow_bagID f)
              (feature_allow_rdf_type_rdf_List f) (feature_normalize_language f)
              (feature_non_nfc_fatal f) (feature_warn_other_parseTypes f)
              (feature_check_rdf_id f)))
    | RAPTOR_FEATURE_ALLOW_BAGID =>
        (0%Z, set_features parser
           (mk_features (feature_scanning_for_rdf_RDF f)
              (feature_allow_non_ns_attributes f)
              (feature_allow_other_parseTypes f) value
              (feature_allow_rdf_type_rdf_List f) (feature_normalize_language f)
              (feature_non_nfc_fatal f) (feature_warn_other_parseTypes f)
              (feature_check_rdf_id f)))
    | RAPTOR_FEATURE_ALLOW_RDF_TYPE_RDF_LIST =>
        (0%Z, set_features parser
           (mk_features (feature_scanning_for_rdf_RDF f)
              (feature_allow_non_ns_attributes f)
              (feature_allow_other_parseTypes f) (feature_allow_bagID f)
              value (feature_normalize_language f)
              (feature_non_nfc_fatal f) (feature_warn_other_parseTypes f)
              (feature_check_rdf_id f)))
    | RAPTOR_FEATURE_NORMALIZE_LANGUAGE =>
        (0%Z, set_features parser
           (mk_features (feature_scanning_for_rdf_RDF f)
              (feature_allow_non_ns_attributes f)
              (feature_allow_other_parseTypes f) (feature_allow_bagID f)
              (feature_allow_rdf_type_rdf_List f) value
              (feature_non_nfc_fatal f) (feature_warn_other_parseTypes f)
              (feature_check_rdf_id f)))
    | RAPTOR_FEATURE_NON_NFC_FATAL =>
        (0%Z, set_features parser
           (mk_features (feature_scanning_for_rdf_RDF f)
              (feature_allow_non_ns_attributes f)
              (feature_allow_other_parseTypes f) (feature_allow_bagID f)
              (feature_allow_rdf_type_rdf_List f) (feature_normalize_language f)
              value (feature_warn_other_parseTypes f)
              (feature_check_rdf_id f)))
    | RAPTOR_FEATURE_WARN_OTHER_PARSETYPES =>
        (0%Z, set_features parser
           (mk_features (feature_scanning_for_rdf_RDF f)
              (feature_allow_non_ns_attributes f)
              (feature_allow_other_parseTypes f) (feature_allow_bagID f)
              (feature_allow_rdf_type_rdf_List f) (feature_normalize_language f)
              (feature_non_nfc_fatal f) value
              (feature_check_rdf_id f)))
    | RAPTOR_FEATURE_CHECK_RDF_ID =>
        (0%Z, set_features parser
           (mk_features (feature_scanning_for_rdf_RDF f)
              (feature_allow_non_ns_attributes f)
              (feature_allow_other_parseTypes f) (feature_allow_bagID f)
              (feature_allow_rdf_type_rdf_List f) (feature_normalize_language f)
              (feature_non_nfc_fatal f) (feature_warn_other_parseTypes f)
              value))
    | _ => ((-1)%Z, parser)
    end.

(** [x != 0] as an [int]. *)
Definition nonzero (x : Z) : Z := if (x =? 0)%Z then 0%Z else 1%Z.

(** [raptor_get_feature(parser, feature)] *)
Definition raptor_get_feature (parser : raptor_parser)
           (feature : raptor_feature) : Z :=
  let f := features parser in
  match feature with
  | RAPTOR_FEATURE_SCANNING => nonzero (feature_scanning_for_rdf_RDF f)
  | RAPTOR_FEATURE_ASSUME_IS_RDF => 0%Z
  | RAPTOR_FEATURE_ALLOW_NON_NS_ATTRIBUTES =>
      nonzero (feature_allow_non_ns_attributes f)
  | RAPTOR_FEATURE_ALLOW_OTHER_PARSETYPES =>
      nonzero (feature_allow_other_parseTypes f)
  | RAPTOR_FEATURE_ALLOW_BAGID => nonzero (feature_allow_bagID f)
  | RAPTOR_FEATURE_ALLOW_RDF_TYPE_RDF_LIST =>
      nonzero (feature_allow_rdf_type_rdf_List f)
  | RAPTOR_FEATURE_NORMALIZE_LANGUAGE => nonzero (feature_normalize_language f)
  | RAPTOR_FEATURE_NON_NFC_FATAL => nonzero (feature_non_nfc_fatal f)
  | RAPTOR_FEATURE_WARN_OTHER_PARSETYPES =>
      nonzero (feature_warn_other_parseTypes f)
  | RAPTOR_FEATURE_CHECK_RDF_ID => nonzero (feature_check_rdf_id f)
  | _ => (-1)%Z
  end.

(** [raptor_set_parser_strict(rdf_parser, is_strict)] *)
Definition raptor_set_parser_strict (rdf_parser : raptor_parser)
           (is_strict : Z) : raptor_parser :=
  let is_strict := nonzero is_strict in
  let not_strict := if (is_strict =? 0)%Z then 1%Z else 0%Z in
  set_features rdf_parser
    {| feature_scanning_for_rdf_RDF := 0;
       feature_allow_non_ns_attributes := not_strict;
       feature_allow_other_parseTypes := not_strict;
       feature_allow_bagID := not_strict;
       feature_allow_rdf_type_rdf_List := 0;
       feature_normalize_language := 1;
       feature_non_nfc_fatal := is_strict;
       feature_warn_other_parseTypes := not_strict;
       feature_check_rdf_id := 1 |}.

(** X13. Setting and reading a feature.  [raptor_set_feature] with a value
    that is not negative and one of the ten features of a parser returns
    0; afterwards [raptor_get_feature] reads that feature as 0 when the
    value was 0 and as 1 otherwise - except
    [RAPTOR_FEATURE_ASSUME_IS_RDF], which is accepted and always read as
    0 - and reads every other feature as before. *)
Theorem set_feature_then_get (parser : raptor_parser)
        (feature : raptor_feature) (value : Z) :
  (0 <= value)%Z ->
  parser_feature feature = true ->
  let '(rc, parser') := raptor_set_feature parser feature value in
  rc = 0%Z
  /\ raptor_get_feature parser' feature
     = match feature with
       | RAPTOR_FEATURE_ASSUME_IS_RDF => 0%Z
       | _ => if (value =? 0)%Z then 0%Z else 1%Z
       end
  /\ (forall other, other <> feature ->
        raptor_get_feature parser' other = raptor_get_feature parser other)
  /\ factory parser' = factory parser /\ failed parser' = failed parser
  /\ base_uri parser' = base_uri parser.
Proof.
  intros Hvalue Hparser. unfold raptor_set_feature.
  destruct (Z.ltb_spec value 0) as [Hneg|_]; [lia|].
  destruct feature; try discriminate; cbn;
    (split; [reflexivity|]); (split; [reflexivity|]);
    (split; [|repeat split]);
    intros other Hother; destruct other; try reflexivity; congruence.
Qed.

(** X14. What [raptor_set_feature] refuses.  With a negative value, or
    with a feature that is none of the ten features of a parser, it
    returns -1 and leaves the parser as it was; and
    [raptor_get_feature] gives -1 for exactly those features, and 0 or 1
    for the ten. *)
Theorem set_feature_refusals :
  (forall parser feature value,
      (value < 0)%Z \/ parser_feature feature = false ->
      raptor_set_feature parser feature value = ((-1)%Z, parser))
  /\ (forall parser feature,
         (parser_feature feature = false ->
          raptor_get_feature parser feature = (-1)%Z)
         /\ (parser_feature feature = true ->
             raptor_get_feature parser feature = 0%Z
             \/ raptor_get_feature parser feature = 1%Z)).
Proof.
  split.
  - intros parser feature value H. unfold raptor_set_feature.
    destruct (Z.ltb_spec value 0) as [Hneg|Hpos]; [reflexivity|].
    destruct H as [H|H]; [lia|]. destruct feature; try discriminate; reflexivity.
  - intros parser feature. split; intros H; destruct feature; try discriminate;
      try reflexivity; unfold raptor_get_feature, nonzero;
      try (now left);
      match goal with
      | |- context [(?x =? 0)%Z] => destruct (x =? 0)%Z; auto
      end.
Qed.

(** X15. Strict and lax mode.  [raptor_set_parser_strict] sets all the
    features, whatever they were: what [raptor_get_feature] reads
    afterwards depends only on whether [is_strict] is 0.  The two modes
    differ in four features that only the lax mode has and in
    [RAPTOR_FEATURE_NON_NFC_FATAL], which only the strict mode has. *)
Theorem set_parser_strict_sets_all :
  forall parser parser' is_strict feature,
    raptor_get_feature (raptor_set_parser_strict parser is_strict) feature
    = raptor_get_feature
        (raptor_set_parser_strict parser' (if (is_strict =? 0)%Z then 0 else 1)%Z)
        feature
    /\ (raptor_get_feature (raptor_set_parser_strict parser 1) feature
        <> raptor_get_feature (raptor_set_parser_strict parser 0) feature
        <-> In feature
              [RAPTOR_FEATURE_ALLOW_NON_NS_ATTRIBUTES;
               RAPTOR_FEATURE_ALLOW_OTHER_PARSETYPES;
               RAPTOR_FEATURE_ALLOW_BAGID;
               RAPTOR_FEATURE_WARN_OTHER_PARSETYPES;
               RAPTOR_FEATURE_NON_NFC_FATAL])
    /\ (In feature
          [RAPTOR_FEATURE_ALLOW_NON_NS_ATTRIBUTES;
           RAPTOR_FEATURE_ALLOW_OTHER_PARSETYPES;
           RAPTOR_FEATURE_ALLOW_BAGID;
           RAPTOR_FEATURE_WARN_OTHER_PARSETYPES] ->
        raptor_get_feature (raptor_set_parser_strict parser 1) feature = 0%Z)
    /\ raptor_get_feature (raptor_set_parser_strict parser 1)
         RAPTOR_FEATURE_NON_NFC_FATAL = 1%Z.
Proof.
  intros parser parser' is_strict feature. split; [|split; [|split]].
  - unfold raptor_set_parser_strict, nonzero.
    destruct (is_strict =? 0)%Z; destruct feature; reflexivity.
  - split.
    + intros H. destruct feature; cbn in H; try congruence; cbn; tauto.
    + intros H. cbn in H.
      repeat (destruct H as [<-|H]; [cbn; discriminate|]). destruct H.
  - intros H. cbn in H.
    repeat (destruct H as [<-|H]; [reflexivity|]). destruct H.
  - reflexivity.
Qed.


(** *** Generated identifiers *)

(** [raptor_set_default_generate_id_parameters(rdf_parser, prefix, base)] *)
Definition raptor_set_default_generate_id_parameters (rdf_parser : raptor_parser)
           (prefix : option string) (base : Z) : outcome raptor_parser :=
  if (base =? INT_MIN)%Z then Undefined (* --base overflows *)
  else
    let base := (base - 1)%Z in
    let base := if (base <? 0)%Z then 0%Z else base in
    Ret (set_generate_id_parameters rdf_parser
           {| default_generate_id_handler_base := base;
              default_generate_id_handler_prefix := prefix;
              default_generate_id_handler_prefix_length :=
                match prefix with
                | Some p => String.length p
                | None => 0
                end |}).

(** The string that [strncpy(buffer, prefix, n)] and the [sprintf] at
    [buffer + n] leave in [buffer]: when the prefix has fewer than [n]
    bytes, [strncpy] fills up with NUL and the string ends there. *)
Definition prefixed_id (prefix : string) (n : nat) (id : Z) : string :=
  if Nat.leb n (String.length prefix)
  then (string_upto n prefix ++ sprintf_d id)%string
  else prefix.

(** The [length] that [raptor_default_generate_id_handler] asks
    [RAPTOR_MALLOC] for. *)
Definition generate_id_length (g : generate_id_parameters) (id : Z) : option Z :=
  match count_digits 32 id 2 with
  | None => None
  | Some length =>
      match default_generate_id_handler_prefix g with
      | Some _ =>
          Some (length + Z.of_nat (default_generate_id_handler_prefix_length g))%Z
      | None => Some (length + 5)%Z (* genid *)
      end
  end.

(** [raptor_default_generate_id_handler(user_data, type, user_bnodeid)],
    with the parser for [user_data]. *)
Definition raptor_default_generate_id_handler (rdf_parser : raptor_parser)
           (type : raptor_genid_type) (user_bnodeid : option string)
  : outcome (option string * raptor_parser) :=
  match user_bnodeid with
  | Some bnodeid => Ret (Some bnodeid, rdf_parser)
  | None =>
      let g := generate_id_parameters_of rdf_parser in
      if (default_generate_id_handler_base g =? INT_MAX)%Z
      then Undefined (* ++ overflows *)
      else
        let id := (default_generate_id_handler_base g + 1)%Z in
        let rdf_parser :=
          set_generate_id_parameters rdf_parser
            {| default_generate_id_handler_base := id;
               default_generate_id_handler_prefix :=
                 default_generate_id_handler_prefix g;
               default_generate_id_handler_prefix_length :=
                 default_generate_id_handler_prefix_length g |} in
        match generate_id_length g id with
        | None => LoopLimit
        | Some length =>
            let written :=
              (match default_generate_id_handler_prefix g with
               | Some _ => Z.of_nat (default_generate_id_handler_prefix_length g)
               | None => 5
               end + Z.of_nat (String.length (sprintf_d id)) + 1)%Z in
            if (length <? written)%Z then Undefined (* past the end of buffer *)
            else
              Ret (Some match default_generate_id_handler_prefix g with
                        | Some prefix =>
                            prefixed_id prefix
                              (default_generate_id_handler_prefix_length g) id
                        | None => ("genid" ++ sprintf_d id)%string
                        end,
                   rdf_parser)
        end
  end.

(** [raptor_generate_id(rdf_parser, id_for_bag, user_bnodeid)] *)
Definition raptor_generate_id (rdf_parser : raptor_parser) (id_for_bag : Z)
           (user_bnodeid : option string)
  : outcome (option string * raptor_parser) :=
  let type := if (id_for_bag =? 0)%Z then RAPTOR_GENID_TYPE_BAGID
              else RAPTOR_GENID_TYPE_BNODEID in
  match generate_id_handler rdf_parser with
  | Some handler => Ret (handler type user_bnodeid, rdf_parser)
  | None => raptor_default_generate_id_handler rdf_parser type user_bnodeid
  end.

(** A run of calls of [raptor_generate_id] with no identifier of the
    user. *)
Fixpoint generate_ids (n : nat) (rdf_parser : raptor_parser)
  : outcome (list (option string) * raptor_parser) :=
  match n with
  | O => Ret ([], rdf_parser)
  | S n' =>
      '(id, rdf_parser) <- raptor_generate_id rdf_parser 0 None ;;
      '(ids, rdf_parser) <- generate_ids n' rdf_parser ;;
      Ret (id :: ids, rdf_parser)
  end.

(** The prefix of the identifiers: the one set, or [genid]. *)
Definition id_prefix (g : generate_id_parameters) : string :=
  match default_generate_id_handler_prefix g with
  | Some prefix => prefix
  | None => "genid"
  end.

(** The prefix length recorded is the length of the prefix, as
    [raptor_set_default_generate_id_parameters] leaves it. *)
Definition prefix_length_kept (g : generate_id_parameters) : Prop :=
  match default_generate_id_handler_prefix g with
  | Some prefix =>
      default_generate_id_handler_prefix_length g = String.length prefix
  | None => True
  end.

Definition next_id (g : generate_id_parameters) : generate_id_parameters :=
  {| default_generate_id_handler_base := default_generate_id_handler_base g + 1;
     default_generate_id_handler_prefix := default_generate_id_handler_prefix g;
     default_generate_id_handler_prefix_length :=
       default_generate_id_handler_prefix_length g |}.

Lemma count_digits_int (id : Z) :
  (0 <= id <= INT_MAX)%Z ->
  count_digits 32 id 2
  = Some (Z.of_nat (String.length (sprintf_d id)) + 1)%Z.
Proof.
  intros Hid. unfold sprintf_d. destruct (Z.ltb_spec id 0); [lia|].
  rewrite (count_digits_length (S (Z.to_nat (Z.log2 id))) 32 id 2).
  - apply f_equal. lia.
  - now apply log2_bound.
  - lia.
  - assert (Z.log2 id < 31)%Z; [|lia].
    destruct (Z.eq_dec id 0) as [->|Hne]; [reflexivity|].
    apply Z.log2_lt_pow2; [lia|]. unfold INT_MAX in Hid.
    change (2 ^ 31)%Z with 2147483648%Z. lia.
Qed.

Lemma default_generate_id (rdf_parser : raptor_parser) (type : raptor_genid_type) :
  let g := generate_id_parameters_of rdf_parser in
  (0 <= default_generate_id_handler_base g < INT_MAX)%Z ->
  prefix_length_kept g ->
  let id := (default_generate_id_handler_base g + 1)%Z in
  raptor_default_generate_id_handler rdf_parser type None
  = Ret (Some (id_prefix g ++ sprintf_d id)%string,
         set_generate_id_parameters rdf_parser (next_id g))
  /\ generate_id_length g id
     = Some (Z.of_nat (String.length (id_prefix g ++ sprintf_d id)%string) + 1)%Z.
Proof.
  intros g Hbase Hkept id.
  unfold raptor_default_generate_id_handler, generate_id_length.
  fold g. fold id.
  destruct (Z.eqb_spec (default_generate_id_handler_base g) INT_MAX); [lia|].
  rewrite (count_digits_int id) by (subst id; lia).
  unfold prefix_length_kept, id_prefix, prefixed_id, next_id in *. fold id.
  destruct (default_generate_id_handler_prefix g) as [prefix|].
  - rewrite Hkept, Nat.leb_refl, string_upto_all, string_length_app.
    match goal with
    | |- context [(?a <? ?b)%Z] => destruct (Z.ltb_spec a b); [lia|]
    end.
    split; [reflexivity|]. apply f_equal. lia.
  - rewrite string_length_app. cbn [String.length].
    match goal with
    | |- context [(?a <? ?b)%Z] => destruct (Z.ltb_spec a b); [lia|]
    end.
    split; [reflexivity|]. apply f_equal. lia.
Qed.

(** X16. The identifier that the default handler generates, and its
    buffer.  With a counter from 0 up to [INT_MAX] - 1 and the prefix
    length that [raptor_set_default_generate_id_parameters] records,
    [raptor_default_generate_id_handler] without an identifier of the user
    returns the prefix ([genid] when none was set) followed by the decimal
    digits of the counter plus one, which becomes the counter; and the
    [length] it allocates is exactly the length of that identifier and its
    NUL, so that nothing is written past the buffer. *)
Theorem default_generate_id_fits (rdf_parser : raptor_parser)
        (type : raptor_genid_type) :
  let g := generate_id_parameters_of rdf_parser in
  (0 <= default_generate_id_handler_base g < INT_MAX)%Z ->
  prefix_length_kept g ->
  let id := (default_generate_id_handler_base g + 1)%Z in
  raptor_default_generate_id_handler rdf_parser type None
  = Ret (Some (id_prefix g ++ sprintf_d id)%string,
         set_generate_id_parameters rdf_parser (next_id g))
  /\ generate_id_length g id
     = Some (Z.of_nat (String.length (id_prefix g ++ sprintf_d id)%string) + 1)%Z.
Proof. exact (default_generate_id rdf_parser type). Qed.

Lemma generate_ids_run (n : nat) :
  forall rdf_parser,
    generate_id_handler rdf_parser = None ->
    let g := generate_id_parameters_of rdf_parser in
    (0 <= default_generate_id_handler_base g)%Z ->
    (default_generate_id_handler_base g + Z.of_nat n <= INT_MAX)%Z ->
    prefix_length_kept g ->
    exists rdf_parser',
      generate_ids n rdf_parser
      = Ret (map (fun k => Some (id_prefix g
                                 ++ sprintf_d (default_generate_id_handler_base g
                                               + Z.of_nat k))%string)
                 (seq 1 n),
             rdf_parser').
Proof.
  induction n as [|n IH]; intros p Hh g Hbase Hmax Hkept; [eexists; reflexivity|].
  cbn [generate_ids]. unfold raptor_generate_id. rewrite Hh.
  destruct (default_generate_id p RAPTOR_GENID_TYPE_BAGID) as [Hgen _];
    [fold g; lia|exact Hkept|].
  change (0 =? 0)%Z with true. cbv iota. rewrite Hgen. cbn [bind].
  destruct (IH (set_generate_id_parameters p (next_id g))) as [p' Hrest].
  - exact Hh.
  - cbn. fold g. lia.
  - cbn. fold g. lia.
  - exact Hkept.
  - subst g. rewrite Hrest. cbn [bind]. exists p'. apply f_equal.
    apply (f_equal (fun l => (l, p'))).
    cbn [seq map]. change (Z.of_nat 1) with 1%Z. apply f_equal.
    rewrite <- (seq_shift n 1), map_map. apply map_ext. intros k.
    cbn [generate_id_parameters_of set_generate_id_parameters next_id
         default_generate_id_handler_base id_prefix
         default_generate_id_handler_prefix].
    do 3 apply f_equal. lia.
Qed.

(** X17. Generated identifiers do not repeat.  With no handler of the user
    set, [n] calls of [raptor_generate_id] in a row - as long as the
    counter stays within [int] - return [n] identifiers, the prefix
    followed by the numbers after the counter in turn, and no two of them
    are the same. *)
Theorem generated_ids_distinct (n : nat) (rdf_parser : raptor_parser) :
  generate_id_handler rdf_parser = None ->
  let g := generate_id_parameters_of rdf_parser in
  (0 <= default_generate_id_handler_base g)%Z ->
  (default_generate_id_handler_base g + Z.of_nat n <= INT_MAX)%Z ->
  prefix_length_kept g ->
  exists ids rdf_parser',
    generate_ids n rdf_parser = Ret (map Some ids, rdf_parser')
    /\ ids = map (fun k => (id_prefix g
                            ++ sprintf_d (default_generate_id_handler_base g
                                          + Z.of_nat k))%string)
                 (seq 1 n)
    /\ List.length ids = n
    /\ NoDup ids.
Proof.
  intros Hh g Hbase Hmax Hkept.
  destruct (generate_ids_run n rdf_parser Hh Hbase Hmax Hkept) as [p' Hrun].
  eexists _, p'. split; [|split; [reflexivity|split]].
  - rewrite Hrun. now rewrite map_map.
  - now rewrite length_map, length_seq.
  - apply NoDup_map_NoDup_ForallPairs; [|apply seq_NoDup].
    intros i j _ _ Heq. apply string_app_inv_head in Heq.
    apply sprintf_d_injective in Heq; lia.
Qed.

(** X18. The first identifier after the parameters are set.
    [raptor_set_default_generate_id_parameters] with a base above
    [INT_MIN] makes the next identifier of the default handler the prefix
    given ([genid] for NULL) followed by the base, or by 1 when the base is
    less than 1. *)
Theorem generate_id_parameters_first_id (rdf_parser : raptor_parser)
        (prefix : option string) (base id_for_bag : Z) :
  generate_id_handler rdf_parser = None ->
  (INT_MIN < base <= INT_MAX)%Z ->
  exists rdf_parser1 rdf_parser2,
    raptor_set_default_generate_id_parameters rdf_parser prefix base
    = Ret rdf_parser1
    /\ raptor_generate_id rdf_parser1 id_for_bag None
       = Ret (Some (match prefix with Some p => p | None => "genid" end
                    ++ sprintf_d (Z.max base 1))%string,
              rdf_parser2).
Proof.
  intros Hh Hbase. unfold raptor_set_default_generate_id_parameters.
  destruct (Z.eqb_spec base INT_MIN); [lia|].
  eexists _, _. split; [reflexivity|].
  unfold raptor_generate_id. cbn [generate_id_handler set_generate_id_parameters].
  rewrite Hh.
  match goal with
  | |- raptor_default_generate_id_handler ?p ?t None = _ =>
      destruct (default_generate_id p t) as [Hgen _]
  end.
  - cbn. destruct (Z.ltb_spec (base - 1) 0); unfold INT_MAX in *; lia.
  - cbn. destruct prefix; cbn; auto.
  - rewrite Hgen. cbn. apply f_equal. apply (f_equal (fun s => (s, _))).
    apply f_equal.
    replace ((if (base - 1 <? 0)%Z then 0 else base - 1) + 1)%Z
      with (Z.max base 1) by (destruct (Z.ltb_spec (base - 1) 0); lia).
    destruct prefix; reflexivity.
Qed.

(** *** Construction and the parse calls *)

(** The object that [RAPTOR_CALLOC] gives, with its factory. *)
Definition zeroed_parser (factory_ : raptor_parser_factory) : raptor_parser :=
  {| factory := factory_; context := zeroed_context factory_; failed := 0;
     base_uri := None;
     locator := {| locator_uri := None; locator_file := None;
                   locator_line := 0; locator_column := 0; locator_byte := 0 |};
     features := mk_features 0 0 0 0 0 0 0 0 0;
     generate_id_handler := None;
     generate_id_parameters_of :=
       {| default_generate_id_handler_base := 0;
          default_generate_id_handler_prefix := None;
          default_generate_id_handler_prefix_length := 0 |} |}.

(** [raptor_new_parser(name)] *)
Definition raptor_new_parser (parsers : parser_list) (name_ : option string)
  : option raptor_parser :=
  match raptor_get_parser_factory parsers name_ with
  | None => None
  | Some factory_ =>
      let rdf_parser := zeroed_parser factory_ in
      (* Initialise default (lax) feature values *)
      let rdf_parser := raptor_set_parser_strict rdf_parser 0 in
      let '(rc, rdf_parser) := factory_init factory_ rdf_parser name_ in
      if negb (rc =? 0)%Z then None else Some rdf_parser
  end.

(** [raptor_start_parse(rdf_parser, uri)] *)
Definition raptor_start_parse (rdf_parser : raptor_parser)
           (uri : option string) : Z * raptor_parser :=
  let rdf_parser :=
    set_base_uri_locator rdf_parser uri
      {| locator_uri := uri;
         locator_file := locator_file (locator rdf_parser);
         locator_line := -1; locator_column := -1; locator_byte := -1 |} in
  match factory_start (factory rdf_parser) with
  | Some start => start rdf_parser
  | None => (0%Z, rdf_parser)
  end.

(** [raptor_parse_chunk(rdf_parser, buffer, len, is_end)] *)
Definition raptor_parse_chunk (rdf_parser : raptor_parser)
           (buffer : option string) (len : nat) (is_end : bool)
  : Z * raptor_parser :=
  factory_chunk (factory rdf_parser) rdf_parser buffer len is_end.

Section ForContent.

(** The C library's [qsort], as [raptor_guess_parser_name] calls it. *)
Variable qsort : list syntax_score -> list syntax_score.

(** [raptor_new_parser_for_content(uri, mime_type, buffer, len,
    identifier)] *)
Definition raptor_new_parser_for_content (parsers : parser_list)
           (uri mime_type_ buffer : option string) (len : nat)
           (identifier : option string) : outcome (option raptor_parser) :=
  name_ <- raptor_guess_parser_name qsort parsers uri mime_type_ buffer len
                                    identifier ;;
  Ret (raptor_new_parser parsers name_).

(** [qsort] moves the entries of the array about: what it leaves is a
    permutation of the array.  Nothing more is needed of it here. *)
Hypothesis qsort_permutes :
  forall scores, Permutation scores (qsort scores).

(** X19. A parser for content that no syntax takes.  When no factory of
    the registry (of at most [MAX_PARSERS] factories) has the MIME type or
    the URI given and every score of [recognise_syntax] is negative,
    [raptor_guess_parser_name] gives NULL, which [raptor_new_parser] takes
    for the default: [raptor_new_parser_for_content] does not fail but
    makes a parser of the factory at the head of the list, the one
    registered last. *)
Theorem new_parser_for_content_defaults
        (parsers rest : parser_list) (f : raptor_parser_factory)
        (uri mime_type_ buffer : option string) (len : nat)
        (identifier : option string) :
  parsers = f :: rest ->
  List.length parsers <= MAX_PARSERS ->
  find (exact_match uri mime_type_) parsers = None ->
  (forall g, In g parsers ->
             (recognised buffer len identifier mime_type_ g < 0)%Z) ->
  raptor_guess_parser_name qsort parsers uri mime_type_ buffer len identifier
  = Ret None
  /\ raptor_new_parser_for_content parsers uri mime_type_ buffer len identifier
     = Ret (let '(rc, rdf_parser) :=
              factory_init f (raptor_set_parser_strict (zeroed_parser f) 0) None in
            if negb (rc =? 0)%Z then None else Some rdf_parser).
Proof.
  intros Hparsers Hlen Hmatch Hscores.
  assert (Hguess :
    raptor_guess_parser_name qsort parsers uri mime_type_ buffer len identifier
    = Ret None).
  { unfold raptor_guess_parser_name.
    rewrite guess_loop_scan by (simpl; lia). rewrite Hmatch. cbn [bind app].
    set (scores := map (scored buffer len identifier mime_type_) parsers).
    pose proof (qsort_permutes scores) as Hperm.
    destruct (qsort scores) as [|s0 others] eqn:Hq.
    - apply Permutation_sym, Permutation_nil in Hperm.
      subst scores parsers. discriminate.
    - assert (Hs0 : In s0 scores).
      { apply (Permutation_in _ (Permutation_sym Hperm)). now left. }
      apply in_map_iff in Hs0. destruct Hs0 as (g & <- & Hg).
      specialize (Hscores g Hg). cbn [score scored].
      destruct (Z.leb_spec 0 (Z.min (recognised buffer len identifier mime_type_ g) 10));
        [lia|reflexivity]. }
  split; [exact Hguess|].
  unfold raptor_new_parser_for_content. rewrite Hguess. cbn [bind].
  unfold raptor_new_parser, raptor_get_parser_factory. now rewrite Hparsers.
Qed.

End ForContent.

(** *** Parsing a stream *)

(** A [FILE*] that is read: the bytes not read yet and the end-of-file
    indicator.  Read errors are left out. *)
Record FILE := mk_FILE {
  unread : string;
  eof_indicator : bool
}.

Definition feof (stream : FILE) : bool := eof_indicator stream.

(** [fread(buffer, 1, n, stream)]: the bytes stored in [buffer], whose
    number is the value returned, and the stream afterwards.  The indicator
    is set when the end of the file is met before [n] bytes are read. *)
Definition fread (n : nat) (stream : FILE) : string * FILE :=
  (string_upto n (unread stream),
   {| unread := string_from n (unread stream);
      eof_indicator :=
        eof_indicator stream || Nat.ltb (String.length (unread stream)) n |}).

Definition RAPTOR_READ_BUFFER_SIZE : nat := 4096.

(** The loop [while(!feof(stream))] of [raptor_parse_file_stream]: [rc],
    the parser and the stream afterwards. *)
Fixpoint file_stream_loop (fuel : nat) (rdf_parser : raptor_parser)
         (stream : FILE) (rc : Z) : outcome (Z * raptor_parser * FILE) :=
  match fuel with
  | O => LoopLimit
  | S fuel' =>
      if feof stream then Ret (rc, rdf_parser, stream)
      else
        let '(buffer, stream) := fread RAPTOR_READ_BUFFER_SIZE stream in
        let len := String.length buffer in
        let is_end := Nat.ltb len RAPTOR_READ_BUFFER_SIZE in
        let '(rc, rdf_parser) :=
          raptor_parse_chunk rdf_parser (Some buffer) len is_end in
        if negb (rc =? 0)%Z || is_end then Ret (rc, rdf_parser, stream)
        else file_stream_loop fuel' rdf_parser stream rc
  end.

(** [locator->line= locator->column = -1; locator->file= filename;] *)
Definition file_locator (rdf_parser : raptor_parser) (filename : option string)
  : raptor_parser :=
  set_base_uri_locator rdf_parser (base_uri rdf_parser)
    {| locator_uri := locator_uri (locator rdf_parser);
       locator_file := filename;
       locator_line := -1; locator_column := -1;
       locator_byte := locator_byte (locator rdf_parser) |}.

(** [raptor_parse_file_stream(rdf_parser, stream, filename, base_uri)] *)
Definition raptor_parse_file_stream (rdf_parser : raptor_parser)
           (stream : option FILE) (filename base_uri_ : option string)
  : outcome (Z * raptor_parser * option FILE) :=
  match stream, base_uri_ with
  | Some stream_, Some _ =>
      let rdf_parser := file_locator rdf_parser filename in
      let '(rc, rdf_parser) := raptor_start_parse rdf_parser base_uri_ in
      if negb (rc =? 0)%Z then Ret (1%Z, rdf_parser, stream)
      else
        '(rc, rdf_parser, stream_) <-
          file_stream_loop (S (String.length (unread stream_))) rdf_parser
                           stream_ 0%Z ;;
        Ret (nonzero rc, rdf_parser, Some stream_)
  | _, _ => Ret (1%Z, rdf_parser, stream)
  end.

(** Chunks given to [raptor_parse_chunk] one after the other, until one is
    refused: the value returned last (0 when there is no chunk) and the
    parser. *)
Fixpoint parse_chunks (rdf_parser : raptor_parser)
         (chunks : list (string * bool)) : Z * raptor_parser :=
  match chunks with
  | [] => (0%Z, rdf_parser)
  | (buffer, is_end) :: rest =>
      let '(rc, rdf_parser) :=
        raptor_parse_chunk rdf_parser (Some buffer) (String.length buffer)
                           is_end in
      if negb (rc =? 0)%Z then (rc, rdf_parser)
      else parse_chunks rdf_parser rest
  end.

(** A text cut into pieces of [n] bytes and a last, shorter one. *)
Fixpoint file_chunks (fuel n : nat) (content : string) : list (string * bool) :=
  match fuel with
  | O => []
  | S fuel' =>
      if Nat.ltb (String.length content) n then [(content, true)]
      else (string_upto n content, false)
             :: file_chunks fuel' n (string_from n content)
  end.

Fixpoint concat_strings (l : list string) : string :=
  match l with
  | [] => ""
  | s :: rest => (s ++ concat_strings rest)%string
  end.

Lemma string_upto_from (n : nat) (s : string) :
  (string_upto n s ++ string_from n s)%string = s.
Proof.
  revert s; induction n as [|n IH]; intros s; [reflexivity|].
  destruct s as [|c s]; simpl; [reflexivity|now rewrite IH].
Qed.

Lemma string_upto_length (n : nat) (s : string) :
  n <= String.length s -> String.length (string_upto n s) = n.
Proof.
  revert s; induction n as [|n IH]; intros s Hn; [reflexivity|].
  destruct s as [|c s]; simpl in *; [lia|]. rewrite IH; lia.
Qed.

Lemma string_upto_short (n : nat) (s : string) :
  String.length s <= n -> string_upto n s = s.
Proof.
  revert s; induction n as [|n IH]; intros s Hn.
  - destruct s; [reflexivity|simpl in Hn; lia].
  - destruct s as [|c s]; simpl in *; [reflexivity|]. rewrite IH; [reflexivity|lia].
Qed.

Lemma string_from_length' (n : nat) (s : string) :
  String.length (string_from n s) = String.length s - n.
Proof.
  revert s; induction n as [|n IH]; intros s; simpl; [lia|].
  destruct s; simpl; [reflexivity|apply IH].
Qed.

(** What the pieces are. *)
Lemma file_chunks_pieces (n : nat) (fuel : nat) :
  0 < n ->
  forall content,
    String.length content < fuel ->
    let chunks := file_chunks fuel n content in
    concat_strings (map fst chunks) = content
    /\ Forall (fun chunk => String.length (fst chunk) = n /\ snd chunk = false)
              (removelast chunks)
    /\ exists tail, last chunks ("", false) = (tail, true)
                    /\ String.length tail < n.
Proof.
  intros Hn. induction fuel as [|fuel IH]; intros content Hlen; [lia|].
  cbn [file_chunks]. destruct (Nat.ltb_spec (String.length content) n) as [Hlt|Hge].
  - cbn. rewrite string_app_nil_r. repeat split; [constructor|].
    exists content. split; [reflexivity|assumption].
  - assert (Hrest : String.length (string_from n content) < fuel).
    { rewrite string_from_length'. lia. }
    destruct (IH _ Hrest) as (Hcat & Hall & tail & Hlast & Htail).
    assert (Hne : file_chunks fuel n (string_from n content) <> []).
    { destruct fuel; [lia|]. cbn [file_chunks].
      destruct (Nat.ltb _ n); discriminate. }
    split; [|split].
    + cbn [map fst concat_strings]. rewrite Hcat. apply string_upto_from.
    + destruct (file_chunks fuel n (string_from n content)) as [|c cs] eqn:Hc;
        [contradiction|].
      change (removelast ((string_upto n content, false) :: c :: cs))
        with ((string_upto n content, false) :: removelast (c :: cs)).
      constructor; [|exact Hall].
      split; [now apply string_upto_length|reflexivity].
    + exists tail. split; [|assumption].
      destruct (file_chunks fuel n (string_from n content)) as [|c cs] eqn:Hc;
        [contradiction|].
      exact Hlast.
Qed.

(** The loop gives the pieces to the parser. *)
Lemma file_stream_loop_chunks (fuel : nat) :
  forall rdf_parser content rc,
    String.length content < fuel ->
    exists stream',
      file_stream_loop fuel rdf_parser
        {| unread := content; eof_indicator := false |} rc
      = Ret (parse_chunks rdf_parser
               (file_chunks fuel RAPTOR_READ_BUFFER_SIZE content),
             stream').
Proof.
  induction fuel as [|fuel IH]; intros p content rc Hlen; [lia|].
  cbn [file_stream_loop file_chunks feof eof_indicator fread unread].
  assert (HN : 0 < RAPTOR_READ_BUFFER_SIZE) by (unfold RAPTOR_READ_BUFFER_SIZE; lia).
  set (N := RAPTOR_READ_BUFFER_SIZE) in *. clearbody N.
  destruct (Nat.ltb_spec (String.length content) N) as [Hlt|Hge].
  - rewrite (string_upto_short N content) by lia.
    apply Nat.ltb_lt in Hlt. rewrite Hlt. cbn [parse_chunks orb].
    destruct (raptor_parse_chunk p (Some content) (String.length content) true)
      as [rc1 p1].
    rewrite orb_true_r. destruct (negb (rc1 =? 0)%Z) eqn:Hrc; eexists; try reflexivity.
    apply negb_false_iff, Z.eqb_eq in Hrc. subst rc1. reflexivity.
  - rewrite (string_upto_length N content Hge).
    rewrite Nat.ltb_irrefl. cbn [parse_chunks].
    destruct (raptor_parse_chunk p (Some (string_upto N content)) N false)
      as [rc1 p1] eqn:Hchunk.
    assert (Hfst : String.length (string_upto N content) = N)
      by now apply string_upto_length.
    rewrite Hfst, Hchunk. rewrite orb_false_r.
    destruct (negb (rc1 =? 0)%Z); [eexists; reflexivity|].
    apply IH. rewrite string_from_length'. lia.
Qed.

(** X20. A file is parsed in blocks of 4096 bytes.  On a stream that is
    not at its end and with a base URI, [raptor_parse_file_stream] starts
    the parse and then gives [raptor_parse_chunk] the bytes of the stream
    in order: pieces of exactly [RAPTOR_READ_BUFFER_SIZE] bytes with
    [is_end] 0 and then one shorter piece - empty when the size of the file
    is a multiple of 4096 - with [is_end] 1.  It stops at the first piece
    that the parser refuses, and returns 1 then and 0 otherwise. *)
Theorem parse_file_stream_chunks :
  forall rdf_parser content filename base_uri_,
  exists chunks tail stream',
    concat_strings (map fst chunks) = content
    /\ Forall (fun chunk =>
                 String.length (fst chunk) = RAPTOR_READ_BUFFER_SIZE
                 /\ snd chunk = false)
              (removelast chunks)
    /\ last chunks ("", false) = (tail, true)
    /\ String.length tail < RAPTOR_READ_BUFFER_SIZE
    /\ raptor_parse_file_stream rdf_parser
         (Some {| unread := content; eof_indicator := false |})
         filename (Some base_uri_)
       = let started :=
           raptor_start_parse (file_locator rdf_parser filename)
                              (Some base_uri_) in
         if negb (fst started =? 0)%Z
         then Ret (1%Z, snd started,
                   Some {| unread := content; eof_indicator := false |})
         else
           let parsed := parse_chunks (snd started) chunks in
           Ret (nonzero (fst parsed), snd parsed, Some stream').
Proof.
  intros p content filename base.
  assert (HN : 0 < RAPTOR_READ_BUFFER_SIZE) by (unfold RAPTOR_READ_BUFFER_SIZE; lia).
  destruct (file_chunks_pieces RAPTOR_READ_BUFFER_SIZE
              (S (String.length content)) HN content (Nat.lt_succ_diag_r _))
    as (Hcat & Hall & tail & Hlast & Htail).
  unfold raptor_parse_file_stream. cbv zeta. cbn [unread].
  destruct (raptor_start_parse (file_locator p filename) (Some base))
    as [rc p1].
  destruct (file_stream_loop_chunks (S (String.length content)) p1 content 0%Z
              (Nat.lt_succ_diag_r _)) as [stream' Hloop].
  exists (file_chunks (S (String.length content)) RAPTOR_READ_BUFFER_SIZE content),
    tail, stream'.
  split; [exact Hcat|]. split; [exact Hall|]. split; [exact Hlast|].
  split; [exact Htail|].
  cbn [fst snd]. destruct (negb (rc =? 0)%Z); [reflexivity|].
  rewrite Hloop. cbn [bind].
  destruct (parse_chunks p1 _) as [rc2 p2]. reflexivity.
Qed.

(** X21. What [raptor_parse_file_stream] does not parse.  Without a
    stream or without a base URI it returns 1 and leaves the parser as it
    is.  On a stream whose end-of-file indicator is set already it starts
    the parse and returns - 1 when the start failed, 0 otherwise - without
    a call of [raptor_parse_chunk]: the parser is never told of the
    end. *)
Theorem parse_file_stream_no_chunk :
  (forall rdf_parser stream filename base_uri_,
      stream = None \/ base_uri_ = None ->
      raptor_parse_file_stream rdf_parser stream filename base_uri_
      = Ret (1%Z, rdf_parser, stream))
  /\ (forall rdf_parser content filename base_uri_,
         raptor_parse_file_stream rdf_parser
           (Some {| unread := content; eof_indicator := true |})
           filename (Some base_uri_)
         = let started :=
             raptor_start_parse (file_locator rdf_parser filename)
                                (Some base_uri_) in
           Ret (nonzero (fst started), snd started,
                Some {| unread := content; eof_indicator := true |})).
Proof.
  split.
  - intros p stream filename base [-> | ->]; [reflexivity|].
    now destruct stream.
  - intros p content filename base.
    unfold raptor_parse_file_stream. cbv zeta.
    destruct (raptor_start_parse (file_locator p filename) (Some base))
      as [rc p1].
    cbn [fst snd]. unfold nonzero.
    destruct (rc =? 0)%Z; reflexivity.
Qed.

(** *** User state handed to another parser *)

(** [raptor_parser_copy_user_state(to_parser, from_parser)], for the
    fields of the record: the handler of identifiers and the parameters of
    the default one.  The features are not copied. *)
Definition raptor_parser_copy_user_state (to_parser from_parser : raptor_parser)
  : raptor_parser :=
  {| factory := factory to_parser; context := context to_parser;
     failed := failed to_parser; base_uri := base_uri to_parser;
     locator := locator to_parser; features := features to_parser;
     generate_id_handler := generate_id_handler from_parser;
     generate_id_parameters_of := generate_id_parameters_of from_parser |}.

(** The identifier in the result of [raptor_generate_id]. *)
Definition generated (r : outcome (option string * raptor_parser))
  : outcome (option string) :=
  '(id, _) <- r ;; Ret id.

(** X22. Two parsers, one numbering.  After
    [raptor_parser_copy_user_state] the parser written to generates the
    identifiers that the parser read from generates: the counter is copied
    by value, so that each of the two goes on from it by itself and both
    give the same identifiers.  What features the parser written to has
    stays as it was. *)
Theorem copy_user_state_shares_numbering :
  forall to_parser from_parser id_for_bag user_bnodeid,
    generated (raptor_generate_id
                 (raptor_parser_copy_user_state to_parser from_parser)
                 id_for_bag user_bnodeid)
    = generated (raptor_generate_id from_parser id_for_bag user_bnodeid)
    /\ (forall n,
           '(ids, _) <- generate_ids n (raptor_parser_copy_user_state
                                          to_parser from_parser) ;; Ret ids
           = '(ids, _) <- generate_ids n from_parser ;; Ret ids)
    /\ (forall feature,
           raptor_get_feature
             (raptor_parser_copy_user_state to_parser from_parser) feature
           = raptor_get_feature to_parser feature).
Proof.
  intros to_parser from_parser id_for_bag user_bnodeid.
  assert (Hone : forall t f b u,
    generate_id_parameters_of t = generate_id_parameters_of f ->
    generate_id_handler t = generate_id_handler f ->
    match raptor_generate_id t b u, raptor_generate_id f b u with
    | Ret (id1, t'), Ret (id2, f') =>
        id1 = id2
        /\ generate_id_parameters_of t' = generate_id_parameters_of f'
        /\ generate_id_handler t' = generate_id_handler f'
    | Fatal, Fatal | Undefined, Undefined | RecursionLimit, RecursionLimit
    | LoopLimit, LoopLimit => True
    | _, _ => False
    end).
  { intros t f b u Hg Hh. unfold raptor_generate_id. rewrite Hh.
    destruct (generate_id_handler f) as [handler|] eqn:Hf.
    { repeat split; [exact Hg|congruence]. }
    unfold raptor_default_generate_id_handler. rewrite Hg.
    destruct u as [bnodeid|].
    { repeat split; [exact Hg|congruence]. }
    destruct (default_generate_id_handler_base (generate_id_parameters_of f)
              =? INT_MAX)%Z; [exact I|].
    destruct (generate_id_length _ _); [|exact I].
    match goal with |- context [if ?c then _ else _] => destruct c end;
      [exact I|].
    repeat split. cbn. congruence. }
  split; [|split].
  - specialize (Hone (raptor_parser_copy_user_state to_parser from_parser)
                     from_parser id_for_bag user_bnodeid eq_refl eq_refl).
    unfold generated.
    destruct (raptor_generate_id (raptor_parser_copy_user_state _ _) _ _)
      as [[id1 t']| | | |],
      (raptor_generate_id from_parser _ _) as [[id2 f']| | | |];
      try contradiction; try reflexivity.
    destruct Hone as [-> _]. reflexivity.
  - intros n.
    assert (Hrun : forall t f,
      generate_id_parameters_of t = generate_id_parameters_of f ->
      generate_id_handler t = generate_id_handler f ->
      '(ids, _) <- generate_ids n t ;; Ret ids
      = '(ids, _) <- generate_ids n f ;; Ret ids).
    { induction n as [|n IH]; intros t f Hg Hh; [reflexivity|].
      cbn [generate_ids]. specialize (Hone t f 0%Z None Hg Hh).
      destruct (raptor_generate_id t 0 None) as [[id1 t']| | | |],
        (raptor_generate_id f 0 None) as [[id2 f']| | | |];
        try contradiction; try reflexivity.
      destruct Hone as (-> & Hg' & Hh'). cbn [bind].
      specialize (IH t' f' Hg' Hh').
      destruct (generate_ids n t') as [[ids1 t'']| | | |],
        (generate_ids n f') as [[ids2 f'']| | | |];
        cbn [bind] in *; try discriminate; try reflexivity.
      injection IH as ->. reflexivity. }
    now apply Hrun.
  - intros feature. reflexivity.
Qed.

End Handle.

(** *** A parser object to run the functions on

    The context is empty; [init] and [chunk] of the factory succeed and
    change nothing, and the factory has no [start]. *)
Definition example_init (f : raptor_parser_factory) (p : raptor_parser unit)
           (name_ : option string) : Z * raptor_parser unit := (0%Z, p).

Definition example_object : raptor_parser unit :=
  raptor_set_parser_strict unit (zeroed_parser unit (fun _ => tt) by_mime_factory) 0.

Example new_parser_default :
  raptor_new_parser unit (fun _ => tt) example_init
                    [by_mime_factory; by_uri_factory] None
  = Some example_object.
Proof. reflexivity. Qed.

Example generate_three_ids :
  exists p,
    generate_ids unit 3 example_object
    = Ret ([Some "genid1"; Some "genid2"; Some "genid3"], p).
Proof. eexists. vm_compute. reflexivity. Qed.

Example generate_id_short_prefix_length :
  exists p,
    raptor_default_generate_id_handler unit
      (set_generate_id_parameters unit example_object
         {| default_generate_id_handler_base := 41;
            default_generate_id_handler_prefix := Some "node";
            default_generate_id_handler_prefix_length := 2 |})
      RAPTOR_GENID_TYPE_BNODEID None
    = Ret (Some "no42", p).
Proof. eexists. vm_compute. reflexivity. Qed.

(** [set_feature_then_get] at [RAPTOR_FEATURE_SCANNING] and 7. *)
Lemma set_feature_then_get_witness :
  let '(rc, parser') :=
    raptor_set_feature unit example_object RAPTOR_FEATURE_SCANNING 7 in
  rc = 0%Z
  /\ raptor_get_feature unit parser' RAPTOR_FEATURE_SCANNING = 1%Z
  /\ (forall other, other <> RAPTOR_FEATURE_SCANNING ->
        raptor_get_feature unit parser' other
        = raptor_get_feature unit example_object other)
  /\ factory unit parser' = factory unit example_object
  /\ failed unit parser' = failed unit example_object
  /\ base_uri unit parser' = base_uri unit example_object.
Proof.
  refine (set_feature_then_get unit example_object RAPTOR_FEATURE_SCANNING 7 _ _).
  - lia.
  - reflexivity.
Defined.

(** [default_generate_id_fits] on the new parser: [genid1] in a buffer of
    7 bytes. *)
Lemma default_generate_id_fits_witness :
  raptor_default_generate_id_handler unit example_object
    RAPTOR_GENID_TYPE_BNODEID None
  = Ret (Some ("genid" ++ sprintf_d 1)%string,
         set_generate_id_parameters unit example_object
           (next_id (generate_id_parameters_of unit example_object)))
  /\ generate_id_length (generate_id_parameters_of unit example_object) 1
     = Some (Z.of_nat (String.length ("genid" ++ sprintf_d 1)%string) + 1)%Z.
Proof.
  refine (default_generate_id_fits unit example_object
            RAPTOR_GENID_TYPE_BNODEID _ _).
  - vm_compute. split; [discriminate|reflexivity].
  - exact I.
Defined.

(** [generated_ids_distinct] for three identifiers of the new parser. *)
Lemma generated_ids_distinct_witness :
  exists ids rdf_parser',
    generate_ids unit 3 example_object = Ret (map Some ids, rdf_parser')
    /\ ids = map (fun k => ("genid" ++ sprintf_d (0 + Z.of_nat k))%string)
                 (seq 1 3)
    /\ List.length ids = 3
    /\ NoDup ids.
Proof.
  refine (generated_ids_distinct unit 3 example_object _ _ _ _).
  - reflexivity.
  - vm_compute. discriminate.
  - vm_compute. discriminate.
  - exact I.
Defined.

(** [generate_id_parameters_first_id] with the prefix [b] and base 0. *)
Lemma generate_id_parameters_first_id_witness :
  exists rdf_parser1 rdf_parser2,
    raptor_set_default_generate_id_parameters unit example_object (Some "b") 0
    = Ret rdf_parser1
    /\ raptor_generate_id unit rdf_parser1 1 None
       = Ret (Some ("b" ++ sprintf_d (Z.max 0 1))%string, rdf_parser2).
Proof.
  refine (generate_id_parameters_first_id unit example_object (Some "b") 0 1 _ _).
  - reflexivity.
  - vm_compute. split; [reflexivity|discriminate].
Defined.

(** [new_parser_for_content_defaults] with the two factories that have no
    [recognise_syntax]. *)
Lemma new_parser_for_content_defaults_witness :
  raptor_guess_parser_name sort_scores [by_mime_factory; by_uri_factory]
    None None None 0 None = Ret None
  /\ raptor_new_parser_for_content unit (fun _ => tt) example_init sort_scores
       [by_mime_factory; by_uri_factory] None None None 0 None
     = Ret (Some example_object).
Proof.
  refine (new_parser_for_content_defaults unit (fun _ => tt) example_init
            sort_scores sort_scores_perm [by_mime_factory; by_uri_factory]
            [by_uri_factory] by_mime_factory None None None 0 None _ _ _ _).
  - reflexivity.
  - vm_compute. lia.
  - reflexivity.
  - intros g [<-|[<-|[]]]; reflexivity.
Defined.

End Parser.

(** ** GRDDL engine: [raptor_grddl.c] *)

Module Grddl.

Definition raptor_uri : Type := string.

Definition raptor_uri_equals (uri1 uri2 : raptor_uri) : bool :=
  String.eqb uri1 uri2.

(** [raptor_identifier_type] of [raptor.h] *)
Inductive raptor_identifier_type : Type :=
| RAPTOR_IDENTIFIER_TYPE_UNKNOWN
| RAPTOR_IDENTIFIER_TYPE_RESOURCE
| RAPTOR_IDENTIFIER_TYPE_ANONYMOUS
| RAPTOR_IDENTIFIER_TYPE_PREDICATE
| RAPTOR_IDENTIFIER_TYPE_ORDINAL
| RAPTOR_IDENTIFIER_TYPE_LITERAL
| RAPTOR_IDENTIFIER_TYPE_XML_LITERAL.

Definition is_resource (t : raptor_identifier_type) : bool :=
  match t with
  | RAPTOR_IDENTIFIER_TYPE_RESOURCE => true
  | _ => false
  end.

(** [raptor_statement]: each term with its type; a term that is a
    resource is held by its URI. *)
Record raptor_statement := mk_statement {
  subject : string;
  subject_type : raptor_identifier_type;
  predicate : string;
  predicate_type : raptor_identifier_type;
  object : string;
  object_type : raptor_identifier_type
}.

(** A [raptor_statement_handler]: a function of the user, or
    [raptor_grddl_relay_triples]. *)
Inductive raptor_statement_handler : Type :=
| user_handler (id : nat)
| relay_triples_handler.

(** The [void*] passed to a handler: NULL, a pointer of the user, or the
    GRDDL parser of that depth among the engines running. *)
Inductive user_data_ptr : Type :=
| null_pointer
| user_pointer (id : nat)
| parser_pointer (depth : nat).

Definition user_data_eqb (a b : user_data_ptr) : bool :=
  match a, b with
  | null_pointer, null_pointer => true
  | user_pointer x, user_pointer y => Nat.eqb x y
  | parser_pointer x, parser_pointer y => Nat.eqb x y
  | _, _ => false
  end.

(** One call [handler(user_data, statement)]. *)
Record handler_call := mk_call {
  call_handler : raptor_statement_handler;
  call_user_data : user_data_ptr;
  call_statement : raptor_statement
}.

(** The URIs set by [raptor_grddl_parse_init]. *)
Definition namespace_transformation_uri : raptor_uri :=
  "http://www.w3.org/2003/g/data-view#namespaceTransformation".
Definition profile_transformation_uri : raptor_uri :=
  "http://www.w3.org/2003/g/data-view#profileTransformation".

Definition MATCH_IS_VALUE_LIST : Z := 1.
Definition MATCH_IS_PROFILE : Z := 2.

(** [match_table]: the XPath expression, the flags and the XSLT sheet URI
    of each row before the one that ends the table. *)
Record match_row := mk_row {
  xpath : string;
  flags : Z;
  xslt_sheet_uri : option string
}.

(** A double quote, to write the XPath expressions with. *)
Definition dq : string := String (ascii_of_nat 34) EmptyString.

Definition match_table : list match_row :=
  [ {| xpath := ("/html:html/html:head[contains(@profile," ++ dq
                 ++ "http://www.w3.org/2003/g/data-view" ++ dq
                 ++ ")]/html:link[@rel=" ++ dq ++ "transformation" ++ dq
                 ++ "]/@href")%string;
       flags := 0; xslt_sheet_uri := None |};
    {| xpath := ("/html:html/html:head[contains(@profile," ++ dq
                 ++ "http://www.w3.org/2003/g/data-view" ++ dq
                 ++ ")]/../..//html:a[@rel=" ++ dq ++ "transformation" ++ dq
                 ++ "]/@href")%string;
       flags := 0; xslt_sheet_uri := None |};
    {| xpath := "//@dataview:transformation";
       flags := MATCH_IS_VALUE_LIST; xslt_sheet_uri := None |} ].

Definition grddl_namespace_uris_ignore_list : list string :=
  [ "http://www.w3.org/1999/xhtml";
    "http://www.w3.org/1999/02/22-rdf-syntax-ns#";
    "http://www.w3.org/2001/XMLSchema" ].

(** Modelled from the spec: [raptor_sequence.c] is not in the sources at
    hand.  A sequence is the list of its items, the first at the head.  The
    specification has the transformation URIs as a "FIFO queue consumed
    (front removed) as transforms are applied", onto the back of which a
    match pushes a URI: [raptor_sequence_push] adds at the end,
    [raptor_sequence_join] adds the items of a second sequence at the end,
    and [raptor_sequence_unshift] takes the first item off (NULL when
    there is none). *)
Definition raptor_sequence_size {A : Type} (seq : list A) : nat :=
  List.length seq.

Definition raptor_sequence_push {A : Type} (seq : list A) (data : A) : list A :=
  seq ++ [data].

Definition raptor_sequence_join {A : Type} (dest src : list A) : list A :=
  dest ++ src.

Definition raptor_sequence_unshift {A : Type} (seq : list A)
  : option A * list A :=
  match seq with
  | [] => (None, [])
  | data :: rest => (Some data, rest)
  end.

Arguments raptor_sequence_size {A} seq /.
Arguments raptor_sequence_push {A} seq data /.
Arguments raptor_sequence_join {A} dest src /.
Arguments raptor_sequence_unshift {A} !seq /.

(** [raptor_grddl_seen_uri]: the loop over [visited_uris]. *)
Fixpoint raptor_grddl_seen_uri (visited_uris : list raptor_uri)
         (uri : raptor_uri) : bool :=
  match visited_uris with
  | [] => false
  | vuri :: rest =>
      if raptor_uri_equals uri vuri then true
      else raptor_grddl_seen_uri rest uri
  end.

(** [raptor_grddl_done_uri]: the new value of [visited_uris]. *)
Definition raptor_grddl_done_uri (visited_uris : list raptor_uri)
           (uri : raptor_uri) : list raptor_uri :=
  if negb (raptor_grddl_seen_uri visited_uris uri)
  then raptor_sequence_push visited_uris uri
  else visited_uris.

(** The loop of [raptor_grddl_relay_triples] over [profile_uris], from
    index [i] on: the new value of [doc_transform_uris]. *)
Fixpoint relay_loop (statement : raptor_statement) (i : nat)
         (predicate_uri : raptor_uri)
         (profile_uris : list (option raptor_uri))
         (doc_transform_uris : list raptor_uri) : list raptor_uri :=
  match profile_uris with
  | [] => doc_transform_uris
  | profile_uri :: rest =>
      let predicate_uri :=
        if Nat.eqb i 1 then profile_transformation_uri else predicate_uri in
      match profile_uri with
      | None => relay_loop statement (S i) predicate_uri rest doc_transform_uris
      | Some profile_uri =>
          if raptor_uri_equals (subject statement) profile_uri
             && raptor_uri_equals (predicate statement) predicate_uri
          then relay_loop statement (S i) predicate_uri rest
                          (raptor_sequence_push doc_transform_uris
                                                (object statement))
          else relay_loop statement (S i) predicate_uri rest doc_transform_uris
      end
  end.

(** [xmlElementType], as far as the engine tells node types apart. *)
Inductive xmlElementType : Type :=
| XML_ELEMENT_NODE
| XML_ATTRIBUTE_NODE
| XML_OTHER_NODE (type : Z).

(** A node of an XPath node set: its type, the content of its first child
    (the value of an attribute), the [href] of its namespace and what
    [xmlNodeGetBase] gives for it. *)
Record xmlNode := mk_node {
  node_type : xmlElementType;
  children_content : string;
  ns_href : string;
  node_base : option string
}.

(** The pieces of a string between its spaces: one more than there are
    spaces. *)
Fixpoint split_spaces (s : string) : list string :=
  match s with
  | EmptyString => [EmptyString]
  | String c rest =>
      match split_spaces rest with
      | [] => [String c EmptyString]
      | piece :: pieces =>
          if Ascii.eqb c " " then EmptyString :: piece :: pieces
          else String c piece :: pieces
      end
  end.

(** What [xsltParseStylesheetDoc], [xsltApplyStylesheet] and
    [xsltSaveResultToString] come to: no stylesheet, no result, or a result
    (an HTML document or not) with the [method] and [mediaType] of the
    sheet and the text written. *)
Inductive xslt_result : Type :=
| xslt_parse_failed
| xslt_apply_failed
| xslt_output (is_html : bool) (method mediaType : option string)
              (doc_txt : option string).

(** [sheet->mediaType] after the two steps that fill it in. *)
Definition inferred_media_type (method mediaType : option string) : string :=
  let mediaType :=
    match mediaType, method with
    | None, Some m =>
        if String.eqb m "text" then Some "text/plain"
        else if String.eqb m "xml" then Some "application/xml"
        else if String.eqb m "html" then Some "text/html"
        else None
    | _, _ => mediaType
    end in
  match mediaType with
  | None => "application/rdf+xml"
  | Some m => if String.eqb m "application/xml" then "application/rdf+xml" else m
  end.

Section Engine.

(** *** What the engine calls and is not defined in these sources

    libxml2: a push parser context, the document it builds, the namespace
    of the root element and the node set of an XPath expression. *)
Variable xmlParserCtxt : Type.
Variable xmlDoc : Type.
Variable xmlCreatePushParserCtxt :
  option string -> nat -> option raptor_uri -> option xmlParserCtxt.
Variable xmlParseChunk :
  xmlParserCtxt -> option string -> nat -> bool -> xmlParserCtxt.
Variable myDoc : xmlParserCtxt -> option xmlDoc.
Variable root_ns_href : xmlDoc -> option string.
Variable xmlXPathEvalExpression : xmlDoc -> string -> option (list xmlNode).

(** libxslt: the stylesheet document (NULL or not) applied to a document. *)
Variable xslt : option xmlDoc -> xmlDoc -> xslt_result.

(** [raptor_uri.c] *)
Variable raptor_new_uri_relative_to_base :
  option raptor_uri -> string -> raptor_uri.

(** [raptor_www.c]: the resources that can be retrieved, each with the
    blocks of bytes handed to the write-bytes handler and the value
    [raptor_www_fetch] returns; the retrieval of any other URI fails.  And
    the value it returns after [raptor_www_abort]. *)
Variable www : list (raptor_uri * (list string * Z)).
Variable www_abort_status : Z.

(** The registry of the other parsers: whether a factory has the name,
    what its [start] returns, the statements its [chunk] hands to the
    statement handler for a whole document, and the name guessed for a
    MIME type and a buffer ([raptor_guess_parser_name] with no URI and no
    identifier). *)
Variable registered : string -> bool.
Variable other_parser_start : string -> Z.
Variable other_parser_chunk :
  string -> option raptor_uri -> string -> list raptor_statement.
Variable guess_parser_name : string -> string -> nat -> option string.

(** *** The parser object

    [raptor_parser] with, for a GRDDL parser, the fields of its
    [raptor_grddl_parser_context].  [visited_uris] is not a field here: the
    sequence is shared by an engine and the engines below it, and is passed
    along.  Which sequence the field of a parser points to is told by its
    [grddl_depth]: "0 means that the lists above are owned by this parser",
    any other depth that the parser was given the sequence of its
    parent. *)
#[local] Unset Elimination Schemes.
Inductive raptor_parser : Type := mk_parser {
  factory_name : string;
  base_uri : option raptor_uri;
  failed : bool;
  no_net : bool;
  user_data : user_data_ptr;
  statement_handler : option raptor_statement_handler;
  ctxt : option xmlParserCtxt;
  internal_parser : option raptor_parser;
  internal_parser_name : option string;
  root_ns_uri : option raptor_uri;
  doc_transform_uris : list raptor_uri;
  saved_user_data : user_data_ptr;
  saved_statement_handler : option raptor_statement_handler;
  profile_uris : list (option raptor_uri);
  grddl_depth : nat
}.
#[local] Set Elimination Schemes.

Definition set_base_uri (p : raptor_parser) (v : option raptor_uri) :=
  mk_parser (factory_name p) v (failed p) (no_net p) (user_data p)
    (statement_handler p) (ctxt p) (internal_parser p) (internal_parser_name p)
    (root_ns_uri p) (doc_transform_uris p) (saved_user_data p)
    (saved_statement_handler p) (profile_uris p) (grddl_depth p).

Definition set_handler (p : raptor_parser) (d : user_data_ptr)
           (h : option raptor_statement_handler) :=
  mk_parser (factory_name p) (base_uri p) (failed p) (no_net p) d h (ctxt p)
    (internal_parser p) (internal_parser_name p) (root_ns_uri p)
    (doc_transform_uris p) (saved_user_data p) (saved_statement_handler p)
    (profile_uris p) (grddl_depth p).

Definition set_ctxt (p : raptor_parser) (v : option xmlParserCtxt) :=
  mk_parser (factory_name p) (base_uri p) (failed p) (no_net p) (user_data p)
    (statement_handler p) v (internal_parser p) (internal_parser_name p)
    (root_ns_uri p) (doc_transform_uris p) (saved_user_data p)
    (saved_statement_handler p) (profile_uris p) (grddl_depth p).

Definition set_internal_parser (p : raptor_parser) (v : option raptor_parser) :=
  mk_parser (factory_name p) (base_uri p) (failed p) (no_net p) (user_data p)
    (statement_handler p) (ctxt p) v (internal_parser_name p)
    (root_ns_uri p) (doc_transform_uris p) (saved_user_data p)
    (saved_statement_handler p) (profile_uris p) (grddl_depth p).

Definition set_internal_parser_name (p : raptor_parser) (v : option string) :=
  mk_parser (factory_name p) (base_uri p) (failed p) (no_net p) (user_data p)
    (statement_handler p) (ctxt p) (internal_parser p) v
    (root_ns_uri p) (doc_transform_uris p) (saved_user_data p)
    (saved_statement_handler p) (profile_uris p) (grddl_depth p).

Definition set_root_ns_uri (p : raptor_parser) (v : option raptor_uri) :=
  mk_parser (factory_name p) (base_uri p) (failed p) (no_net p) (user_data p)
    (statement_handler p) (ctxt p) (internal_parser p) (internal_parser_name p)
    v (doc_transform_uris p) (saved_user_data p)
    (saved_statement_handler p) (profile_uris p) (grddl_depth p).

Definition set_doc_transform_uris (p : raptor_parser) (v : list raptor_uri) :=
  mk_parser (factory_name p) (base_uri p) (failed p) (no_net p) (user_data p)
    (statement_handler p) (ctxt p) (internal_parser p) (internal_parser_name p)
    (root_ns_uri p) v (saved_user_data p)
    (saved_statement_handler p) (profile_uris p) (grddl_depth p).

Definition set_saved (p : raptor_parser) (d : user_data_ptr)
           (h : option raptor_statement_handler) :=
  mk_parser (factory_name p) (base_uri p) (failed p) (no_net p) (user_data p)
    (statement_handler p) (ctxt p) (internal_parser p) (internal_parser_name p)
    (root_ns_uri p) (doc_transform_uris p) d h (profile_uris p) (grddl_depth p).

Definition set_profile_uris (p : raptor_parser) (v : list (option raptor_uri)) :=
  mk_parser (factory_name p) (base_uri p) (failed p) (no_net p) (user_data p)
    (statement_handler p) (ctxt p) (internal_parser p) (internal_parser_name p)
    (root_ns_uri p) (doc_transform_uris p) (saved_user_data p)
    (saved_statement_handler p) v (grddl_depth p).

Definition set_grddl_depth (p : raptor_parser) (v : nat) :=
  mk_parser (factory_name p) (base_uri p) (failed p) (no_net p) (user_data p)
    (statement_handler p) (ctxt p) (internal_parser p) (internal_parser_name p)
    (root_ns_uri p) (doc_transform_uris p) (saved_user_data p)
    (saved_statement_handler p) (profile_uris p) v.

(** [raptor_new_parser(name)]: the zeroed object after the [init] of its
    factory; NULL when there is no factory of that name.  The engine runs,
    so its own factory, "grddl", is there. *)
Definition raptor_new_parser (name : string) : option raptor_parser :=
  if String.eqb name "grddl" || registered name then
    Some (mk_parser name None false false null_pointer None None None None
                    None [] null_pointer None [] 0)
  else None.

(** [raptor_parser_copy_user_state], for the fields modelled. *)
Definition raptor_parser_copy_user_state (to_parser from_parser : raptor_parser)
  : raptor_parser :=
  set_handler to_parser (user_data from_parser) (statement_handler from_parser).

(** [raptor_start_parse(rdf_parser, uri)] *)
Definition raptor_start_parse (rdf_parser : raptor_parser)
           (uri : option raptor_uri) : Z * raptor_parser :=
  (if String.eqb (factory_name rdf_parser) "grddl" then 0%Z
   else other_parser_start (factory_name rdf_parser),
   set_base_uri rdf_parser uri).

(** [raptor_grddl_parser_add_parent]: the sequence that the parser's
    [visited_uris] points to is freed, and the pointer and the depth are
    taken from the parent.  "0 means that the lists above are owned by
    this parser": at depth 0 the sequence freed is the parser's own, the
    one [raptor_grddl_parse_init] made.  A parser that was given its parent
    before points to the parent's sequence, the one the engines share; it
    is that sequence which is freed, and the parent and the parser go on
    with a pointer to freed memory ([raptor_grddl_seen_uri] reads through
    it, [raptor_grddl_parse_terminate] at depth 0 frees it again), which is
    undefined. *)
Definition raptor_grddl_parser_add_parent (rdf_parser parent : raptor_parser)
  : outcome raptor_parser :=
  if Nat.eqb (grddl_depth rdf_parser) 0 then
    Ret (set_grddl_depth rdf_parser (grddl_depth parent + 1))
  else Undefined.

(** [raptor_grddl_relay_triples(user_data, statement)] with [user_data]
    the parser [rdf_parser]: the parser afterwards and the call made to the
    saved handler, if any. *)
Definition raptor_grddl_relay_triples (rdf_parser : raptor_parser)
           (statement : raptor_statement) : raptor_parser * list handler_call :=
  let rdf_parser' :=
    if is_resource (subject_type statement)
       && is_resource (predicate_type statement)
       && is_resource (object_type statement)
    then
      set_doc_transform_uris rdf_parser
        (relay_loop statement 0 namespace_transformation_uri
                    (profile_uris rdf_parser) (doc_transform_uris rdf_parser))
    else rdf_parser in
  (rdf_parser',
   match saved_statement_handler rdf_parser with
   | Some handler =>
       [ {| call_handler := handler;
            call_user_data := saved_user_data rdf_parser;
            call_statement := statement |} ]
   | None => []
   end).

(** A run of statements handed to the relay, one after the other. *)
Fixpoint relay_all (rdf_parser : raptor_parser) (statements : list raptor_statement)
  : raptor_parser * list handler_call :=
  match statements with
  | [] => (rdf_parser, [])
  | statement :: rest =>
      let '(rdf_parser1, calls1) := raptor_grddl_relay_triples rdf_parser statement in
      let '(rdf_parser2, calls2) := relay_all rdf_parser1 rest in
      (rdf_parser2, calls1 ++ calls2)
  end.

(** The calls that the internal parser of [rdf_parser] made, carried out:
    a call of the relay with [rdf_parser] as user data runs the relay on
    it; any other call is one that [rdf_parser] makes in its turn. *)
Fixpoint deliver (rdf_parser : raptor_parser) (calls : list handler_call)
  : raptor_parser * list handler_call :=
  match calls with
  | [] => (rdf_parser, [])
  | call :: rest =>
      let '(rdf_parser1, calls1) :=
        match call_handler call with
        | relay_triples_handler =>
            if user_data_eqb (call_user_data call)
                             (parser_pointer (grddl_depth rdf_parser))
            then raptor_grddl_relay_triples rdf_parser (call_statement call)
            else (rdf_parser, [call])
        | user_handler _ => (rdf_parser, [call])
        end in
      let '(rdf_parser2, calls2) := deliver rdf_parser1 rest in
      (rdf_parser2, calls1 ++ calls2)
  end.

(** [raptor_grddl_ensure_internal_parser(rdf_parser, parser_name, relay)] *)
Definition raptor_grddl_ensure_internal_parser (rdf_parser : raptor_parser)
           (parser_name : string) (relay : bool) : outcome (Z * raptor_parser) :=
  '(ret, rdf_parser) <-
    (if match internal_parser_name rdf_parser with
        | None => true
        | Some n => negb (String.eqb n parser_name)
        end
     then
       (* construct a new parser if none in use or not what is required *)
       let rdf_parser :=
         match internal_parser rdf_parser with
         | Some _ =>
             set_internal_parser_name (set_internal_parser rdf_parser None) None
         | None => rdf_parser
         end in
       match raptor_new_parser parser_name with
       | None => Ret (1%Z, set_internal_parser rdf_parser None)
       | Some new_parser =>
           let new_parser := raptor_parser_copy_user_state new_parser rdf_parser in
           Ret (0%Z,
                set_saved
                  (set_internal_parser_name
                     (set_internal_parser rdf_parser (Some new_parser))
                     (Some parser_name))
                  (user_data rdf_parser) (statement_handler rdf_parser))
       end
     else Ret (0%Z, rdf_parser)) ;;
  if negb (ret =? 0)%Z then Ret (1%Z, rdf_parser)
  else
    match internal_parser rdf_parser with
    | None => Undefined
    | Some inner =>
        let inner :=
          if relay then
            (* Go via relay *)
            set_handler inner (parser_pointer (grddl_depth rdf_parser))
                        (Some relay_triples_handler)
          else
            (* Or go direct to user handler *)
            set_handler inner (saved_user_data rdf_parser)
                        (saved_statement_handler rdf_parser) in
        Ret (0%Z, set_internal_parser rdf_parser (Some inner))
    end.

(** *** Retrieval *)

(** The blocks of a resource handed to [handler] one after the other until
    it calls [raptor_www_abort]; [handler] gives the new state and whether
    it aborted. *)
Fixpoint www_deliver {S : Type} (handler : S -> string -> outcome (S * bool))
         (blocks : list string) (s : S) : outcome (S * bool) :=
  match blocks with
  | [] => Ret (s, false)
  | block :: rest =>
      '(s', aborted) <- handler s block ;;
      if aborted : bool then Ret (s', true) else www_deliver handler rest s'
  end.

Definition www_lookup (uri : raptor_uri) : option (list string * Z) :=
  match find (fun entry => raptor_uri_equals (fst entry) uri) www with
  | Some entry => Some (snd entry)
  | None => None
  end.

(** [raptor_grddl_fetch_uri(rdf_parser, uri, write_bytes_handler,
    write_bytes_user_data)]: the value returned and the state the handler
    leaves. *)
Definition raptor_grddl_fetch_uri {S : Type} (rdf_parser : raptor_parser)
           (uri : raptor_uri)
           (write_bytes_handler : S -> string -> outcome (S * bool))
           (write_bytes_user_data : S) : outcome (Z * S) :=
  if no_net rdf_parser then Ret (1%Z, write_bytes_user_data)
  else
    match www_lookup uri with
    | None => Ret (1%Z, write_bytes_user_data)
    | Some (blocks, status) =>
        '(s, aborted) <- www_deliver write_bytes_handler blocks
                                     write_bytes_user_data ;;
        Ret (if aborted : bool then www_abort_status else status, s)
    end.

(** [raptor_grddl_uri_xml_parse_bytes]: the state is [xpbc->xc]. *)
Definition raptor_grddl_uri_xml_parse_bytes (uri : raptor_uri)
           (xc : option xmlParserCtxt) (block : string)
  : outcome (option xmlParserCtxt * bool) :=
  match xc with
  | None =>
      Ret (xmlCreatePushParserCtxt (Some block) (String.length block) (Some uri),
           false)
  | Some xc =>
      Ret (Some (xmlParseChunk xc (Some block) (String.length block) false),
           false)
  end.

(** *** Applying a transformation *)

(** [raptor_grddl_run_grddl_transform_doc]: the value returned, the parser
    afterwards and the calls it made. *)
Definition raptor_grddl_run_grddl_transform_doc (rdf_parser : raptor_parser)
           (xslt_uri : raptor_uri) (xslt_doc : option xmlDoc) (doc : xmlDoc)
  : outcome (Z * raptor_parser * list handler_call) :=
  match xslt xslt_doc doc with
  | xslt_parse_failed => Ret (1%Z, rdf_parser, [])
  | xslt_apply_failed => Ret (1%Z, rdf_parser, [])
  | xslt_output is_html method mediaType doc_txt =>
      let method := if is_html : bool then Some "html" else method in
      match doc_txt with
      | None => Ret (0%Z, rdf_parser, [])
      | Some doc_txt =>
          if Nat.eqb (String.length doc_txt) 0 then
            (* XSLT returned an empty document *)
            Ret (0%Z, rdf_parser, [])
          else
            match guess_parser_name (inferred_media_type method mediaType)
                                    doc_txt (String.length doc_txt) with
            | None => Undefined (* strcmp(NULL, "grddl") *)
            | Some parser_name =>
                if String.eqb parser_name "grddl" then
                  (* Ignoring guess to run grddl parser. *)
                  Ret (0%Z, rdf_parser, [])
                else
                  '(ret, rdf_parser) <-
                    raptor_grddl_ensure_internal_parser rdf_parser parser_name
                                                        true ;;
                  if negb (ret =? 0)%Z then Ret (ret, rdf_parser, [])
                  else
                    match internal_parser rdf_parser with
                    | None => Ret (ret, rdf_parser, [])
                    | Some inner =>
                        (* generate the triples *)
                        let '(_, inner) :=
                          raptor_start_parse inner (base_uri rdf_parser) in
                        let statements :=
                          other_parser_chunk (factory_name inner)
                                             (base_uri inner) doc_txt in
                        let calls :=
                          match statement_handler inner with
                          | Some handler =>
                              map (mk_call handler (user_data inner)) statements
                          | None => []
                          end in
                        let '(rdf_parser, calls) :=
                          deliver (set_internal_parser rdf_parser (Some inner))
                                  calls in
                        Ret (ret, rdf_parser, calls)
                    end
            end
      end
  end.

(** [raptor_grddl_run_grddl_transform_uri] *)
Definition raptor_grddl_run_grddl_transform_uri (rdf_parser : raptor_parser)
           (xslt_uri : raptor_uri) (doc : xmlDoc)
  : outcome (Z * raptor_parser * list handler_call) :=
  '(ret, xc) <- raptor_grddl_fetch_uri rdf_parser xslt_uri
                  (raptor_grddl_uri_xml_parse_bytes xslt_uri) None ;;
  if negb (ret =? 0)%Z then Ret (ret, rdf_parser, [])
  else
    match xc with
    | None => Undefined (* xslt_ctxt->myDoc with no context made *)
    | Some xc =>
        let xc := xmlParseChunk xc None 0 true in
        raptor_grddl_run_grddl_transform_doc rdf_parser xslt_uri (myDoc xc) doc
    end.

(** *** XPath matches *)

(** The loop over the pieces of a value list: [seq] afterwards.  A piece
    that is empty is passed over unless it is the last one, where
    [strchr] found no further space. *)
Fixpoint value_list_loop (flags : Z) (base_uri : option raptor_uri)
         (pieces : list string) (seq : list raptor_uri) : list raptor_uri :=
  match pieces with
  | [] => seq
  | start :: rest =>
      let last_piece := match rest with [] => true | _ => false end in
      if negb last_piece && Nat.eqb (String.length start) 0 then
        value_list_loop flags base_uri rest seq
      else
        let uri := raptor_new_uri_relative_to_base base_uri start in
        if negb (Z.land flags MATCH_IS_PROFILE =? 0)%Z
           && String.eqb uri "http://www.w3.org/2003/g/data-view'"
        then value_list_loop flags base_uri rest seq
        else value_list_loop flags base_uri rest (raptor_sequence_push seq uri)
  end.

(** The loop over the nodes matched: [seq] afterwards. *)
Fixpoint xpath_nodes_loop (rdf_parser : raptor_parser) (flags : Z)
         (nodes : list xmlNode) (seq : list raptor_uri) : list raptor_uri :=
  match nodes with
  | [] => seq
  | node :: rest =>
      match node_type node with
      | XML_OTHER_NODE _ =>
          (* Got unexpected node type *)
          xpath_nodes_loop rdf_parser flags rest seq
      | _ =>
          let uri_string :=
            match node_type node with
            | XML_ATTRIBUTE_NODE => children_content node
            | _ => ns_href node
            end in
          let base_uri :=
            match node_base node with
            | Some base_uri_string => Some base_uri_string
            | None => base_uri rdf_parser
            end in
          if negb (Z.land flags MATCH_IS_VALUE_LIST =? 0)%Z then
            xpath_nodes_loop rdf_parser flags rest
              (value_list_loop flags base_uri (split_spaces uri_string) seq)
          else
            xpath_nodes_loop rdf_parser flags rest
              (raptor_sequence_push seq
                 (raptor_new_uri_relative_to_base base_uri uri_string))
      end
  end.

(** [raptor_grddl_run_xpath_match]: the sequence, or NULL. *)
Definition raptor_grddl_run_xpath_match (rdf_parser : raptor_parser)
           (doc : xmlDoc) (xpathExpr : string) (flags : Z)
  : option (list raptor_uri) :=
  match xmlXPathEvalExpression doc xpathExpr with
  | None => None
  | Some [] => None
  | Some nodes => Some (xpath_nodes_loop rdf_parser flags nodes [])
  end.

(** *** Recursion into namespace and profile documents *)

(** What a call of a parser's [chunk] leaves: the value returned, the
    parser, the shared [visited_uris] and the calls made to the statement
    handler. *)
Definition chunk_result : Type :=
  (Z * raptor_parser * list raptor_uri * list handler_call)%type.

Section Chunk.

(** [raptor_parse_chunk] on a GRDDL parser one level down. *)
Variable parse_chunk_below :
  list raptor_uri -> raptor_parser -> option string -> bool ->
  outcome chunk_result.

(** [raptor_grddl_parse_uri_write_bytes]: the state is the parser fed, with
    [visited_uris] and the calls made so far. *)
Definition raptor_grddl_parse_uri_write_bytes
           (state : raptor_parser * list raptor_uri * list handler_call)
           (block : string)
  : outcome (raptor_parser * list raptor_uri * list handler_call * bool) :=
  let '(rdf_parser, visited_uris, calls) := state in
  '(ret, rdf_parser, visited_uris, calls') <-
    parse_chunk_below visited_uris rdf_parser (Some block) false ;;
  Ret (rdf_parser, visited_uris, calls ++ calls', negb (ret =? 0)%Z).

(** [raptor_grddl_run_recursive(rdf_parser, uri)] *)
Definition raptor_grddl_run_recursive (visited_uris : list raptor_uri)
           (rdf_parser : raptor_parser) (uri : raptor_uri)
  : outcome chunk_result :=
  if raptor_grddl_seen_uri visited_uris uri then
    Ret (0%Z, rdf_parser, visited_uris, [])
  else
    '(ret, rdf_parser) <-
      raptor_grddl_ensure_internal_parser rdf_parser "grddl" true ;;
    if negb (ret =? 0)%Z then Ret (1%Z, rdf_parser, visited_uris, [])
    else
      match internal_parser rdf_parser with
      | None => Undefined
      | Some inner =>
          inner <- raptor_grddl_parser_add_parent inner rdf_parser ;;
          let '(ret, inner) := raptor_start_parse inner (Some uri) in
          if negb (ret =? 0)%Z then
            Ret (1%Z, set_internal_parser rdf_parser (Some inner),
                 visited_uris, [])
          else
            '(ret, (inner, visited_uris, calls)) <-
              raptor_grddl_fetch_uri inner uri
                raptor_grddl_parse_uri_write_bytes (inner, visited_uris, []) ;;
            if negb (ret =? 0)%Z then
              let '(rdf_parser, calls) :=
                deliver (set_internal_parser rdf_parser (Some inner)) calls in
              Ret (1%Z, rdf_parser, visited_uris, calls)
            else
              '(_, inner, visited_uris, calls') <-
                parse_chunk_below visited_uris inner None true ;;
              let '(rdf_parser, calls) :=
                deliver (set_internal_parser rdf_parser (Some inner))
                        (calls ++ calls') in
              Ret (0%Z, rdf_parser, visited_uris, calls)
      end.

(** The loop [Recursive GRDDL through all the <head profile> URIs]: [ret]
    is the value of the last call. *)
Fixpoint profile_loop (result : list raptor_uri) (ret : Z)
         (visited_uris : list raptor_uri) (rdf_parser : raptor_parser)
         (calls : list handler_call) : outcome chunk_result :=
  match result with
  | [] => Ret (ret, rdf_parser, visited_uris, calls)
  | uri :: rest =>
      '(ret, rdf_parser, visited_uris, calls') <-
        raptor_grddl_run_recursive visited_uris rdf_parser uri ;;
      profile_loop rest ret visited_uris rdf_parser (calls ++ calls')
  end.

(** The loop [Try all XPaths] over the rows of the table that are left. *)
Fixpoint match_table_loop (doc : xmlDoc) (rows : list match_row)
         (rdf_parser : raptor_parser) : raptor_parser :=
  match rows with
  | [] => rdf_parser
  | row :: rest =>
      let rdf_parser :=
        match raptor_grddl_run_xpath_match rdf_parser doc (xpath row)
                                           (flags row) with
        | Some result =>
            let result :=
              match xslt_sheet_uri row with
              | Some uri_string =>
                  (* Ignore what matched, use a hardcoded XSLT URI *)
                  raptor_new_uri_relative_to_base (base_uri rdf_parser)
                                                  uri_string
                  :: tl result
              | None => result
              end in
            set_doc_transform_uris rdf_parser
              (raptor_sequence_join (doc_transform_uris rdf_parser) result)
        | None => rdf_parser
        end in
      if failed rdf_parser then rdf_parser
      else match_table_loop doc rest rdf_parser
  end.

(** The loop [Apply all transformation URIs seen], from the counter [i]
    on: [for(i=0; i < raptor_sequence_size(doc_transform_uris); i++)] with
    [raptor_sequence_unshift] in its body.  At most [budget] turns are
    taken. *)
Fixpoint drain_loop (budget : nat) (doc : xmlDoc) (i : nat) (ret : Z)
         (rdf_parser : raptor_parser) (calls : list handler_call)
  : outcome (Z * raptor_parser * list handler_call) :=
  match budget with
  | O => LoopLimit
  | S budget' =>
      if Nat.ltb i (raptor_sequence_size (doc_transform_uris rdf_parser)) then
        match raptor_sequence_unshift (doc_transform_uris rdf_parser) with
        | (None, _) => Undefined (* not reached: the sequence has an item *)
        | (Some uri, rest) =>
            let rdf_parser := set_doc_transform_uris rdf_parser rest in
            '(ret, rdf_parser, calls') <-
              raptor_grddl_run_grddl_transform_uri rdf_parser uri doc ;;
            if negb (ret =? 0)%Z then Ret (ret, rdf_parser, calls ++ calls')
            else drain_loop budget' doc (S i) ret rdf_parser (calls ++ calls')
        end
      else Ret (ret, rdf_parser, calls)
  end.

(** The part of [raptor_grddl_parse_chunk] that follows [if(!is_end)
    return 0;]: the document that the context [c] holds is looked through
    for namespace, profile and transformation URIs, and the
    transformations are applied.  [xmlXPathNewContext] is taken to give a
    context. *)
Definition grddl_discover (loop_budget : nat)
           (visited_uris : list raptor_uri) (rdf_parser : raptor_parser)
           (c : xmlParserCtxt) : outcome chunk_result :=
  match base_uri rdf_parser with
  | None => Undefined
  | Some base =>
      let visited_uris := raptor_grddl_done_uri visited_uris base in
      match myDoc c with
      | None =>
          (* Failed to create XML DOM for document *)
          Ret (1%Z, rdf_parser, visited_uris, [])
      | Some doc =>
          (* Work out if there is a root namespace URI *)
          '(_, rdf_parser, visited_uris, calls) <-
            match root_ns_href doc with
            | Some ns_uri_string =>
                if existsb (String.eqb ns_uri_string)
                           grddl_namespace_uris_ignore_list
                then Ret (0%Z, rdf_parser, visited_uris, [])
                else
                  let uri :=
                    raptor_new_uri_relative_to_base (base_uri rdf_parser)
                                                    ns_uri_string in
                  raptor_grddl_run_recursive visited_uris
                    (set_root_ns_uri rdf_parser (Some uri)) uri
            | None => Ret (0%Z, rdf_parser, visited_uris, [])
            end ;;
          (* Always put something at the start of the list even if NULL *)
          let rdf_parser :=
            set_profile_uris rdf_parser
              (raptor_sequence_push (profile_uris rdf_parser)
                                    (root_ns_uri rdf_parser)) in
          (* Try <head profile> URIs *)
          '(ret, rdf_parser, visited_uris, calls) <-
            match raptor_grddl_run_xpath_match rdf_parser doc
                    "/html:html/html:head/@profile"
                    (Z.lor MATCH_IS_VALUE_LIST MATCH_IS_PROFILE) with
            | Some result =>
                '(ret, rdf_parser, visited_uris, calls) <-
                  profile_loop result 0%Z visited_uris rdf_parser calls ;;
                (* Store profile URIs for later *)
                Ret (ret,
                     set_profile_uris rdf_parser
                       (raptor_sequence_join (profile_uris rdf_parser)
                                             (map Some result)),
                     visited_uris, calls)
            | None => Ret (0%Z, rdf_parser, visited_uris, calls)
            end ;;
          (* Try all XPaths *)
          let rdf_parser := match_table_loop doc match_table rdf_parser in
          if failed rdf_parser then
            Ret (1%Z, rdf_parser, visited_uris, calls)
          else
            (* Apply all transformation URIs seen *)
            '(ret, rdf_parser, calls) <-
              drain_loop loop_budget doc 0 ret rdf_parser calls ;;
            Ret (if (ret =? 0)%Z then 0%Z else 1%Z,
                 rdf_parser, visited_uris, calls)
      end
  end.

(** [raptor_grddl_parse_chunk(rdf_parser, s, len, is_end)], where [s]
    holds the [len] bytes. *)
Definition grddl_parse_chunk (loop_budget : nat)
           (visited_uris : list raptor_uri) (rdf_parser : raptor_parser)
           (s : option string) (is_end : bool) : outcome chunk_result :=
  let len := match s with Some bytes => String.length bytes | None => 0 end in
  match
    match ctxt rdf_parser with
    | None =>
        (* first time, so init context with first read bytes *)
        match xmlCreatePushParserCtxt s len (base_uri rdf_parser) with
        | None => None
        | Some c => Some (if is_end then xmlParseChunk c s 0 is_end else c)
        end
    | Some c =>
        if negb (Nat.eqb len 0) || is_end
        then Some (xmlParseChunk c s len is_end)
        else Some c
    end
  with
  | None =>
      (* Failed to create XML parser *)
      Ret (1%Z, rdf_parser, visited_uris, [])
  | Some c =>
      let rdf_parser := set_ctxt rdf_parser (Some c) in
      if negb is_end then Ret (0%Z, rdf_parser, visited_uris, [])
      else grddl_discover loop_budget visited_uris rdf_parser c
  end.

End Chunk.

(** [raptor_grddl_parse_chunk] with room for [depth_budget] engines, this
    one and those below it, and [loop_budget] turns of each loop over the
    transformations. *)
Fixpoint raptor_grddl_parse_chunk (depth_budget loop_budget : nat)
         (visited_uris : list raptor_uri) (rdf_parser : raptor_parser)
         (s : option string) (is_end : bool) : outcome chunk_result :=
  match depth_budget with
  | O => RecursionLimit
  | S depth_budget' =>
      grddl_parse_chunk
        (raptor_grddl_parse_chunk depth_budget' loop_budget)
        loop_budget visited_uris rdf_parser s is_end
  end.

(** *** The relay filter *)

(** The predicate that the entry of [profile_uris] at index [i] goes
    with. *)
Definition relay_predicate (i : nat) : raptor_uri :=
  if Nat.eqb i 0 then namespace_transformation_uri
  else profile_transformation_uri.

(** Whether a statement matches the entry [profile_uri] at index [i]. *)
Definition relay_match (statement : raptor_statement)
           (entry : nat * option raptor_uri) : bool :=
  match snd entry with
  | None => false
  | Some profile_uri =>
      raptor_uri_equals (subject statement) profile_uri
      && raptor_uri_equals (predicate statement) (relay_predicate (fst entry))
  end.

(** The entries of a list with their indices, counted from [i]. *)
Definition indexed_from {A : Type} (i : nat) (l : list A) : list (nat * A) :=
  combine (seq i (List.length l)) l.

Lemma relay_loop_pushes (statement : raptor_statement)
      (profiles : list (option raptor_uri)) :
  forall i predicate_uri queue,
    (i <= 1 -> predicate_uri = namespace_transformation_uri) ->
    (2 <= i -> predicate_uri = profile_transformation_uri) ->
    relay_loop statement i predicate_uri profiles queue =
    queue ++ map (fun _ => object statement)
                 (filter (relay_match statement) (indexed_from i profiles)).
Proof.
  induction profiles as [|entry rest IH]; intros i pred queue Hlow Hhigh.
  - simpl. now rewrite app_nil_r.
  - cbn [relay_loop indexed_from List.length seq combine filter].
    fold (indexed_from (S i) rest).
    set (pred' := if Nat.eqb i 1 then profile_transformation_uri else pred).
    assert (Hpred' : pred' = relay_predicate i).
    { subst pred'. unfold relay_predicate.
      destruct i as [|[|i]]; simpl; auto. apply Hhigh. lia. }
    assert (Hlow' : S i <= 1 -> pred' = namespace_transformation_uri).
    { intros Hi. assert (i = 0) by lia. subst i. subst pred'. simpl.
      apply Hlow. lia. }
    assert (Hhigh' : 2 <= S i -> pred' = profile_transformation_uri).
    { intros Hi. subst pred'.
      destruct (Nat.eqb_spec i 1); [reflexivity|]. apply Hhigh. lia. }
    unfold relay_match at 1. cbn [fst snd].
    destruct entry as [profile_uri|].
    + rewrite <- Hpred'.
      destruct (raptor_uri_equals (subject statement) profile_uri
                && raptor_uri_equals (predicate statement) pred').
      * rewrite (IH (S i) pred' _ Hlow' Hhigh'). cbn [map].
        unfold raptor_sequence_push. now rewrite <- app_assoc.
      * apply (IH (S i) pred' _ Hlow' Hhigh').
    + apply (IH (S i) pred' _ Hlow' Hhigh').
Qed.

(** C4. For a statement whose subject, predicate and object are all
    resources, the relay matches the entry of [profile_uris] at index 0
    (the root namespace; NULL entries are passed over) against the
    predicate [data-view#namespaceTransformation] and every entry at an
    index from 1 on against [data-view#profileTransformation]; each match
    pushes the object URI onto the back of [doc_transform_uris], and
    nothing else is pushed or removed. *)
Theorem relay_triples_profile_indexing (rdf_parser : raptor_parser)
        (statement : raptor_statement) :
  subject_type statement = RAPTOR_IDENTIFIER_TYPE_RESOURCE ->
  predicate_type statement = RAPTOR_IDENTIFIER_TYPE_RESOURCE ->
  object_type statement = RAPTOR_IDENTIFIER_TYPE_RESOURCE ->
  let rdf_parser' := fst (raptor_grddl_relay_triples rdf_parser statement) in
  doc_transform_uris rdf_parser' =
  doc_transform_uris rdf_parser
  ++ map (fun _ => object statement)
         (filter (fun entry =>
                    match snd entry with
                    | None => false
                    | Some profile_uri =>
                        String.eqb (subject statement) profile_uri
                        && String.eqb (predicate statement)
                             (if Nat.eqb (fst entry) 0
                              then "http://www.w3.org/2003/g/data-view#namespaceTransformation"
                              else "http://www.w3.org/2003/g/data-view#profileTransformation")
                    end)
                 (indexed_from 0 (profile_uris rdf_parser)))
  /\ profile_uris rdf_parser' = profile_uris rdf_parser.
Proof.
  intros Hs Hp Ho rdf_parser'. subst rdf_parser'.
  unfold raptor_grddl_relay_triples. rewrite Hs, Hp, Ho. simpl.
  split; [|reflexivity].
  apply relay_loop_pushes; [reflexivity|lia].
Qed.

Lemma relay_triples_saved (rdf_parser : raptor_parser)
      (statement : raptor_statement) :
  let rdf_parser' := fst (raptor_grddl_relay_triples rdf_parser statement) in
  saved_statement_handler rdf_parser' = saved_statement_handler rdf_parser
  /\ saved_user_data rdf_parser' = saved_user_data rdf_parser.
Proof.
  unfold raptor_grddl_relay_triples. simpl.
  destruct (is_resource (subject_type statement)
            && is_resource (predicate_type statement)
            && is_resource (object_type statement)); split; reflexivity.
Qed.

(** C5. With a statement handler saved in the engine, every statement
    handed to the relay is passed on, as it is, to that handler with the
    saved user data, whether or not it matched; and a run of statements
    is passed on in the order in which it came. *)
Theorem relay_triples_forwards (rdf_parser : raptor_parser)
        (handler : raptor_statement_handler) :
  saved_statement_handler rdf_parser = Some handler ->
  (forall statement,
      snd (raptor_grddl_relay_triples rdf_parser statement) =
      [ {| call_handler := handler;
           call_user_data := saved_user_data rdf_parser;
           call_statement := statement |} ])
  /\ (forall statements,
         snd (relay_all rdf_parser statements) =
         map (mk_call handler (saved_user_data rdf_parser)) statements).
Proof.
  intros Hsaved. split.
  - intros statement. unfold raptor_grddl_relay_triples. simpl.
    now rewrite Hsaved.
  - intros statements. revert rdf_parser Hsaved.
    induction statements as [|statement rest IH]; intros rdf_parser Hsaved;
      [reflexivity|].
    cbn [relay_all map].
    pose proof (relay_triples_saved rdf_parser statement) as [Hh Hd].
    destruct (raptor_grddl_relay_triples rdf_parser statement)
      as [rdf_parser1 calls1] eqn:Hrelay.
    simpl in Hh, Hd.
    assert (Hcalls1 : calls1 = [mk_call handler (saved_user_data rdf_parser) statement]).
    { change calls1 with (snd (rdf_parser1, calls1)). rewrite <- Hrelay.
      unfold raptor_grddl_relay_triples. simpl. now rewrite Hsaved. }
    specialize (IH rdf_parser1). rewrite Hh, Hd in IH.
    specialize (IH Hsaved).
    destruct (relay_all rdf_parser1 rest) as [rdf_parser2 calls2].
    simpl in IH. simpl. now rewrite Hcalls1, IH.
Qed.

(** *** Value lists and the profile flag *)

(** The pieces of a value list that the loop makes URIs of: those that are
    not empty, and the last one. *)
Fixpoint tokens (pieces : list string) : list string :=
  match pieces with
  | [] => []
  | piece :: rest =>
      match rest with
      | [] => [piece]
      | _ => if Nat.eqb (String.length piece) 0 then tokens rest
             else piece :: tokens rest
      end
  end.

(** The URI that the loop leaves out of a profile list: the data-view URI
    followed by an apostrophe. *)
Definition dropped_from_profile (flags : Z) (uri : raptor_uri) : bool :=
  negb (Z.land flags MATCH_IS_PROFILE =? 0)%Z
  && String.eqb uri "http://www.w3.org/2003/g/data-view'".

Lemma value_list_loop_tokens (flags_ : Z) (base : option raptor_uri)
      (pieces : list string) :
  forall seq,
    value_list_loop flags_ base pieces seq =
    seq ++ filter (fun uri => negb (dropped_from_profile flags_ uri))
                  (map (raptor_new_uri_relative_to_base base) (tokens pieces)).
Proof.
  induction pieces as [|piece rest IH]; intros seq.
  - simpl. now rewrite app_nil_r.
  - cbn [value_list_loop tokens].
    destruct rest as [|next rest].
    + cbn [negb andb map filter value_list_loop]. unfold dropped_from_profile.
      destruct (negb (Z.land flags_ MATCH_IS_PROFILE =? 0)%Z
                && String.eqb (raptor_new_uri_relative_to_base base piece)
                     "http://www.w3.org/2003/g/data-view'");
        cbn [negb]; [now rewrite app_nil_r|reflexivity].
    + cbn [negb andb].
      destruct (Nat.eqb (String.length piece) 0); [apply IH|].
      cbn [map filter]. unfold dropped_from_profile at 1.
      destruct (negb (Z.land flags_ MATCH_IS_PROFILE =? 0)%Z
                && String.eqb (raptor_new_uri_relative_to_base base piece)
                     "http://www.w3.org/2003/g/data-view'"); cbn [negb].
      * apply IH.
      * rewrite IH. unfold raptor_sequence_push. now rewrite <- app_assoc.
Qed.

(** C2, as the code has it.  An XPath match treated with the value-list
    and profile flags keeps every token whose URI is
    [http://www.w3.org/2003/g/data-view]: when the match is one attribute
    node and a token of its value resolves, against the base of the node
    or else of the parser, to that URI, the URI is in the sequence the
    match gives. *)
Theorem profile_list_keeps_data_view (rdf_parser : raptor_parser)
        (doc : xmlDoc) (xpathExpr : string) (node : xmlNode) (token : string) :
  xmlXPathEvalExpression doc xpathExpr = Some [node] ->
  node_type node = XML_ATTRIBUTE_NODE ->
  In token (tokens (split_spaces (children_content node))) ->
  raptor_new_uri_relative_to_base
    (match node_base node with
     | Some base => Some base
     | None => base_uri rdf_parser
     end) token
  = "http://www.w3.org/2003/g/data-view" ->
  exists seq,
    raptor_grddl_run_xpath_match rdf_parser doc xpathExpr
      (Z.lor MATCH_IS_VALUE_LIST MATCH_IS_PROFILE) = Some seq
    /\ In "http://www.w3.org/2003/g/data-view"%string seq.
Proof.
  intros Heval Htype Htoken Huri.
  unfold raptor_grddl_run_xpath_match. rewrite Heval.
  eexists. split; [reflexivity|].
  cbn [xpath_nodes_loop]. rewrite Htype.
  change (negb (Z.land (Z.lor MATCH_IS_VALUE_LIST MATCH_IS_PROFILE)
                       MATCH_IS_VALUE_LIST =? 0)%Z) with true.
  cbv iota. rewrite value_list_loop_tokens. cbn [app].
  apply filter_In. split.
  - rewrite <- Huri. now apply in_map.
  - reflexivity.
Qed.

(** *** Results of sequenced calls *)

Lemma bind_ret_inv {A B : Type} (m : outcome A) (k : A -> outcome B) (b : B) :
  bind m k = Ret b -> exists a, m = Ret a /\ k a = Ret b.
Proof.
  destruct m as [a| | | |]; simpl; try discriminate. eauto.
Qed.

Lemma bind_not_limit {A B : Type} (m : outcome A) (k : A -> outcome B) :
  m <> RecursionLimit ->
  (forall a, m = Ret a -> k a <> RecursionLimit) ->
  bind m k <> RecursionLimit.
Proof.
  destruct m as [a| | | |]; simpl; intros Hm Hk; try discriminate.
  - now apply Hk.
  - contradiction.
Qed.

(** *** The transformation queue only grows by what is applied *)

Lemma relay_loop_length (statement : raptor_statement)
      (profiles : list (option raptor_uri)) :
  forall i predicate_uri queue,
    List.length queue
    <= List.length (relay_loop statement i predicate_uri profiles queue).
Proof.
  induction profiles as [|entry rest IH]; intros i pred queue; simpl; [lia|].
  destruct entry as [profile_uri|]; [|apply IH].
  destruct (raptor_uri_equals (subject statement) profile_uri
            && raptor_uri_equals (predicate statement)
                 (if Nat.eqb i 1 then profile_transformation_uri else pred)).
  - etransitivity; [|apply IH]. rewrite length_app. lia.
  - apply IH.
Qed.

Lemma relay_triples_queue (rdf_parser : raptor_parser)
      (statement : raptor_statement) :
  List.length (doc_transform_uris rdf_parser)
  <= List.length (doc_transform_uris
                    (fst (raptor_grddl_relay_triples rdf_parser statement))).
Proof.
  unfold raptor_grddl_relay_triples. simpl.
  destruct (is_resource (subject_type statement)
            && is_resource (predicate_type statement)
            && is_resource (object_type statement)); simpl; [|lia].
  apply relay_loop_length.
Qed.

Lemma deliver_queue (calls : list handler_call) :
  forall rdf_parser,
    List.length (doc_transform_uris rdf_parser)
    <= List.length (doc_transform_uris (fst (deliver rdf_parser calls))).
Proof.
  induction calls as [|call rest IH]; intros rdf_parser; simpl; [lia|].
  assert (Hstep :
    forall step : raptor_parser * list handler_call,
      List.length (doc_transform_uris rdf_parser)
      <= List.length (doc_transform_uris (fst step)) ->
      List.length (doc_transform_uris rdf_parser)
      <= List.length (doc_transform_uris
           (fst (let '(rdf_parser1, calls1) := step in
                 let '(rdf_parser2, calls2) := deliver rdf_parser1 rest in
                 (rdf_parser2, calls1 ++ calls2))))).
  { intros [rdf_parser1 calls1] Hle. simpl in Hle.
    specialize (IH rdf_parser1).
    destruct (deliver rdf_parser1 rest) as [rdf_parser2 calls2]. simpl in *. lia. }
  apply Hstep.
  destruct (call_handler call); simpl; [lia|].
  destruct (user_data_eqb (call_user_data call)
                          (parser_pointer (grddl_depth rdf_parser))); simpl; [|lia].
  apply relay_triples_queue.
Qed.

Lemma ensure_internal_parser_queue (rdf_parser : raptor_parser)
      (parser_name : string) (relay : bool) (ret : Z) (rdf_parser' : raptor_parser) :
  raptor_grddl_ensure_internal_parser rdf_parser parser_name relay
  = Ret (ret, rdf_parser') ->
  doc_transform_uris rdf_parser' = doc_transform_uris rdf_parser.
Proof.
  unfold raptor_grddl_ensure_internal_parser. intros H.
  apply bind_ret_inv in H. destruct H as [[ret1 p1] [H1 H2]].
  assert (Hq : doc_transform_uris p1 = doc_transform_uris rdf_parser).
  { destruct (match internal_parser_name rdf_parser with
              | Some n => negb (String.eqb n parser_name)
              | None => true
              end).
    - destruct (raptor_new_parser parser_name);
        injection H1 as <- <-; destruct (internal_parser rdf_parser); reflexivity.
    - injection H1 as <- <-. reflexivity. }
  destruct (negb (ret1 =? 0)%Z).
  - injection H2 as <- <-. exact Hq.
  - destruct (internal_parser p1); [|discriminate].
    injection H2 as <- <-. exact Hq.
Qed.

Lemma transform_doc_queue (rdf_parser : raptor_parser) (xslt_uri : raptor_uri)
      (xslt_doc : option xmlDoc) (doc : xmlDoc) (ret : Z)
      (rdf_parser' : raptor_parser) (calls : list handler_call) :
  raptor_grddl_run_grddl_transform_doc rdf_parser xslt_uri xslt_doc doc
  = Ret (ret, rdf_parser', calls) ->
  List.length (doc_transform_uris rdf_parser)
  <= List.length (doc_transform_uris rdf_parser').
Proof.
  unfold raptor_grddl_run_grddl_transform_doc.
  destruct (xslt xslt_doc doc) as [| |is_html method mediaType doc_txt];
    try (intros [= <- <- <-]; lia).
  destruct doc_txt as [doc_txt|]; [|intros [= <- <- <-]; lia].
  destruct (Nat.eqb (String.length doc_txt) 0); [intros [= <- <- <-]; lia|].
  destruct (guess_parser_name _ doc_txt _) as [parser_name|]; [|discriminate].
  destruct (String.eqb parser_name "grddl"); [intros [= <- <- <-]; lia|].
  intros H. apply bind_ret_inv in H. destruct H as [[ret1 p1] [H1 H2]].
  apply ensure_internal_parser_queue in H1.
  apply (f_equal (@List.length raptor_uri)) in H1.
  destruct (negb (ret1 =? 0)%Z); [injection H2 as <- <- <-; lia|].
  destruct (internal_parser p1) as [inner|]; [|injection H2 as <- <- <-; lia].
  destruct (raptor_start_parse inner (base_uri p1)) as [r inner'].
  match type of H2 with
  | context [deliver ?p ?c] =>
      pose proof (deliver_queue c p) as Hd; destruct (deliver p c) as [p2 calls2]
  end.
  injection H2 as <- <- <-. simpl in Hd. lia.
Qed.

Lemma www_deliver_xml (uri : raptor_uri) (blocks : list string) :
  forall xc, exists xc',
    www_deliver (raptor_grddl_uri_xml_parse_bytes uri) blocks xc
    = Ret (xc', false).
Proof.
  induction blocks as [|block rest IH]; intros xc; simpl; [eauto|].
  destruct xc as [c|]; simpl; apply IH.
Qed.

Lemma transform_uri_queue (rdf_parser : raptor_parser) (xslt_uri : raptor_uri)
      (doc : xmlDoc) (ret : Z) (rdf_parser' : raptor_parser)
      (calls : list handler_call) :
  raptor_grddl_run_grddl_transform_uri rdf_parser xslt_uri doc
  = Ret (ret, rdf_parser', calls) ->
  List.length (doc_transform_uris rdf_parser)
  <= List.length (doc_transform_uris rdf_parser').
Proof.
  unfold raptor_grddl_run_grddl_transform_uri. intros H.
  apply bind_ret_inv in H. destruct H as [[ret1 xc] [_ H2]].
  destruct (negb (ret1 =? 0)%Z); [injection H2 as <- <- <-; lia|].
  destruct xc as [xc|]; [|discriminate].
  now apply transform_doc_queue in H2.
Qed.

(** When the loop ends, with the counter once at [i], the queue holds [i]
    URIs or as many as it held then, whichever is less, or more. *)
Lemma drain_loop_leaves (doc : xmlDoc) (budget : nat) :
  forall i ret rdf_parser calls ret' rdf_parser' calls',
    drain_loop budget doc i ret rdf_parser calls
    = Ret (ret', rdf_parser', calls') ->
    Nat.min i (List.length (doc_transform_uris rdf_parser))
    <= List.length (doc_transform_uris rdf_parser').
Proof.
  induction budget as [|budget IH];
    intros i ret p calls ret' p' calls'; [discriminate|].
  cbn [drain_loop]. unfold raptor_sequence_size, raptor_sequence_unshift.
  destruct (Nat.ltb_spec i (List.length (doc_transform_uris p))) as [Hlt|Hge].
  - destruct (doc_transform_uris p) as [|uri rest] eqn:Hq; [discriminate|].
    intros H. apply bind_ret_inv in H.
    destruct H as [[[ret1 p1] calls1] [H1 H2]].
    apply transform_uri_queue in H1. simpl in H1, Hlt.
    destruct (negb (ret1 =? 0)%Z).
    + injection H2 as <- <- <-. simpl. lia.
    + apply IH in H2. simpl. lia.
  - intros [= <- <- <-]. lia.
Qed.

(** C1, as the code has it.  When two or more transformation URIs are
    queued as the loop [Apply all transformation URIs seen] starts, the
    loop does not drain the queue: whenever it ends, after a failure or
    not, a URI is left in [doc_transform_uris] that was never taken from
    the front and applied. *)
Theorem drain_loop_leaves_queue_not_empty (doc : xmlDoc) (budget : nat)
        (ret : Z) (rdf_parser : raptor_parser) (calls : list handler_call)
        (ret' : Z) (rdf_parser' : raptor_parser) (calls' : list handler_call) :
  2 <= List.length (doc_transform_uris rdf_parser) ->
  drain_loop budget doc 0 ret rdf_parser calls
  = Ret (ret', rdf_parser', calls') ->
  doc_transform_uris rdf_parser' <> [].
Proof.
  intros Hlen H. destruct budget as [|budget]; [discriminate|].
  cbn [drain_loop] in H.
  unfold raptor_sequence_size, raptor_sequence_unshift in H.
  destruct (doc_transform_uris rdf_parser) as [|uri rest] eqn:Hq;
    [simpl in Hlen; lia|].
  cbn [List.length Nat.ltb Nat.leb] in H.
  apply bind_ret_inv in H. destruct H as [[[ret1 p1] calls1] [H1 H2]].
  apply transform_uri_queue in H1. simpl in H1, Hlen.
  assert (Hleft : 1 <= List.length (doc_transform_uris rdf_parser')).
  { destruct (negb (ret1 =? 0)%Z).
    - injection H2 as <- <- <-. lia.
    - apply drain_loop_leaves in H2. lia. }
  intros Hempty. rewrite Hempty in Hleft. simpl in Hleft. lia.
Qed.

(** *** The visited URIs *)

Lemma seen_uri_In (visited_uris : list raptor_uri) (uri : raptor_uri) :
  raptor_grddl_seen_uri visited_uris uri = true <-> In uri visited_uris.
Proof.
  induction visited_uris as [|vuri rest IH]; simpl.
  - split; [discriminate|contradiction].
  - unfold raptor_uri_equals. destruct (String.eqb_spec uri vuri) as [->|Hne].
    + split; auto.
    + rewrite IH. split; [auto|]. intros [Heq|Hin]; [congruence|exact Hin].
Qed.

Lemma seen_uri_not_In (visited_uris : list raptor_uri) (uri : raptor_uri) :
  raptor_grddl_seen_uri visited_uris uri = false <-> ~ In uri visited_uris.
Proof.
  rewrite <- seen_uri_In. destruct (raptor_grddl_seen_uri visited_uris uri);
    split; congruence.
Qed.

Lemma done_uri_In (visited_uris : list raptor_uri) (uri x : raptor_uri) :
  In x (raptor_grddl_done_uri visited_uris uri) <-> In x visited_uris \/ x = uri.
Proof.
  unfold raptor_grddl_done_uri.
  destruct (raptor_grddl_seen_uri visited_uris uri) eqn:Hseen; simpl.
  - apply seen_uri_In in Hseen. split; [auto|]. intros [H| ->]; assumption.
  - rewrite in_app_iff. simpl. split.
    + intros [H|[<-|[]]]; auto.
    + intros [H| ->]; auto.
Qed.

Lemma done_uri_incl (visited_uris : list raptor_uri) (uri : raptor_uri) :
  incl visited_uris (raptor_grddl_done_uri visited_uris uri).
Proof.
  intros x Hx. apply done_uri_In. now left.
Qed.

Lemma done_uri_NoDup (visited_uris : list raptor_uri) (uri : raptor_uri) :
  NoDup visited_uris -> NoDup (raptor_grddl_done_uri visited_uris uri).
Proof.
  intros Hnd. unfold raptor_grddl_done_uri.
  destruct (raptor_grddl_seen_uri visited_uris uri) eqn:Hseen; simpl; [exact Hnd|].
  apply seen_uri_not_In in Hseen.
  apply NoDup_app; [exact Hnd|repeat constructor; auto|].
  intros x Hx [<-|[]]. contradiction.
Qed.

(** The URIs that can be retrieved, each once. *)
Definition fetchable : list raptor_uri := nodup string_dec (map fst www).

(** How many of them are not in [visited_uris]. *)
Definition unvisited (visited_uris : list raptor_uri) : nat :=
  List.length (filter (fun uri => negb (raptor_grddl_seen_uri visited_uris uri))
                      fetchable).

Lemma filter_length_mono {A : Type} (f g : A -> bool) (l : list A) :
  (forall x, In x l -> f x = true -> g x = true) ->
  List.length (filter f l) <= List.length (filter g l).
Proof.
  induction l as [|a l IH]; intros Hfg; simpl; [lia|].
  assert (IH' := IH (fun x Hx => Hfg x (or_intror Hx))).
  destruct (f a) eqn:Hfa.
  - rewrite (Hfg a (or_introl eq_refl) Hfa). simpl. lia.
  - destruct (g a); simpl; lia.
Qed.

Lemma filter_length_lt {A : Type} (f g : A -> bool) (l : list A) (u : A) :
  (forall x, In x l -> f x = true -> g x = true) ->
  In u l -> f u = false -> g u = true ->
  List.length (filter f l) < List.length (filter g l).
Proof.
  induction l as [|a l IH]; intros Hfg Hin Hfu Hgu; [contradiction|]. simpl.
  assert (Hle := filter_length_mono f g l (fun x Hx => Hfg x (or_intror Hx))).
  destruct Hin as [->|Hin].
  - rewrite Hfu, Hgu. simpl. lia.
  - assert (IH' := IH (fun x Hx => Hfg x (or_intror Hx)) Hin Hfu Hgu).
    destruct (f a) eqn:Hfa.
    + rewrite (Hfg a (or_introl eq_refl) Hfa). simpl. lia.
    + destruct (g a); simpl; lia.
Qed.

Lemma unvisited_incl (visited_uris visited_uris' : list raptor_uri) :
  incl visited_uris visited_uris' ->
  unvisited visited_uris' <= unvisited visited_uris.
Proof.
  intros Hincl. apply filter_length_mono. intros x _ Hx.
  apply negb_true_iff in Hx. apply negb_true_iff.
  apply seen_uri_not_In in Hx. apply seen_uri_not_In. auto.
Qed.

Lemma unvisited_done_uri (visited_uris : list raptor_uri) (uri : raptor_uri) :
  In uri fetchable ->
  raptor_grddl_seen_uri visited_uris uri = false ->
  unvisited (raptor_grddl_done_uri visited_uris uri) < unvisited visited_uris.
Proof.
  intros Hin Hseen. apply (filter_length_lt _ _ _ uri).
  - intros x _ Hx. apply negb_true_iff in Hx. apply negb_true_iff.
    apply seen_uri_not_In in Hx. apply seen_uri_not_In.
    intros Hv. apply Hx. now apply done_uri_incl.
  - exact Hin.
  - apply negb_false_iff. apply seen_uri_In. apply done_uri_In. now right.
  - now rewrite Hseen.
Qed.

Lemma www_lookup_fetchable (uri : raptor_uri) (entry : list string * Z) :
  www_lookup uri = Some entry -> In uri fetchable.
Proof.
  unfold www_lookup, fetchable.
  destruct (find _ www) as [[uri' e]|] eqn:Hfind; [|discriminate].
  intros _. apply find_some in Hfind. destruct Hfind as [Hin Heq].
  simpl in Heq. apply String.eqb_eq in Heq. subst uri'.
  apply nodup_In. apply in_map_iff. now exists (uri, e).
Qed.

Lemma unvisited_le_www (visited_uris : list raptor_uri) :
  unvisited visited_uris <= List.length www.
Proof.
  unfold unvisited, fetchable.
  etransitivity; [apply List.filter_length_le|].
  etransitivity; [apply NoDup_incl_length|].
  - apply NoDup_nodup.
  - intros x Hx. apply nodup_In in Hx. exact Hx.
  - now rewrite length_map.
Qed.

(** *** Calls that keep within the recursion budget

    [within B Q o]: the call whose result is [o] does not run out of
    engines when [B] holds, and [Q] holds of what it returns. *)
Definition within {A : Type} (B : Prop) (Q : A -> Prop) (o : outcome A) : Prop :=
  (B -> o <> RecursionLimit) /\ (forall a, o = Ret a -> Q a).

Lemma within_ret {A : Type} (B : Prop) (Q : A -> Prop) (a : A) :
  Q a -> within B Q (Ret a).
Proof.
  intros Ha. split; [discriminate|]. now intros a' [= <-].
Qed.

Lemma within_undefined {A : Type} (B : Prop) (Q : A -> Prop) :
  within B Q Undefined.
Proof.
  split; discriminate.
Qed.

Lemma within_bind {A C : Type} (B : Prop) (Q : C -> Prop)
      (m : outcome A) (k : A -> outcome C) :
  within B (fun a => within B Q (k a)) m -> within B Q (bind m k).
Proof.
  intros [Hm Hk]. split.
  - intros HB. destruct m as [a| | | |]; simpl; try discriminate.
    + now apply (Hk a eq_refl).
    + exfalso. now apply (Hm HB).
  - intros c Hc. apply bind_ret_inv in Hc. destruct Hc as [a [-> Hc]].
    now apply (Hk a eq_refl).
Qed.

Lemma within_weaken {A : Type} (B B' : Prop) (Q Q' : A -> Prop) (o : outcome A) :
  within B Q o -> (B' -> B) -> (forall a, Q a -> Q' a) -> within B' Q' o.
Proof.
  intros [Hlimit Hq] HB HQ. split; auto.
Qed.

Lemma ensure_internal_parser_within (B : Prop) (rdf_parser : raptor_parser)
      (parser_name : string) (relay : bool) :
  within B (fun _ => True)
         (raptor_grddl_ensure_internal_parser rdf_parser parser_name relay).
Proof.
  split; [intros _|auto].
  unfold raptor_grddl_ensure_internal_parser.
  destruct (match internal_parser_name rdf_parser with
            | Some n => negb (String.eqb n parser_name)
            | None => true
            end).
  - destruct (raptor_new_parser parser_name); simpl; discriminate.
  - simpl. destruct (internal_parser rdf_parser); discriminate.
Qed.

Lemma www_deliver_within {S : Type} (B : Prop) (Inv : S -> Prop)
      (handler : S -> string -> outcome (S * bool)) :
  (forall s block, Inv s -> within B (fun r => Inv (fst r)) (handler s block)) ->
  forall blocks s,
    Inv s -> within B (fun r => Inv (fst r)) (www_deliver handler blocks s).
Proof.
  intros Hhandler blocks.
  induction blocks as [|block rest IH]; intros s Hs; simpl.
  - now apply within_ret.
  - apply within_bind.
    apply (within_weaken B B _ _ _ (Hhandler s block Hs)); [auto|].
    intros [s' aborted] Hs'. simpl in Hs'.
    destruct aborted; [now apply within_ret|now apply IH].
Qed.

(** A retrieval that returns 0 is one of a URI of the table. *)
Lemma fetch_uri_within {S : Type} (B : Prop) (Inv : S -> Prop)
      (rdf_parser : raptor_parser) (uri : raptor_uri)
      (handler : S -> string -> outcome (S * bool)) (s : S) :
  (In uri fetchable ->
   forall s block, Inv s -> within B (fun r => Inv (fst r)) (handler s block)) ->
  Inv s ->
  within B (fun r => Inv (snd r)
                     /\ ((fst r =? 0)%Z = true -> In uri fetchable))
         (raptor_grddl_fetch_uri rdf_parser uri handler s).
Proof.
  intros Hhandler Hs. unfold raptor_grddl_fetch_uri.
  destruct (no_net rdf_parser);
    [apply within_ret; split; [exact Hs|discriminate]|].
  destruct (www_lookup uri) as [[blocks status]|] eqn:Hlookup;
    [|apply within_ret; split; [exact Hs|discriminate]].
  apply www_lookup_fetchable in Hlookup.
  apply within_bind.
  apply (within_weaken B B _ _ _
           (www_deliver_within B Inv handler (Hhandler Hlookup) blocks s Hs));
    [auto|].
  intros [s' aborted] Hs'. apply within_ret. simpl. auto.
Qed.

Lemma transform_uri_within (B : Prop) (rdf_parser : raptor_parser)
      (xslt_uri : raptor_uri) (doc : xmlDoc) :
  within B (fun _ => True)
         (raptor_grddl_run_grddl_transform_uri rdf_parser xslt_uri doc).
Proof.
  split; [|auto]. intros _.
  unfold raptor_grddl_run_grddl_transform_uri, raptor_grddl_fetch_uri.
  destruct (no_net rdf_parser); [discriminate|].
  destruct (www_lookup xslt_uri) as [[blocks status]|]; [|discriminate].
  destruct (www_deliver_xml xslt_uri blocks None) as [xc ->]. simpl.
  destruct (negb (status =? 0)%Z); [discriminate|].
  destruct xc as [xc|]; [|discriminate].
  unfold raptor_grddl_run_grddl_transform_doc.
  destruct (xslt _ doc) as [| |is_html method mediaType doc_txt];
    try discriminate.
  destruct doc_txt as [doc_txt|]; [|discriminate].
  destruct (Nat.eqb (String.length doc_txt) 0); [discriminate|].
  destruct (guess_parser_name _ doc_txt _) as [parser_name|]; [|discriminate].
  destruct (String.eqb parser_name "grddl"); [discriminate|].
  apply bind_not_limit.
  - now apply (ensure_internal_parser_within True).
  - intros [ret p] _. destruct (negb (ret =? 0)%Z); [discriminate|].
    destruct (internal_parser p) as [inner|]; [|discriminate].
    destruct (raptor_start_parse inner (base_uri p)) as [r inner'].
    match goal with
    | |- context [deliver ?q ?c] => destruct (deliver q c)
    end.
    discriminate.
Qed.

Lemma drain_loop_within (B : Prop) (doc : xmlDoc) (budget : nat) :
  forall i ret rdf_parser calls,
    within B (fun _ => True) (drain_loop budget doc i ret rdf_parser calls).
Proof.
  induction budget as [|budget IH]; intros i ret p calls;
    [split; [discriminate|auto]|].
  cbn [drain_loop]. unfold raptor_sequence_size, raptor_sequence_unshift.
  destruct (Nat.ltb i (List.length (doc_transform_uris p)));
    [|now apply within_ret].
  destruct (doc_transform_uris p) as [|uri rest]; [apply within_undefined|].
  apply within_bind.
  apply (within_weaken B B _ _ _ (transform_uri_within B _ uri doc)); [auto|].
  intros [[ret1 p1] calls1] _.
  destruct (negb (ret1 =? 0)%Z); [now apply within_ret|apply IH].
Qed.

(** *** The recursion keeps within [unvisited] engines *)

(** The shared [visited_uris] only grows over a call. *)
Definition grows (visited_uris : list raptor_uri) (r : chunk_result) : Prop :=
  let '(_, _, visited_uris', _) := r in incl visited_uris visited_uris'.

(** A chunk that is not the last leaves [visited_uris] and the base URI
    as they are. *)
Definition feeds (visited_uris : list raptor_uri) (rdf_parser : raptor_parser)
           (r : chunk_result) : Prop :=
  let '(_, rdf_parser', visited_uris', _) := r in
  visited_uris' = visited_uris /\ base_uri rdf_parser' = base_uri rdf_parser.

(** The engine has an XML parser context or can make one for the chunk. *)
Definition xml_context_available (rdf_parser : raptor_parser)
           (s : option string) : Prop :=
  ctxt rdf_parser <> None
  \/ xmlCreatePushParserCtxt s
       (match s with Some bytes => String.length bytes | None => 0 end)
       (base_uri rdf_parser) <> None.

(** The last chunk puts the base URI among the visited URIs. *)
Definition visits_base (visited_uris : list raptor_uri)
           (rdf_parser : raptor_parser) (s : option string) (base : raptor_uri)
           (r : chunk_result) : Prop :=
  let '(_, _, visited_uris', _) := r in
  incl visited_uris visited_uris'
  /\ (xml_context_available rdf_parser s -> In base visited_uris').

Lemma unvisited_positive (visited_uris : list raptor_uri) (uri : raptor_uri) :
  In uri fetchable ->
  raptor_grddl_seen_uri visited_uris uri = false ->
  1 <= unvisited visited_uris.
Proof.
  intros Hin Hseen. pose proof (unvisited_done_uri _ _ Hin Hseen). lia.
Qed.

Lemma grddl_parse_chunk_feeds
      (parse_chunk_below : list raptor_uri -> raptor_parser -> option string ->
                           bool -> outcome chunk_result)
      (loop_budget : nat) (visited_uris : list raptor_uri)
      (rdf_parser : raptor_parser) (s : option string) :
  exists r,
    grddl_parse_chunk parse_chunk_below loop_budget visited_uris rdf_parser s false
    = Ret r
    /\ feeds visited_uris rdf_parser r.
Proof.
  unfold grddl_parse_chunk.
  destruct (ctxt rdf_parser) as [c|].
  - destruct (negb (Nat.eqb _ 0) || false); simpl; eexists; split;
      try reflexivity; simpl; auto.
  - destruct (xmlCreatePushParserCtxt s _ (base_uri rdf_parser)); simpl;
      eexists; split; try reflexivity; simpl; auto.
Qed.

Section ChunkFacts.

Variable parse_chunk_below :
  list raptor_uri -> raptor_parser -> option string -> bool ->
  outcome chunk_result.

(** The engines below keep within a budget of [m] unvisited URIs. *)
Variable m : nat.

Hypothesis below_feeds :
  forall visited_uris rdf_parser s,
    within (1 <= m) (feeds visited_uris rdf_parser)
           (parse_chunk_below visited_uris rdf_parser s false).

Hypothesis below_ends :
  forall visited_uris rdf_parser s base,
    base_uri rdf_parser = Some base ->
    within (unvisited (raptor_grddl_done_uri visited_uris base) < m)
           (grows visited_uris)
           (parse_chunk_below visited_uris rdf_parser s true).

Lemma write_bytes_within (visited_uris : list raptor_uri) (uri : raptor_uri) :
  In uri fetchable ->
  raptor_grddl_seen_uri visited_uris uri = false ->
  forall state block,
    snd (fst state) = visited_uris /\ base_uri (fst (fst state)) = Some uri ->
    within (unvisited visited_uris <= m)
           (fun r => snd (fst (fst r)) = visited_uris
                     /\ base_uri (fst (fst (fst r))) = Some uri)
           (raptor_grddl_parse_uri_write_bytes parse_chunk_below state block).
Proof.
  intros Hin Hseen [[p v] calls] block [Hv Hbase]. simpl in Hv, Hbase. subst v.
  unfold raptor_grddl_parse_uri_write_bytes.
  apply within_bind.
  apply (within_weaken _ _ _ _ _ (below_feeds visited_uris p (Some block))).
  - intros Hm. pose proof (unvisited_positive _ _ Hin Hseen). lia.
  - intros [[[ret p'] v'] calls'] [Hv' Hbase']. apply within_ret. simpl.
    split; congruence.
Qed.

Lemma run_recursive_within (visited_uris : list raptor_uri)
      (rdf_parser : raptor_parser) (uri : raptor_uri) :
  within (unvisited visited_uris <= m) (grows visited_uris)
         (raptor_grddl_run_recursive parse_chunk_below visited_uris rdf_parser uri).
Proof.
  unfold raptor_grddl_run_recursive.
  destruct (raptor_grddl_seen_uri visited_uris uri) eqn:Hseen;
    [apply within_ret; apply incl_refl|].
  apply within_bind.
  apply (within_weaken _ _ _ _ _
           (ensure_internal_parser_within (unvisited visited_uris <= m)
              rdf_parser "grddl" true)); [auto|].
  intros [ret1 p1] _.
  destruct (negb (ret1 =? 0)%Z); [apply within_ret; apply incl_refl|].
  destruct (internal_parser p1) as [inner|]; [|apply within_undefined].
  unfold raptor_grddl_parser_add_parent.
  destruct (Nat.eqb (grddl_depth inner) 0); [|apply within_undefined].
  cbn [bind]. unfold raptor_start_parse. cbv beta iota.
  match goal with
  | |- context [negb (?r =? 0)%Z] => destruct (negb (r =? 0)%Z)
  end; [apply within_ret; apply incl_refl|].
  apply within_bind.
  eapply within_weaken.
  - apply (fetch_uri_within (unvisited visited_uris <= m)
             (fun st : raptor_parser * list raptor_uri * list handler_call =>
                snd (fst st) = visited_uris
                /\ base_uri (fst (fst st)) = Some uri)).
    + intros Hin s block Hs.
      apply (write_bytes_within visited_uris uri Hin Hseen s block Hs).
    + split; reflexivity.
  - auto.
  - intros [ret2 [[inner2 v2] calls2]] [[Hv Hbase] Hfetch].
    simpl in Hv, Hbase, Hfetch. subst v2.
    destruct (ret2 =? 0)%Z eqn:Hret2; cbn [negb].
    + apply within_bind.
      apply (within_weaken _ _ _ _ _ (below_ends visited_uris inner2 None uri Hbase)).
      * intros Hm.
        pose proof (unvisited_done_uri _ _ (Hfetch eq_refl) Hseen). lia.
      * intros [[[ret3 inner3] v3] calls3] Hgrows.
        destruct (deliver _ (calls2 ++ calls3)) as [p' calls'].
        apply within_ret. exact Hgrows.
    + destruct (deliver _ calls2) as [p' calls'].
      apply within_ret. apply incl_refl.
Qed.

Lemma profile_loop_within (result : list raptor_uri) :
  forall ret visited_uris rdf_parser calls,
    within (unvisited visited_uris <= m) (grows visited_uris)
           (profile_loop parse_chunk_below result ret visited_uris rdf_parser calls).
Proof.
  induction result as [|uri rest IH]; intros ret v p calls; simpl.
  - apply within_ret. apply incl_refl.
  - apply within_bind.
    apply (within_weaken _ _ _ _ _ (run_recursive_within v p uri)); [auto|].
    intros [[[ret1 p1] v1] calls1] Hgrows. simpl in Hgrows.
    apply (within_weaken _ _ _ _ _ (IH ret1 v1 p1 (calls ++ calls1))).
    + intros Hm. pose proof (unvisited_incl _ _ Hgrows). lia.
    + intros [[[ret2 p2] v2] calls2] Hgrows2. simpl in *.
      eapply incl_tran; eassumption.
Qed.

Lemma grddl_discover_within (loop_budget : nat)
      (visited_uris : list raptor_uri) (rdf_parser : raptor_parser)
      (c : xmlParserCtxt) (base : raptor_uri) :
  base_uri rdf_parser = Some base ->
  within (unvisited (raptor_grddl_done_uri visited_uris base) <= m)
         (grows (raptor_grddl_done_uri visited_uris base))
         (grddl_discover parse_chunk_below loop_budget visited_uris rdf_parser c).
Proof.
  intros Hbase. unfold grddl_discover. rewrite Hbase.
  set (v1 := raptor_grddl_done_uri visited_uris base). cbv zeta.
  destruct (myDoc c) as [doc|]; [|apply within_ret; apply incl_refl].
  apply within_bind.
  eapply within_weaken with (Q := grows v1) (B := unvisited v1 <= m).
  - destruct (root_ns_href doc) as [ns_uri_string|];
      [|apply within_ret; apply incl_refl].
    destruct (existsb (String.eqb ns_uri_string) grddl_namespace_uris_ignore_list);
      [apply within_ret; apply incl_refl|].
    apply run_recursive_within.
  - auto.
  - intros [[[ret2 p2] v2] calls2] Hg2. simpl in Hg2.
    apply within_bind.
    eapply within_weaken with (Q := grows v2) (B := unvisited v2 <= m).
    + destruct (raptor_grddl_run_xpath_match _ doc _ _) as [result|];
        [|apply within_ret; apply incl_refl].
      apply within_bind.
      apply (within_weaken _ _ _ _ _ (profile_loop_within result 0%Z v2 _ calls2));
        [auto|].
      intros [[[ret3 p3] v3] calls3] Hg3. apply within_ret. exact Hg3.
    + intros Hm. pose proof (unvisited_incl _ _ Hg2). lia.
    + intros [[[ret3 p3] v3] calls3] Hg3. simpl in Hg3.
      assert (Hg : incl v1 v3) by (eapply incl_tran; eassumption).
      destruct (failed (match_table_loop doc match_table p3));
        [apply within_ret; exact Hg|].
      apply within_bind.
      apply (within_weaken _ _ _ _ _
               (drain_loop_within (unvisited v1 <= m) doc loop_budget 0 ret3
                  (match_table_loop doc match_table p3) calls3)); [auto|].
      intros [[ret4 p4] calls4] _. apply within_ret. exact Hg.
Qed.

Lemma grddl_parse_chunk_within (loop_budget : nat)
      (visited_uris : list raptor_uri) (rdf_parser : raptor_parser)
      (s : option string) (base : raptor_uri) :
  base_uri rdf_parser = Some base ->
  within (unvisited (raptor_grddl_done_uri visited_uris base) <= m)
         (visits_base visited_uris rdf_parser s base)
         (grddl_parse_chunk parse_chunk_below loop_budget visited_uris
                            rdf_parser s true).
Proof.
  intros Hbase.
  assert (Hdiscover :
    forall c,
      within (unvisited (raptor_grddl_done_uri visited_uris base) <= m)
             (visits_base visited_uris rdf_parser s base)
             (grddl_discover parse_chunk_below loop_budget visited_uris
                             (set_ctxt rdf_parser (Some c)) c)).
  { intros c.
    apply (within_weaken _ _ _ _ _
             (grddl_discover_within loop_budget visited_uris
                (set_ctxt rdf_parser (Some c)) c base Hbase)); [auto|].
    intros [[[ret p'] v'] calls'] Hgrows. simpl in Hgrows. split.
    - eapply incl_tran; [apply done_uri_incl|eassumption].
    - intros _. apply Hgrows. apply done_uri_In. now right. }
  unfold grddl_parse_chunk. cbv zeta.
  destruct (ctxt rdf_parser) as [c|] eqn:Hctxt.
  - rewrite orb_true_r. cbn [negb]. apply Hdiscover.
  - destruct (xmlCreatePushParserCtxt s _ (base_uri rdf_parser)) as [c|] eqn:Hcreate.
    + cbn [negb]. apply Hdiscover.
    + apply within_ret. split; [apply incl_refl|].
      intros [Hav|Hav]; exfalso; now apply Hav.
Qed.

End ChunkFacts.

Lemma parse_chunk_within (loop_budget depth_budget : nat) :
  (forall visited_uris rdf_parser s,
      within (1 <= depth_budget) (feeds visited_uris rdf_parser)
             (raptor_grddl_parse_chunk depth_budget loop_budget visited_uris
                                       rdf_parser s false))
  /\ (forall visited_uris rdf_parser s base,
         base_uri rdf_parser = Some base ->
         within (unvisited (raptor_grddl_done_uri visited_uris base) < depth_budget)
                (visits_base visited_uris rdf_parser s base)
                (raptor_grddl_parse_chunk depth_budget loop_budget visited_uris
                                          rdf_parser s true)).
Proof.
  induction depth_budget as [|n [IHfeeds IHends]].
  - split; intros; (split; [intros; lia|discriminate]).
  - split.
    + intros v p s. cbn [raptor_grddl_parse_chunk].
      destruct (grddl_parse_chunk_feeds (raptor_grddl_parse_chunk n loop_budget)
                  loop_budget v p s) as [r [-> Hr]].
      now apply within_ret.
    + intros v p s base Hbase. cbn [raptor_grddl_parse_chunk].
      apply (within_weaken
               (unvisited (raptor_grddl_done_uri v base) <= n) _
               (visits_base v p s base) _ _); [|lia|auto].
      apply (grddl_parse_chunk_within (raptor_grddl_parse_chunk n loop_budget) n);
        [exact IHfeeds| |exact Hbase].
      intros v0 p0 s0 base0 Hbase0.
      apply (within_weaken _ _ _ _ _ (IHends v0 p0 s0 base0 Hbase0)); [auto|].
      intros [[[ret p'] v'] calls'] [Hgrows _]. exact Hgrows.
Qed.

Lemma done_uri_idempotent (visited_uris : list raptor_uri) (uri : raptor_uri) :
  raptor_grddl_done_uri (raptor_grddl_done_uri visited_uris uri) uri
  = raptor_grddl_done_uri visited_uris uri.
Proof.
  unfold raptor_grddl_done_uri at 1.
  assert (Hseen : raptor_grddl_seen_uri (raptor_grddl_done_uri visited_uris uri) uri
                  = true).
  { apply seen_uri_In. apply done_uri_In. now right. }
  now rewrite Hseen.
Qed.

Lemma parse_chunk_no_base (loop_budget n : nat) (visited_uris : list raptor_uri)
      (rdf_parser : raptor_parser) (s : option string) (is_end : bool) :
  base_uri rdf_parser = None ->
  raptor_grddl_parse_chunk (S n) loop_budget visited_uris rdf_parser s is_end
  <> RecursionLimit.
Proof.
  intros Hbase. cbn [raptor_grddl_parse_chunk]. unfold grddl_parse_chunk.
  cbv zeta.
  assert (Hd : forall c,
    (if negb is_end
     then Ret (0%Z, set_ctxt rdf_parser (Some c), visited_uris, [])
     else grddl_discover (raptor_grddl_parse_chunk n loop_budget) loop_budget
            visited_uris (set_ctxt rdf_parser (Some c)) c) <> RecursionLimit).
  { intros c. destruct (negb is_end); [discriminate|].
    unfold grddl_discover.
    change (base_uri (set_ctxt rdf_parser (Some c))) with (base_uri rdf_parser).
    rewrite Hbase. discriminate. }
  destruct (ctxt rdf_parser) as [c|].
  - destruct (negb (Nat.eqb _ 0) || is_end); apply Hd.
  - destruct (xmlCreatePushParserCtxt s _ (base_uri rdf_parser)) as [c|];
      [apply Hd|discriminate].
Qed.

(** An engine that has gone into a document keeps the GRDDL parser it
    made for that, with the depth [raptor_grddl_parser_add_parent] gave it.
    When the engine goes into another document that parser is used again,
    and [raptor_grddl_parser_add_parent] frees the sequence it points to:
    the one the engines share. *)
Lemma run_recursive_second_time
      (parse_chunk_below : list raptor_uri -> raptor_parser -> option string ->
                           bool -> outcome chunk_result)
      (visited_uris : list raptor_uri) (rdf_parser inner : raptor_parser)
      (uri : raptor_uri) :
  raptor_grddl_seen_uri visited_uris uri = false ->
  internal_parser_name rdf_parser = Some "grddl" ->
  internal_parser rdf_parser = Some inner ->
  grddl_depth inner <> 0 ->
  raptor_grddl_run_recursive parse_chunk_below visited_uris rdf_parser uri
  = Undefined.
Proof.
  intros Hseen Hname Hinner Hdepth.
  unfold raptor_grddl_run_recursive, raptor_grddl_ensure_internal_parser.
  rewrite Hseen, Hname. cbn [String.eqb Ascii.eqb Bool.eqb negb bind Z.eqb].
  rewrite Hinner. cbn [bind Z.eqb negb].
  destruct rdf_parser, inner; cbn in *.
  destruct grddl_depth1 as [|d]; [contradiction|reflexivity].
Qed.

(** The recursion over namespace and profile documents is gated by the
    shared sequence of visited URIs:
    - [raptor_grddl_run_recursive] on a URI that is in [visited_uris]
      returns 0 and leaves the parser and the sequence as they are, and
      makes no call;
    - [raptor_grddl_done_uri] pushes a URI only when it is not in the
      sequence, so that the sequence never holds a URI twice;
    - the last chunk of an engine puts the base URI of the engine into the
      sequence (once it has its XML parser context) before it looks for
      namespace and profile URIs: the discovery runs as it would with the
      base URI visited already; and a call that returns has taken no URI
      out of the sequence;
    - with the resources that can be retrieved given by the table [www],
      the engines nest no deeper than the table has entries, plus the
      first one.
    This says nothing of whether a call returns: see
    [run_recursive_second_time], [engine_goes_into_one_document] and the
    examples of the small web. *)
Lemma visited_uris_gate_recursion :
  (forall parse_chunk_below visited_uris rdf_parser uri,
      raptor_grddl_seen_uri visited_uris uri = true ->
      raptor_grddl_run_recursive parse_chunk_below visited_uris rdf_parser uri
      = Ret (0%Z, rdf_parser, visited_uris, []))
  /\ (forall visited_uris uri,
         (raptor_grddl_seen_uri visited_uris uri = true ->
          raptor_grddl_done_uri visited_uris uri = visited_uris)
         /\ (raptor_grddl_seen_uri visited_uris uri = false ->
             raptor_grddl_done_uri visited_uris uri = visited_uris ++ [uri])
         /\ (NoDup visited_uris ->
             NoDup (raptor_grddl_done_uri visited_uris uri)))
  /\ (forall parse_chunk_below loop_budget visited_uris rdf_parser c base,
         base_uri rdf_parser = Some base ->
         grddl_discover parse_chunk_below loop_budget visited_uris rdf_parser c
         = grddl_discover parse_chunk_below loop_budget
             (raptor_grddl_done_uri visited_uris base) rdf_parser c)
  /\ (forall depth_budget loop_budget visited_uris rdf_parser s base
             ret rdf_parser' visited_uris' calls,
         base_uri rdf_parser = Some base ->
         raptor_grddl_parse_chunk depth_budget loop_budget visited_uris
                                  rdf_parser s true
         = Ret (ret, rdf_parser', visited_uris', calls) ->
         incl visited_uris visited_uris'
         /\ (xml_context_available rdf_parser s -> In base visited_uris'))
  /\ (forall depth_budget loop_budget visited_uris rdf_parser s is_end,
         List.length www < depth_budget ->
         raptor_grddl_parse_chunk depth_budget loop_budget visited_uris
                                  rdf_parser s is_end
         <> RecursionLimit).
Proof.
  split; [|split; [|split; [|split]]].
  - intros below v p uri Hseen. unfold raptor_grddl_run_recursive.
    now rewrite Hseen.
  - intros v uri. unfold raptor_grddl_done_uri. repeat split.
    + now intros ->.
    + now intros ->.
    + apply done_uri_NoDup.
  - intros below loop v p c base Hbase. unfold grddl_discover.
    rewrite Hbase. now rewrite done_uri_idempotent.
  - intros depth loop v p s base ret p' v' calls Hbase Hret.
    destruct (parse_chunk_within loop depth) as [_ Hends].
    destruct (Hends v p s base Hbase) as [_ Hq].
    exact (Hq _ Hret).
  - intros depth loop v p s is_end Hdepth.
    destruct (parse_chunk_within loop depth) as [Hfeeds Hends].
    destruct is_end.
    + destruct (base_uri p) as [base|] eqn:Hbase.
      * apply (Hends v p s base Hbase).
        pose proof (unvisited_le_www (raptor_grddl_done_uri v base)). lia.
      * destruct depth as [|n]; [lia|]. now apply parse_chunk_no_base.
    + apply (Hfeeds v p s). lia.
Qed.

(** *** The visited URIs as a set *)

(** X23. [visited_uris] is kept as a set.  After [raptor_grddl_done_uri]
    the URI is seen, and what [raptor_grddl_seen_uri] says of any other
    URI is as before; the sequence grows at its end by that URI at most,
    is not changed when the URI was seen already, and holds no URI twice
    if it held none twice before. *)
Theorem visited_uris_kept_as_set :
  forall (visited_uris : list raptor_uri) (uri : raptor_uri),
    raptor_grddl_seen_uri (raptor_grddl_done_uri visited_uris uri) uri = true
    /\ (forall other,
           other <> uri ->
           raptor_grddl_seen_uri (raptor_grddl_done_uri visited_uris uri) other
           = raptor_grddl_seen_uri visited_uris other)
    /\ (raptor_grddl_seen_uri visited_uris uri = true ->
        raptor_grddl_done_uri visited_uris uri = visited_uris)
    /\ (raptor_grddl_seen_uri visited_uris uri = false ->
        raptor_grddl_done_uri visited_uris uri = visited_uris ++ [uri])
    /\ (NoDup visited_uris -> NoDup (raptor_grddl_done_uri visited_uris uri))
    /\ raptor_grddl_done_uri (raptor_grddl_done_uri visited_uris uri) uri
       = raptor_grddl_done_uri visited_uris uri.
Proof.
  intros visited_uris uri.
  split; [apply seen_uri_In, done_uri_In; now right|].
  split; [|split; [|split; [|split]]].
  - intros other Hother.
    destruct (raptor_grddl_seen_uri visited_uris other) eqn:Hseen.
    + apply seen_uri_In. apply done_uri_In. left. now apply seen_uri_In.
    + apply seen_uri_not_In. rewrite done_uri_In.
      apply seen_uri_not_In in Hseen. tauto.
  - intros Hseen. unfold raptor_grddl_done_uri. now rewrite Hseen.
  - intros Hseen. unfold raptor_grddl_done_uri. now rewrite Hseen.
  - apply done_uri_NoDup.
  - apply done_uri_idempotent.
Qed.

(** *** Without the network *)

(** X24. With [RAPTOR_FEATURE_NO_NET] set no transformation is retrieved
    or applied: [raptor_grddl_run_grddl_transform_uri] returns 1, makes no
    call and leaves the parser as it is; and the loop over the
    transformations takes the first URI off the queue, fails with 1 and
    leaves the others in the queue. *)
Theorem no_net_applies_no_transformation
        (rdf_parser : raptor_parser) (doc : xmlDoc) :
  no_net rdf_parser = true ->
  (forall xslt_uri,
      raptor_grddl_run_grddl_transform_uri rdf_parser xslt_uri doc
      = Ret (1%Z, rdf_parser, []))
  /\ (forall budget ret calls uri rest,
         doc_transform_uris rdf_parser = uri :: rest ->
         drain_loop (S budget) doc 0 ret rdf_parser calls
         = Ret (1%Z, set_doc_transform_uris rdf_parser rest, calls)).
Proof.
  intros Hno.
  assert (Hrun : forall p xslt_uri,
             no_net p = true ->
             raptor_grddl_run_grddl_transform_uri p xslt_uri doc
             = Ret (1%Z, p, [])).
  { intros p xslt_uri Hp.
    unfold raptor_grddl_run_grddl_transform_uri, raptor_grddl_fetch_uri.
    rewrite Hp. reflexivity. }
  split; [intros xslt_uri; now apply Hrun|].
  intros budget ret calls uri rest Hq. cbn [drain_loop]. rewrite Hq.
  cbn [raptor_sequence_size raptor_sequence_unshift List.length Nat.ltb Nat.leb].
  rewrite Hrun by (destruct rdf_parser; exact Hno).
  cbn [bind]. now rewrite app_nil_r.
Qed.

(** *** Chunks before the last *)

(** X25. A chunk that is not the last is only given to the XML parser:
    [raptor_grddl_parse_chunk] with [is_end] 0 makes no call of a
    statement handler, leaves [visited_uris] as it is and changes nothing
    of the parser but the XML context.  It returns 0, or 1 when there is
    no context and none can be made. *)
Theorem chunk_before_the_end_only_feeds
        (depth_budget loop_budget : nat) (visited_uris : list raptor_uri)
        (rdf_parser : raptor_parser) (s : option string) :
  exists ret rdf_parser',
    raptor_grddl_parse_chunk (S depth_budget) loop_budget visited_uris
                             rdf_parser s false
    = Ret (ret, rdf_parser', visited_uris, [])
    /\ set_ctxt rdf_parser' (ctxt rdf_parser) = rdf_parser
    /\ (xml_context_available rdf_parser s ->
        ret = 0%Z /\ ctxt rdf_parser' <> None)
    /\ (~ xml_context_available rdf_parser s ->
        ret = 1%Z /\ rdf_parser' = rdf_parser).
Proof.
  cbn [raptor_grddl_parse_chunk]. unfold grddl_parse_chunk, xml_context_available.
  destruct rdf_parser as [fn bu fl nn ud sh [c|] ip ipn rn dt sud ssh pu gd];
    cbn [ctxt base_uri].
  - match goal with
    | |- context [if ?b then _ else _] => destruct b
    end; cbn; eexists _, _; (split; [reflexivity|]); cbn;
      (split; [reflexivity|]); (split; [intros _; split; [reflexivity|discriminate]|]);
      intros H; exfalso; apply H; left; discriminate.
  - destruct (xmlCreatePushParserCtxt s _ bu) as [c|] eqn:Hc; cbn;
      eexists _, _; (split; [reflexivity|]); cbn; (split; [reflexivity|]).
    + split; [intros _; split; [reflexivity|discriminate]|].
      intros H; exfalso; apply H; right; discriminate.
    + split; [|intros _; split; reflexivity].
      intros [H|H]; exfalso; apply H; reflexivity.
Qed.

(** *** The internal parser *)

(** A parser that records the name of its internal parser has one. *)
Definition internal_parser_named (rdf_parser : raptor_parser) : Prop :=
  internal_parser_name rdf_parser <> None -> internal_parser rdf_parser <> None.


(** *** What an XPath match gives *)

(** The nodes that the loop does not pass over. *)
Definition expected_node (node : xmlNode) : bool :=
  match node_type node with
  | XML_OTHER_NODE _ => false
  | _ => true
  end.

(** The URIs that one node adds to the sequence. *)
Definition node_uris (rdf_parser : raptor_parser) (flags : Z) (node : xmlNode)
  : list raptor_uri :=
  let uri_string :=
    match node_type node with
    | XML_ATTRIBUTE_NODE => children_content node
    | _ => ns_href node
    end in
  let base_uri :=
    match node_base node with
    | Some base_uri_string => Some base_uri_string
    | None => base_uri rdf_parser
    end in
  if (Z.land flags MATCH_IS_VALUE_LIST =? 0)%Z
  then [raptor_new_uri_relative_to_base base_uri uri_string]
  else filter (fun uri => negb (dropped_from_profile flags uri))
              (map (raptor_new_uri_relative_to_base base_uri)
                   (tokens (split_spaces uri_string))).

Lemma xpath_nodes_loop_uris (rdf_parser : raptor_parser) (flags_ : Z)
      (nodes : list xmlNode) :
  forall seq,
    xpath_nodes_loop rdf_parser flags_ nodes seq
    = seq ++ flat_map (node_uris rdf_parser flags_)
                      (filter expected_node nodes).
Proof.
  induction nodes as [|node rest IH]; intros seq.
  - cbn. now rewrite app_nil_r.
  - cbn [xpath_nodes_loop filter]. unfold expected_node at 1.
    destruct (node_type node) eqn:Htype; [| |apply IH];
      cbn [flat_map]; unfold node_uris at 1; rewrite Htype;
      destruct (Z.land flags_ MATCH_IS_VALUE_LIST =? 0)%Z; cbn [negb];
      rewrite IH; try rewrite value_list_loop_tokens;
      unfold raptor_sequence_push; now rewrite <- app_assoc.
Qed.

(** X27. The sequence of an XPath match.  [raptor_grddl_run_xpath_match]
    gives NULL when the expression cannot be evaluated or matches no node.
    Otherwise it gives, in the order of the nodes, the URIs of the element
    and attribute nodes matched, nodes of any other type being passed
    over: one URI for each node - the value of an attribute, the namespace
    of an element, resolved against the base of the node or else of the
    parser - or, for a value list, one for each piece of the value
    between spaces that is kept.  A match of nodes of other types only
    gives the empty sequence, not NULL. *)
Theorem xpath_match_uris_in_node_order
        (rdf_parser : raptor_parser) (doc : xmlDoc) (xpathExpr : string)
        (flags_ : Z) :
  raptor_grddl_run_xpath_match rdf_parser doc xpathExpr flags_
  = match xmlXPathEvalExpression doc xpathExpr with
    | None => None
    | Some [] => None
    | Some nodes =>
        Some (flat_map (node_uris rdf_parser flags_)
                       (filter expected_node nodes))
    end
  /\ (forall node,
         expected_node node = true ->
         (Z.land flags_ MATCH_IS_VALUE_LIST = 0)%Z ->
         List.length (node_uris rdf_parser flags_ node) = 1)
  /\ (forall nodes,
         nodes <> [] ->
         xmlXPathEvalExpression doc xpathExpr = Some nodes ->
         forallb (fun node => negb (expected_node node)) nodes = true ->
         raptor_grddl_run_xpath_match rdf_parser doc xpathExpr flags_
         = Some []).
Proof.
  assert (Hrun :
    raptor_grddl_run_xpath_match rdf_parser doc xpathExpr flags_
    = match xmlXPathEvalExpression doc xpathExpr with
      | None => None
      | Some [] => None
      | Some nodes =>
          Some (flat_map (node_uris rdf_parser flags_)
                         (filter expected_node nodes))
      end).
  { unfold raptor_grddl_run_xpath_match.
    destruct (xmlXPathEvalExpression doc xpathExpr) as [[|node rest]|];
      try reflexivity.
    now rewrite xpath_nodes_loop_uris. }
  split; [exact Hrun|]. split.
  - intros node _ Hflag. unfold node_uris. now rewrite Hflag.
  - intros nodes Hne Heval Hall. rewrite Hrun, Heval.
    destruct nodes as [|node rest]; [contradiction|].
    apply f_equal.
    assert (Hfilter : filter expected_node (node :: rest) = []).
    { clear Heval Hne Hrun. induction (node :: rest) as [|x l IH];
        [reflexivity|].
      cbn [forallb filter] in *. apply andb_true_iff in Hall.
      destruct Hall as [Hx Hl]. apply negb_true_iff in Hx. rewrite Hx.
      now apply IH. }
    now rewrite Hfilter.
Qed.

(** *** Where the statements go

    The engines are told apart by their depth.  An engine is well routed
    when the handler it saved, if it has an internal parser, is its own
    statement handler, and when an internal GRDDL parser hands its
    statements to the relay of the engine and is well routed in its
    turn. *)
Fixpoint well_routed (rdf_parser : raptor_parser) : Prop :=
  match rdf_parser with
  | mk_parser _ _ _ _ user_data_ statement_handler_ _ internal_parser_
              internal_parser_name_ _ _ saved_user_data_
              saved_statement_handler_ _ grddl_depth_ =>
      (internal_parser_name_ <> None ->
       saved_statement_handler_ = statement_handler_
       /\ saved_user_data_ = user_data_)
      /\ match internal_parser_ with
         | None => True
         | Some inner =>
             internal_parser_name_ = Some (factory_name inner)
             /\ (factory_name inner = "grddl" ->
                 statement_handler inner = Some relay_triples_handler
                 /\ user_data inner = parser_pointer grddl_depth_
                 /\ (internal_parser inner <> None ->
                     grddl_depth inner = S grddl_depth_)
                 /\ well_routed inner)
         end
  end.

(** What of an engine the others see: its handler, its user data, its
    depth and its factory. *)
Definition same_face (p p' : raptor_parser) : Prop :=
  statement_handler p' = statement_handler p
  /\ user_data p' = user_data p
  /\ grddl_depth p' = grddl_depth p
  /\ factory_name p' = factory_name p.

(** Calls of the statement handler of [p] with its user data. *)
Definition routed (p : raptor_parser) (calls : list handler_call) : Prop :=
  Forall (fun call =>
            Some (call_handler call) = statement_handler p
            /\ call_user_data call = user_data p) calls.

(** Calls of the relay of [p]. *)
Definition relayed (p : raptor_parser) (calls : list handler_call) : Prop :=
  Forall (fun call =>
            call_handler call = relay_triples_handler
            /\ call_user_data call = parser_pointer (grddl_depth p)) calls.

Lemma same_face_refl (p : raptor_parser) : same_face p p.
Proof. repeat split. Qed.

Lemma same_face_trans (p q r : raptor_parser) :
  same_face p q -> same_face q r -> same_face p r.
Proof.
  unfold same_face. intros (H1 & H2 & H3 & H4) (K1 & K2 & K3 & K4).
  repeat split; congruence.
Qed.

Lemma routed_same_face (p q : raptor_parser) (calls : list handler_call) :
  same_face p q -> routed q calls -> routed p calls.
Proof.
  unfold same_face, routed. intros (H1 & H2 & _) H.
  eapply Forall_impl; [|exact H]. intros call [K1 K2]. split; congruence.
Qed.

Lemma routed_app (p : raptor_parser) (calls calls' : list handler_call) :
  routed p calls -> routed p calls' -> routed p (calls ++ calls').
Proof. intros H H'. apply Forall_app. now split. Qed.

Lemma user_data_eqb_refl (d : user_data_ptr) : user_data_eqb d d = true.
Proof. destruct d; simpl; auto using Nat.eqb_refl. Qed.

Lemma well_routed_agree (p q : raptor_parser) :
  statement_handler q = statement_handler p ->
  user_data q = user_data p ->
  saved_statement_handler q = saved_statement_handler p ->
  saved_user_data q = saved_user_data p ->
  internal_parser q = internal_parser p ->
  internal_parser_name q = internal_parser_name p ->
  grddl_depth q = grddl_depth p ->
  well_routed p -> well_routed q.
Proof.
  destruct p, q; cbn. intros; subst; assumption.
Qed.

Lemma relay_triples_routed (p : raptor_parser) (statement : raptor_statement) :
  well_routed p -> internal_parser_name p <> None ->
  well_routed (fst (raptor_grddl_relay_triples p statement))
  /\ same_face p (fst (raptor_grddl_relay_triples p statement))
  /\ routed p (snd (raptor_grddl_relay_triples p statement))
  /\ internal_parser_name (fst (raptor_grddl_relay_triples p statement))
     = internal_parser_name p.
Proof.
  intros Hp Hname. unfold raptor_grddl_relay_triples. cbn [fst snd].
  assert (Hcalls : routed p
            match saved_statement_handler p with
            | Some handler =>
                [ {| call_handler := handler;
                     call_user_data := saved_user_data p;
                     call_statement := statement |} ]
            | None => []
            end).
  { destruct p; cbn in *. destruct Hp as [Hsaved _].
    destruct (Hsaved Hname) as [<- <-].
    destruct saved_statement_handler0; repeat constructor. }
  destruct (is_resource (subject_type statement)
            && is_resource (predicate_type statement)
            && is_resource (object_type statement)).
  - split; [|split; [|split]]; [|destruct p; repeat split|exact Hcalls
                               |destruct p; reflexivity].
    apply (well_routed_agree p); try (destruct p; reflexivity). exact Hp.
  - split; [exact Hp|]. split; [apply same_face_refl|]. now split.
Qed.

Lemma deliver_routed (calls : list handler_call) :
  forall p,
    well_routed p -> internal_parser_name p <> None -> relayed p calls ->
    well_routed (fst (deliver p calls))
    /\ same_face p (fst (deliver p calls))
    /\ routed p (snd (deliver p calls))
    /\ internal_parser_name (fst (deliver p calls)) = internal_parser_name p.
Proof.
  induction calls as [|call rest IH]; intros p Hp Hname Hcalls.
  - cbn [deliver fst snd]. split; [exact Hp|]. split; [apply same_face_refl|].
    split; [constructor|reflexivity].
  - cbn [deliver]. inversion Hcalls as [|c l [Hh Hd] Hrest]; subst.
    rewrite Hh, Hd, user_data_eqb_refl.
    destruct (relay_triples_routed p (call_statement call) Hp Hname)
      as (Hp1 & Hface1 & Hcalls1 & Hname1).
    destruct (raptor_grddl_relay_triples p (call_statement call))
      as [p1 calls1]. cbn [fst snd] in *.
    assert (Hrest1 : relayed p1 rest).
    { unfold relayed in *. destruct Hface1 as (_ & _ & Hdepth & _).
      now rewrite Hdepth. }
    destruct (IH p1 Hp1 ltac:(congruence) Hrest1)
      as (Hp2 & Hface2 & Hcalls2 & Hname2).
    destruct (deliver p1 rest) as [p2 calls2]. cbn [fst snd] in *.
    split; [exact Hp2|]. split; [eapply same_face_trans; eassumption|].
    split; [|congruence].
    apply routed_app; [exact Hcalls1|].
    eapply routed_same_face; eassumption.
Qed.

(** What is asked of the result of a call that returns. *)
Definition returning {A : Type} (Q : A -> Prop) (o : outcome A) : Prop :=
  within False Q o.

Lemma returning_intro {A : Type} (Q : A -> Prop) (o : outcome A) :
  (forall a, o = Ret a -> Q a) -> returning Q o.
Proof. intros H. split; [intros []|exact H]. Qed.

Lemma new_parser_fresh (name_ : string) (new_parser : raptor_parser) :
  raptor_new_parser name_ = Some new_parser ->
  new_parser = mk_parser name_ None false false null_pointer None None None
                         None None [] null_pointer None [] 0.
Proof.
  unfold raptor_new_parser.
  destruct (String.eqb name_ "grddl" || registered name_); [|discriminate].
  now intros [= <-].
Qed.

Lemma ensure_internal_parser_routed (p : raptor_parser) (parser_name : string) :
  well_routed p ->
  returning
    (fun r =>
       well_routed (snd r) /\ same_face p (snd r)
       /\ (fst r = 0%Z ->
           internal_parser_name (snd r) <> None
           /\ exists inner,
               internal_parser (snd r) = Some inner
               /\ statement_handler inner = Some relay_triples_handler
               /\ user_data inner = parser_pointer (grddl_depth p)
               /\ factory_name inner = parser_name))
    (raptor_grddl_ensure_internal_parser p parser_name true).
Proof.
  intros Hp. apply returning_intro. intros [ret p'] Hrun. cbn [fst snd].
  unfold raptor_grddl_ensure_internal_parser in Hrun.
  destruct p as [fn bu fl nn ud sh cx ip ipn rn dt sud ssh pu gd].
  cbn [internal_parser_name internal_parser] in Hrun.
  destruct Hp as [Hsaved Hinner].
  assert (Hfresh : forall new_parser,
    raptor_new_parser parser_name = Some new_parser ->
    Ret (0%Z,
         mk_parser fn bu fl nn ud sh cx
           (Some (set_handler (raptor_parser_copy_user_state new_parser
                                 (mk_parser fn bu fl nn ud sh cx None None rn
                                            dt sud ssh pu gd))
                              (parser_pointer gd) (Some relay_triples_handler)))
           (Some parser_name) rn dt ud sh pu gd) = Ret (ret, p') ->
    well_routed p'
    /\ same_face (mk_parser fn bu fl nn ud sh cx ip ipn rn dt sud ssh pu gd) p'
    /\ (ret = 0%Z ->
        internal_parser_name p' <> None
        /\ exists inner,
            internal_parser p' = Some inner
            /\ statement_handler inner = Some relay_triples_handler
            /\ user_data inner = parser_pointer gd
            /\ factory_name inner = parser_name)).
  { intros new_parser Hnew [= <- <-]. apply new_parser_fresh in Hnew. subst.
    cbn. split; [|split; [repeat split|]].
    - split; [auto|]. split; [reflexivity|]. intros _.
      split; [reflexivity|]. split; [reflexivity|].
      split; [intros H; now exfalso|]. split; [intros H; now exfalso|exact I].
    - intros _. split; [discriminate|]. eexists. repeat split. }
  destruct ipn as [n|].
  - destruct (String.eqb_spec n parser_name) as [->|Hne]; cbn [negb] in Hrun.
    + (* the internal parser is the one asked for *)
      cbn in Hrun. destruct ip as [inner0|]; [|discriminate].
      injection Hrun as <- <-. cbn.
      destruct Hinner as [Hname Hgrddl]. injection Hname as Hname.
      split; [|split; [repeat split|]].
      * split; [exact Hsaved|]. split.
        -- destruct inner0; cbn in *. now rewrite Hname.
        -- intros Hfn.
           assert (Hfn0 : factory_name inner0 = "grddl")
             by (destruct inner0; exact Hfn).
           destruct (Hgrddl Hfn0) as (Hh & Hd & Hdepth & Hr).
           split; [destruct inner0; reflexivity|].
           split; [destruct inner0; reflexivity|].
           split; [destruct inner0; exact Hdepth|].
           destruct inner0; cbn in *. subst. exact Hr.
      * intros _. split; [discriminate|]. eexists. split; [reflexivity|].
        destruct inner0; cbn in *. repeat split. congruence.
    + (* another parser *)
      destruct (raptor_new_parser parser_name) as [new_parser|] eqn:Hnew.
      * apply (Hfresh new_parser eq_refl).
        destruct ip; cbn in Hrun; exact Hrun.
      * destruct ip; cbn in Hrun;
          injection Hrun as <- <-; cbn;
          (split; [split; [first [exact Hsaved|intros H; now exfalso]|exact I]|]);
          (split; [repeat split|discriminate]).
  - destruct (raptor_new_parser parser_name) as [new_parser|] eqn:Hnew.
    + apply (Hfresh new_parser eq_refl).
      destruct ip; cbn in Hrun; exact Hrun.
    + destruct ip; cbn in Hrun;
        injection Hrun as <- <-; cbn;
        (split; [split; [first [exact Hsaved|intros H; now exfalso]|exact I]|]);
        (split; [repeat split|discriminate]).
Qed.

(** The result of a transformation or of a chunk: the parser is well
    routed and shows the same face, and the calls made are calls of its
    statement handler. *)
Definition routes_transformation (p : raptor_parser)
           (r : Z * raptor_parser * list handler_call) : Prop :=
  well_routed (snd (fst r)) /\ same_face p (snd (fst r)) /\ routed p (snd r).

Definition routes_chunk (p : raptor_parser) (r : chunk_result) : Prop :=
  well_routed (snd (fst (fst r))) /\ same_face p (snd (fst (fst r)))
  /\ routed p (snd r).

Lemma well_routed_set_internal (p inner inner' : raptor_parser) :
  well_routed p ->
  internal_parser p = Some inner ->
  factory_name inner' = factory_name inner ->
  (factory_name inner' = "grddl" ->
   statement_handler inner' = Some relay_triples_handler
   /\ user_data inner' = parser_pointer (grddl_depth p)
   /\ (internal_parser inner' <> None -> grddl_depth inner' = S (grddl_depth p))
   /\ well_routed inner') ->
  well_routed (set_internal_parser p (Some inner'))
  /\ same_face p (set_internal_parser p (Some inner'))
  /\ internal_parser_name (set_internal_parser p (Some inner')) <> None.
Proof.
  destruct p; cbn. intros [Hs Hi] -> Hfn Hg. destruct Hi as [Hname _].
  split; [|split; [repeat split|congruence]].
  split; [exact Hs|]. split; [congruence|exact Hg].
Qed.

Lemma transform_doc_routed (p : raptor_parser) (xslt_uri : raptor_uri)
      (xslt_doc : option xmlDoc) (doc : xmlDoc) :
  well_routed p ->
  returning (routes_transformation p)
            (raptor_grddl_run_grddl_transform_doc p xslt_uri xslt_doc doc).
Proof.
  intros Hp.
  assert (Hnone : forall ret, routes_transformation p (ret, p, [])).
  { intros ret. split; [exact Hp|]. split; [apply same_face_refl|constructor]. }
  unfold raptor_grddl_run_grddl_transform_doc.
  destruct (xslt xslt_doc doc) as [| |is_html method mediaType doc_txt];
    try (apply within_ret; apply Hnone).
  destruct doc_txt as [doc_txt|]; [|apply within_ret; apply Hnone].
  destruct (Nat.eqb (String.length doc_txt) 0); [apply within_ret; apply Hnone|].
  destruct (guess_parser_name _ doc_txt _) as [parser_name|];
    [|apply within_undefined].
  destruct (String.eqb_spec parser_name "grddl") as [->|Hne];
    [apply within_ret; apply Hnone|].
  apply within_bind.
  apply (within_weaken _ _ _ _ _ (ensure_internal_parser_routed p parser_name Hp));
    [auto|].
  intros [ret p1] (Hp1 & Hface1 & Hok). cbn [fst snd] in *.
  destruct (Z.eqb_spec ret 0) as [->|Hret]; cbn [negb];
    [|apply within_ret; split; [exact Hp1|split; [exact Hface1|constructor]]].
  destruct (Hok eq_refl) as (Hname1 & inner & Hinner & Hh & Hd & Hfn).
  rewrite Hinner. unfold raptor_start_parse. cbv beta iota zeta.
  set (inner' := set_base_uri inner (base_uri p1)).
  assert (Hh' : statement_handler inner' = Some relay_triples_handler)
    by (subst inner'; destruct inner; exact Hh).
  assert (Hd' : user_data inner' = parser_pointer (grddl_depth p))
    by (subst inner'; destruct inner; exact Hd).
  assert (Hfn' : factory_name inner' = factory_name inner)
    by (subst inner'; destruct inner; reflexivity).
  rewrite Hh'.
  destruct (well_routed_set_internal p1 inner inner' Hp1 Hinner Hfn')
    as (Hp2 & Hface2 & Hname2).
  { intros Hg. exfalso. apply Hne. congruence. }
  match goal with
  | |- context [deliver ?q ?c] =>
      destruct (deliver_routed c q Hp2 Hname2) as (Hp3 & Hface3 & Hcalls3 & _);
        [|destruct (deliver q c) as [p3 calls3]]
  end.
  { unfold relayed. apply Forall_forall. intros call Hin.
    apply in_map_iff in Hin. destruct Hin as (st & <- & _). cbn.
    split; [reflexivity|].
    destruct Hface1 as (_ & _ & Hdepth1 & _).
    destruct Hface2 as (_ & _ & Hdepth2 & _).
    destruct p1; cbn in *. congruence. }
  cbn [fst snd] in *. apply within_ret.
  assert (Hface : same_face p (set_internal_parser p1 (Some inner')))
    by (eapply same_face_trans; eassumption).
  split; [exact Hp3|]. split; [eapply same_face_trans; eassumption|].
  eapply routed_same_face; eassumption.
Qed.

Lemma transform_uri_routed (p : raptor_parser) (xslt_uri : raptor_uri)
      (doc : xmlDoc) :
  well_routed p ->
  returning (routes_transformation p)
            (raptor_grddl_run_grddl_transform_uri p xslt_uri doc).
Proof.
  intros Hp. unfold raptor_grddl_run_grddl_transform_uri.
  apply within_bind. apply returning_intro. intros [ret xc] _.
  destruct (negb (ret =? 0)%Z).
  - apply within_ret. split; [exact Hp|]. split; [apply same_face_refl|constructor].
  - destruct xc as [xc|]; [|apply within_undefined].
    now apply transform_doc_routed.
Qed.

Lemma drain_loop_routed (doc : xmlDoc) (budget : nat) :
  forall i ret p calls p0,
    well_routed p -> same_face p0 p -> routed p0 calls ->
    returning (routes_transformation p0) (drain_loop budget doc i ret p calls).
Proof.
  induction budget as [|budget IH]; intros i ret p calls p0 Hp Hface Hcalls;
    [apply returning_intro; discriminate|].
  cbn [drain_loop]. unfold raptor_sequence_size, raptor_sequence_unshift.
  destruct (Nat.ltb i (List.length (doc_transform_uris p)));
    [|apply within_ret; split; [exact Hp|split; assumption]].
  destruct (doc_transform_uris p) as [|uri rest]; [apply within_undefined|].
  assert (Hq : well_routed (set_doc_transform_uris p rest)
               /\ same_face p (set_doc_transform_uris p rest)).
  { split; [|destruct p; repeat split].
    apply (well_routed_agree p); try (destruct p; reflexivity). exact Hp. }
  destruct Hq as [Hq Hfaceq].
  apply within_bind.
  apply (within_weaken _ _ _ _ _ (transform_uri_routed _ uri doc Hq)); [auto|].
  intros [[ret1 p1] calls1] (Hp1 & Hface1 & Hcalls1). cbn [fst snd] in *.
  assert (Hface0q : same_face p0 (set_doc_transform_uris p rest))
    by exact (same_face_trans _ _ _ Hface Hfaceq).
  assert (Hface01 : same_face p0 p1)
    by exact (same_face_trans _ _ _ Hface0q Hface1).
  assert (Hcalls01 : routed p0 (calls ++ calls1)).
  { apply routed_app; [exact Hcalls|].
    exact (routed_same_face _ _ _ Hface0q Hcalls1). }
  destruct (negb (ret1 =? 0)%Z).
  - apply within_ret. split; [exact Hp1|]. split; assumption.
  - now apply IH.
Qed.

(** Two parsers with the same handlers, saved handlers, internal parser,
    depth and factory. *)
Definition same_routing (p q : raptor_parser) : Prop :=
  statement_handler q = statement_handler p
  /\ user_data q = user_data p
  /\ saved_statement_handler q = saved_statement_handler p
  /\ saved_user_data q = saved_user_data p
  /\ internal_parser q = internal_parser p
  /\ internal_parser_name q = internal_parser_name p
  /\ grddl_depth q = grddl_depth p
  /\ factory_name q = factory_name p.

Lemma same_routing_refl (p : raptor_parser) : same_routing p p.
Proof. repeat split. Qed.

Lemma same_routing_trans (p q r : raptor_parser) :
  same_routing p q -> same_routing q r -> same_routing p r.
Proof.
  unfold same_routing.
  intros (H1 & H2 & H3 & H4 & H5 & H6 & H7 & H8)
         (K1 & K2 & K3 & K4 & K5 & K6 & K7 & K8).
  repeat split; congruence.
Qed.

Lemma same_routing_routed (p q : raptor_parser) :
  same_routing p q -> well_routed p -> well_routed q /\ same_face p q.
Proof.
  intros (H1 & H2 & H3 & H4 & H5 & H6 & H7 & H8) Hp. split.
  - now apply (well_routed_agree p).
  - repeat split; assumption.
Qed.

Lemma match_table_loop_same_routing (doc : xmlDoc) (rows : list match_row) :
  forall p, same_routing p (match_table_loop doc rows p).
Proof.
  induction rows as [|row rest IH]; intros p; [apply same_routing_refl|].
  cbn [match_table_loop].
  set (q := match raptor_grddl_run_xpath_match p doc (xpath row) (flags row) with
            | Some result => _
            | None => p
            end).
  assert (Hq : same_routing p q).
  { subst q. destruct (raptor_grddl_run_xpath_match p doc _ _);
      [destruct p; repeat split|apply same_routing_refl]. }
  destruct (failed q); [exact Hq|].
  eapply same_routing_trans; [exact Hq|apply IH].
Qed.

Lemma well_routed_inner (p inner : raptor_parser) :
  well_routed p -> internal_parser p = Some inner ->
  factory_name inner = "grddl" ->
  statement_handler inner = Some relay_triples_handler
  /\ user_data inner = parser_pointer (grddl_depth p)
  /\ (internal_parser inner <> None -> grddl_depth inner = S (grddl_depth p))
  /\ well_routed inner.
Proof.
  destruct p; cbn. intros [_ Hi] -> Hfn. destruct Hi as [_ Hg]. now apply Hg.
Qed.

Lemma well_routed_set_depth (inner : raptor_parser) (depth : nat) :
  well_routed inner ->
  (internal_parser inner <> None -> grddl_depth inner = depth) ->
  well_routed (set_grddl_depth inner depth).
Proof.
  destruct inner as [fn bu fl nn ud sh cx [inner2|] ipn rn dt sud ssh pu gd];
    cbn; intros [Hs Hi] Hd.
  - rewrite <- Hd by discriminate. now split.
  - now split.
Qed.

Section RoutedChunk.

Variable parse_chunk_below :
  list raptor_uri -> raptor_parser -> option string -> bool ->
  outcome chunk_result.

Hypothesis below_routed :
  forall visited_uris rdf_parser s is_end,
    well_routed rdf_parser ->
    returning (routes_chunk rdf_parser)
              (parse_chunk_below visited_uris rdf_parser s is_end).

(** The state of a retrieval that feeds the engine below: that engine is
    well routed, shows the face of [inner] and has made calls of the
    handler of [inner]. *)
Definition feeding (inner : raptor_parser)
           (state : raptor_parser * list raptor_uri * list handler_call) : Prop :=
  well_routed (fst (fst state)) /\ same_face inner (fst (fst state))
  /\ routed inner (snd state).

Lemma write_bytes_routed (inner : raptor_parser) :
  forall state block,
    feeding inner state ->
    returning (fun r => feeding inner (fst r))
              (raptor_grddl_parse_uri_write_bytes parse_chunk_below state block).
Proof.
  intros [[p v] calls] block (Hp & Hface & Hcalls). cbn [fst snd] in *.
  unfold raptor_grddl_parse_uri_write_bytes.
  apply within_bind.
  apply (within_weaken _ _ _ _ _ (below_routed v p (Some block) false Hp));
    [auto|].
  intros [[[ret p'] v'] calls'] (Hp' & Hface' & Hcalls'). cbn [fst snd] in *.
  apply within_ret. cbn [fst snd].
  split; [exact Hp'|]. split; [exact (same_face_trans _ _ _ Hface Hface')|].
  apply routed_app; [exact Hcalls|].
  exact (routed_same_face _ _ _ Hface Hcalls').
Qed.

(** The calls of an engine below, carried out by the engine above. *)
Lemma deliver_below_routed (p p1 inner inner' : raptor_parser)
      (calls : list handler_call) :
  well_routed p1 -> same_face p p1 ->
  internal_parser p1 = Some inner ->
  factory_name inner' = factory_name inner ->
  statement_handler inner' = Some relay_triples_handler ->
  user_data inner' = parser_pointer (grddl_depth p1) ->
  grddl_depth inner' = S (grddl_depth p1) ->
  well_routed inner' ->
  routed inner' calls ->
  well_routed (fst (deliver (set_internal_parser p1 (Some inner')) calls))
  /\ same_face p (fst (deliver (set_internal_parser p1 (Some inner')) calls))
  /\ routed p (snd (deliver (set_internal_parser p1 (Some inner')) calls)).
Proof.
  intros Hp1 Hface1 Hinner Hfn Hh Hd Hdepth Hr Hcalls.
  destruct (well_routed_set_internal p1 inner inner' Hp1 Hinner Hfn)
    as (Hp2 & Hface2 & Hname2); [intros _; repeat split; auto|].
  assert (Hrelayed : relayed (set_internal_parser p1 (Some inner')) calls).
  { unfold relayed, routed in *. eapply Forall_impl; [|exact Hcalls].
    intros call [Hc1 Hc2]. rewrite Hh in Hc1. injection Hc1 as Hc1.
    split; [exact Hc1|]. rewrite Hc2, Hd.
    destruct Hface2 as (_ & _ & -> & _). reflexivity. }
  destruct (deliver_routed calls _ Hp2 Hname2 Hrelayed)
    as (Hp3 & Hface3 & Hcalls3 & _).
  assert (Hface : same_face p (set_internal_parser p1 (Some inner')))
    by exact (same_face_trans _ _ _ Hface1 Hface2).
  split; [exact Hp3|]. split; [exact (same_face_trans _ _ _ Hface Hface3)|].
  exact (routed_same_face _ _ _ Hface Hcalls3).
Qed.

Lemma run_recursive_routed (visited_uris : list raptor_uri)
      (p : raptor_parser) (uri : raptor_uri) :
  well_routed p ->
  returning (routes_chunk p)
            (raptor_grddl_run_recursive parse_chunk_below visited_uris p uri).
Proof.
  intros Hp. unfold raptor_grddl_run_recursive.
  destruct (raptor_grddl_seen_uri visited_uris uri).
  { apply within_ret. split; [exact Hp|]. split; [apply same_face_refl|constructor]. }
  apply within_bind.
  apply (within_weaken _ _ _ _ _ (ensure_internal_parser_routed p "grddl" Hp));
    [auto|].
  intros [ret p1] (Hp1 & Hface1 & Hok). cbn [fst snd] in *.
  destruct (Z.eqb_spec ret 0) as [->|Hret]; cbn [negb];
    [|apply within_ret; split; [exact Hp1|split; [exact Hface1|constructor]]].
  destruct (Hok eq_refl) as (Hname1 & inner & Hinner & Hh & Hd & Hfn).
  rewrite Hinner.
  destruct (well_routed_inner p1 inner Hp1 Hinner Hfn) as (_ & Hd1 & Hdepth & Hr).
  unfold raptor_grddl_parser_add_parent.
  destruct (Nat.eqb (grddl_depth inner) 0); [|apply within_undefined].
  cbn [bind]. unfold raptor_start_parse.
  cbv beta iota zeta.
  set (inner_b := set_base_uri (set_grddl_depth inner (grddl_depth p1 + 1))
                               (Some uri)).
  assert (Hb : well_routed inner_b
               /\ factory_name inner_b = factory_name inner
               /\ statement_handler inner_b = Some relay_triples_handler
               /\ user_data inner_b = parser_pointer (grddl_depth p1)
               /\ grddl_depth inner_b = S (grddl_depth p1)).
  { assert (Hr' : well_routed (set_grddl_depth inner (grddl_depth p1 + 1))).
    { apply well_routed_set_depth; [exact Hr|].
      intros Hi. rewrite (Hdepth Hi). lia. }
    subst inner_b. split.
    - apply (well_routed_agree (set_grddl_depth inner (grddl_depth p1 + 1)));
        try (destruct inner; reflexivity). exact Hr'.
    - destruct inner; cbn in *. repeat split; auto. lia. }
  destruct Hb as (Hrb & Hfnb & Hhb & Hdb & Hdepthb).
  assert (Hbelow : forall inner' calls,
    well_routed inner' -> same_face inner_b inner' -> routed inner_b calls ->
    routes_chunk p
      (1%Z, fst (deliver (set_internal_parser p1 (Some inner')) calls),
       visited_uris, snd (deliver (set_internal_parser p1 (Some inner')) calls))).
  { intros inner' calls Hr' (Hf1 & Hf2 & Hf3 & Hf4) Hcalls'.
    apply (deliver_below_routed p p1 inner inner' calls Hp1 Hface1 Hinner);
      try congruence.
    apply (routed_same_face inner' inner_b); [|exact Hcalls'].
    repeat split; congruence. }
  match goal with
  | |- context [negb (?r =? 0)%Z] => destruct (negb (r =? 0)%Z)
  end.
  { apply within_ret.
    destruct (well_routed_set_internal p1 inner inner_b Hp1 Hinner Hfnb)
      as (Hp2 & Hface2 & _);
      [intros _; split; [exact Hhb|];
       split; [exact Hdb|split; [intros _; exact Hdepthb|exact Hrb]]|].
    split; [exact Hp2|].
    split; [exact (same_face_trans _ _ _ Hface1 Hface2)|constructor]. }
  apply within_bind.
  eapply within_weaken.
  - apply (fetch_uri_within False (feeding inner_b)).
    + intros _ s block Hs. now apply write_bytes_routed.
    + split; [exact Hrb|]. split; [apply same_face_refl|constructor].
  - auto.
  - intros [ret2 [[inner2 v2] calls2]] [(Hr2 & Hface2 & Hcalls2) _].
    cbn [fst snd] in *.
    destruct (negb (ret2 =? 0)%Z).
    + destruct (Hbelow inner2 calls2 Hr2 Hface2 Hcalls2) as (H1 & H2 & H3).
      destruct (deliver _ calls2) as [p' calls']. cbn [fst snd] in *.
      apply within_ret. split; [exact H1|]. split; assumption.
    + apply within_bind.
      apply (within_weaken _ _ _ _ _ (below_routed v2 inner2 None true Hr2));
        [auto|].
      intros [[[ret3 inner3] v3] calls3] (Hr3 & Hface3 & Hcalls3).
      cbn [fst snd] in *.
      assert (Hcalls23 : routed inner_b (calls2 ++ calls3)).
      { apply routed_app; [exact Hcalls2|].
        exact (routed_same_face _ _ _ Hface2 Hcalls3). }
      destruct (Hbelow inner3 (calls2 ++ calls3) Hr3
                  (same_face_trans _ _ _ Hface2 Hface3) Hcalls23)
        as (H1 & H2 & H3).
      destruct (deliver _ (calls2 ++ calls3)) as [p' calls'].
      cbn [fst snd] in *.
      apply within_ret. split; [exact H1|]. split; assumption.
Qed.

(** [raptor_grddl_ensure_internal_parser] does not fail for the parser
    of the engine's own syntax. *)
Lemma ensure_grddl_parser_returns_0 (p : raptor_parser) (relay : bool)
      (ret : Z) (p' : raptor_parser) :
  raptor_grddl_ensure_internal_parser p "grddl" relay = Ret (ret, p') ->
  ret = 0%Z.
Proof.
  unfold raptor_grddl_ensure_internal_parser, raptor_new_parser.
  cbn [String.eqb Ascii.eqb Bool.eqb orb].
  destruct (match internal_parser_name p with
            | Some n => negb (String.eqb n "grddl")
            | None => true
            end); cbn [bind Z.eqb negb];
    match goal with
    | |- context [match ?o with Some _ => _ | None => Undefined end] =>
        destruct o; [|discriminate]
    end; now intros [= <- _].
Qed.

Lemma well_routed_name (p inner : raptor_parser) :
  well_routed p -> internal_parser p = Some inner ->
  internal_parser_name p = Some (factory_name inner).
Proof.
  destruct p; cbn. intros [_ Hi] ->. now destruct Hi.
Qed.

Lemma deliver_internal_parser (calls : list handler_call) :
  forall p,
    internal_parser (fst (deliver p calls)) = internal_parser p
    /\ internal_parser_name (fst (deliver p calls)) = internal_parser_name p.
Proof.
  induction calls as [|call rest IH]; intros p; [now split|].
  cbn [deliver].
  assert (Hrelay :
    internal_parser (fst (raptor_grddl_relay_triples p (call_statement call)))
    = internal_parser p
    /\ internal_parser_name
         (fst (raptor_grddl_relay_triples p (call_statement call)))
       = internal_parser_name p).
  { unfold raptor_grddl_relay_triples. cbn [fst].
    destruct (is_resource _ && is_resource _ && is_resource _);
      destruct p; now split. }
  assert (Hkept : internal_parser (fst (let '(p2, calls2) := deliver p rest in
                                        (p2, [call] ++ calls2)))
                  = internal_parser p
                  /\ internal_parser_name
                       (fst (let '(p2, calls2) := deliver p rest in
                             (p2, [call] ++ calls2)))
                     = internal_parser_name p).
  { specialize (IH p). destruct (deliver p rest) as [p2 calls2]. exact IH. }
  destruct (call_handler call) as [h|]; [exact Hkept|].
  destruct (user_data_eqb (call_user_data call)
                          (parser_pointer (grddl_depth p))); [|exact Hkept].
  destruct (raptor_grddl_relay_triples p (call_statement call)) as [p1 calls1].
  cbn [fst] in Hrelay. specialize (IH p1).
  destruct (deliver p1 rest) as [p2 calls2]. cbn [fst] in *.
  destruct IH, Hrelay. split; congruence.
Qed.

(** What an engine has once it has gone into a document: an internal
    parser of the GRDDL syntax one level below it. *)
Definition has_child (p p' : raptor_parser) : Prop :=
  internal_parser_name p' = Some "grddl"
  /\ exists inner,
       internal_parser p' = Some inner
       /\ grddl_depth inner = S (grddl_depth p).

Lemma run_recursive_leaves_child (visited_uris : list raptor_uri)
      (p : raptor_parser) (uri : raptor_uri) :
  well_routed p ->
  raptor_grddl_seen_uri visited_uris uri = false ->
  returning (fun r => has_child p (snd (fst (fst r))))
            (raptor_grddl_run_recursive parse_chunk_below visited_uris p uri).
Proof.
  intros Hp Hseen. apply returning_intro.
  intros [[[ret p'] v'] calls'] Hrun. cbn [fst snd].
  unfold raptor_grddl_run_recursive in Hrun. rewrite Hseen in Hrun.
  apply bind_ret_inv in Hrun. destruct Hrun as [[ret1 p1] [Hens Hrun]].
  pose proof (ensure_grddl_parser_returns_0 _ _ _ _ Hens) as ->.
  destruct (ensure_internal_parser_routed p "grddl" Hp) as [_ Hq].
  destruct (Hq _ Hens) as (Hp1 & Hface1 & Hok). cbn [fst snd] in *.
  destruct (Hok eq_refl) as (_ & inner & Hinner & Hh & Hd & Hfn).
  pose proof (well_routed_name p1 inner Hp1 Hinner) as Hname1.
  rewrite Hfn in Hname1.
  destruct (well_routed_inner p1 inner Hp1 Hinner Hfn) as (_ & _ & Hdepth & Hr).
  cbn [Z.eqb negb] in Hrun. rewrite Hinner in Hrun.
  unfold raptor_grddl_parser_add_parent in Hrun.
  destruct (Nat.eqb (grddl_depth inner) 0); [|discriminate].
  cbn [bind] in Hrun. unfold raptor_start_parse in Hrun.
  cbv beta iota zeta in Hrun.
  set (inner_b := set_base_uri (set_grddl_depth inner (grddl_depth p1 + 1))
                               (Some uri)) in Hrun.
  assert (Hdepth1 : grddl_depth p1 = grddl_depth p) by apply Hface1.
  assert (Hdepthb : grddl_depth inner_b = S (grddl_depth p)).
  { subst inner_b. destruct inner; cbn in *. lia. }
  assert (Hrb : well_routed inner_b).
  { assert (Hr' : well_routed (set_grddl_depth inner (grddl_depth p1 + 1))).
    { apply well_routed_set_depth; [exact Hr|].
      intros Hi. rewrite (Hdepth Hi). lia. }
    subst inner_b.
    apply (well_routed_agree (set_grddl_depth inner (grddl_depth p1 + 1)));
      try (destruct inner; reflexivity). exact Hr'. }
  assert (Hdelivered : forall inner' calls,
    grddl_depth inner' = grddl_depth inner_b ->
    has_child p (fst (deliver (set_internal_parser p1 (Some inner')) calls))).
  { intros inner' calls Hd'.
    destruct (deliver_internal_parser calls
                (set_internal_parser p1 (Some inner'))) as [Hi Hn].
    split.
    - rewrite Hn. destruct p1; exact Hname1.
    - exists inner'. split; [rewrite Hi; destruct p1; reflexivity|congruence]. }
  match type of Hrun with
  | context [negb (?r =? 0)%Z] => destruct (negb (r =? 0)%Z)
  end.
  { injection Hrun as _ <- _ _. split.
    - destruct p1; exact Hname1.
    - exists inner_b. split; [destruct p1; reflexivity|exact Hdepthb]. }
  apply bind_ret_inv in Hrun.
  destruct Hrun as [[ret2 [[inner2 v2] calls2]] [Hfetch Hrun]].
  assert (Hfed : feeding inner_b (inner2, v2, calls2)).
  { assert (Hw : returning
                   (fun r => feeding inner_b (snd r)
                             /\ ((fst r =? 0)%Z = true -> In uri fetchable))
                   (raptor_grddl_fetch_uri inner_b uri
                      (raptor_grddl_parse_uri_write_bytes parse_chunk_below)
                      (inner_b, visited_uris, []))).
    { apply (fetch_uri_within False (feeding inner_b)).
      - intros _ s block Hs. now apply write_bytes_routed.
      - split; [exact Hrb|]. split; [apply same_face_refl|constructor]. }
    destruct Hw as [_ Hw]. exact (proj1 (Hw _ Hfetch)). }
  destruct Hfed as (Hr2 & Hface2 & _). cbn [fst snd] in *.
  assert (Hdepth2 : grddl_depth inner2 = grddl_depth inner_b) by apply Hface2.
  destruct (negb (ret2 =? 0)%Z).
  - pose proof (Hdelivered inner2 calls2 Hdepth2) as Hchild.
    destruct (deliver _ calls2) as [p2 calls2'].
    injection Hrun as _ <- _ _. exact Hchild.
  - apply bind_ret_inv in Hrun.
    destruct Hrun as [[[[ret3 inner3] v3] calls3] [Hend Hrun]].
    destruct (below_routed v2 inner2 None true Hr2) as [_ Hb].
    destruct (Hb _ Hend) as (_ & Hface3 & _). cbn [fst snd] in *.
    assert (Hdepth3 : grddl_depth inner3 = grddl_depth inner_b).
    { destruct Hface3 as (_ & _ & -> & _). exact Hdepth2. }
    pose proof (Hdelivered inner3 (calls2 ++ calls3) Hdepth3) as Hchild.
    destruct (deliver _ (calls2 ++ calls3)) as [p3 calls3'].
    injection Hrun as _ <- _ _. exact Hchild.
Qed.

Lemma profile_loop_routed (result : list raptor_uri) :
  forall ret visited_uris p calls p0,
    well_routed p -> same_face p0 p -> routed p0 calls ->
    returning (routes_chunk p0)
              (profile_loop parse_chunk_below result ret visited_uris p calls).
Proof.
  induction result as [|uri rest IH]; intros ret v p calls p0 Hp Hface Hcalls;
    cbn [profile_loop].
  - apply within_ret. split; [exact Hp|]. split; assumption.
  - apply within_bind.
    apply (within_weaken _ _ _ _ _ (run_recursive_routed v p uri Hp)); [auto|].
    intros [[[ret1 p1] v1] calls1] (Hp1 & Hface1 & Hcalls1).
    cbn [fst snd] in *.
    apply IH; [exact Hp1|exact (same_face_trans _ _ _ Hface Hface1)|].
    apply routed_app; [exact Hcalls|].
    exact (routed_same_face _ _ _ Hface Hcalls1).
Qed.

Lemma grddl_discover_routed (loop_budget : nat)
      (visited_uris : list raptor_uri) (p : raptor_parser)
      (c : xmlParserCtxt) :
  well_routed p ->
  returning (routes_chunk p)
            (grddl_discover parse_chunk_below loop_budget visited_uris p c).
Proof.
  intros Hp.
  assert (Hkeep : forall q, same_routing p q ->
                            well_routed q /\ same_face p q)
    by (intros q Hq; now apply same_routing_routed).
  unfold grddl_discover.
  destruct (base_uri p) as [base|]; [|apply within_undefined].
  cbv zeta.
  destruct (myDoc c) as [doc|];
    [|apply within_ret; split; [exact Hp|split; [apply same_face_refl|constructor]]].
  apply within_bind.
  eapply within_weaken with (B := False) (Q := routes_chunk p); [|auto|].
  { destruct (root_ns_href doc) as [ns_uri_string|];
      [|apply within_ret; split; [exact Hp|split; [apply same_face_refl|constructor]]].
    destruct (existsb (String.eqb ns_uri_string) grddl_namespace_uris_ignore_list);
      [apply within_ret; split; [exact Hp|split; [apply same_face_refl|constructor]]|].
    match goal with
    | |- context [raptor_grddl_run_recursive _ ?v ?q ?u] =>
        destruct (Hkeep q) as [Hq Hfaceq]; [destruct p; repeat split|];
          apply (within_weaken _ _ _ _ _ (run_recursive_routed v q u Hq));
          [auto|]
    end.
    intros [[[ret1 p1] v1] calls1] (Hp1 & Hface1 & Hcalls1). cbn [fst snd] in *.
    split; [exact Hp1|]. split; [exact (same_face_trans _ _ _ Hfaceq Hface1)|].
    exact (routed_same_face _ _ _ Hfaceq Hcalls1). }
  intros [[[ret2 p2] v2] calls2] (Hp2 & Hface2 & Hcalls2). cbn [fst snd] in *.
  set (p2' := set_profile_uris p2 _).
  assert (Hp2' : well_routed p2' /\ same_face p2 p2').
  { subst p2'. apply same_routing_routed; [destruct p2; repeat split|exact Hp2]. }
  destruct Hp2' as [Hp2' Hface2'].
  assert (Hface02 : same_face p p2') by exact (same_face_trans _ _ _ Hface2 Hface2').
  apply within_bind.
  eapply within_weaken with (B := False) (Q := routes_chunk p); [|auto|].
  { destruct (raptor_grddl_run_xpath_match p2' doc _ _) as [result|];
      [|apply within_ret; split; [exact Hp2'|split; assumption]].
    apply within_bind.
    apply (within_weaken _ _ _ _ _
             (profile_loop_routed result 0%Z v2 p2' calls2 p Hp2' Hface02 Hcalls2));
      [auto|].
    intros [[[ret3 p3] v3] calls3] (Hp3 & Hface3 & Hcalls3). cbn [fst snd] in *.
    apply within_ret. cbn [fst snd].
    destruct (same_routing_routed p3
                (set_profile_uris p3
                   (raptor_sequence_join (profile_uris p3) (map Some result))))
      as [Hq Hfaceq]; [destruct p3; repeat split|exact Hp3|].
    split; [exact Hq|]. split; [exact (same_face_trans _ _ _ Hface3 Hfaceq)|].
    exact Hcalls3. }
  intros [[[ret3 p3] v3] calls3] (Hp3 & Hface3 & Hcalls3). cbn [fst snd] in *.
  destruct (same_routing_routed p3 (match_table_loop doc match_table p3)
              (match_table_loop_same_routing doc match_table p3) Hp3)
    as [Hp4 Hface4].
  assert (Hface04 : same_face p (match_table_loop doc match_table p3))
    by exact (same_face_trans _ _ _ Hface3 Hface4).
  destruct (failed (match_table_loop doc match_table p3)).
  { apply within_ret. split; [exact Hp4|]. split; assumption. }
  apply within_bind.
  apply (within_weaken _ _ _ _ _
           (drain_loop_routed doc loop_budget 0 ret3 _ calls3 p Hp4 Hface04
              Hcalls3)); [auto|].
  intros [[ret5 p5] calls5] (Hp5 & Hface5 & Hcalls5). cbn [fst snd] in *.
  apply within_ret. split; [exact Hp5|]. split; assumption.
Qed.

Lemma grddl_parse_chunk_routed (loop_budget : nat)
      (visited_uris : list raptor_uri) (p : raptor_parser)
      (s : option string) (is_end : bool) :
  well_routed p ->
  returning (routes_chunk p)
            (grddl_parse_chunk parse_chunk_below loop_budget visited_uris p s
                               is_end).
Proof.
  intros Hp. unfold grddl_parse_chunk. cbv zeta.
  match goal with
  | |- returning _ (match ?o with Some c => _ | None => _ end) =>
      destruct o as [c|]
  end; [|apply within_ret; split; [exact Hp|split; [apply same_face_refl|constructor]]].
  destruct (same_routing_routed p (set_ctxt p (Some c))) as [Hq Hfaceq];
    [destruct p; repeat split|exact Hp|].
  destruct (negb is_end).
  - apply within_ret. split; [exact Hq|]. split; [exact Hfaceq|constructor].
  - apply (within_weaken _ _ _ _ _
             (grddl_discover_routed loop_budget visited_uris _ c Hq)); [auto|].
    intros [[[ret1 p1] v1] calls1] (Hp1 & Hface1 & Hcalls1). cbn [fst snd] in *.
    split; [exact Hp1|]. split; [exact (same_face_trans _ _ _ Hfaceq Hface1)|].
    exact (routed_same_face _ _ _ Hfaceq Hcalls1).
Qed.

End RoutedChunk.

Lemma parse_chunk_routed (loop_budget depth_budget : nat) :
  forall visited_uris p s is_end,
    well_routed p ->
    returning (routes_chunk p)
              (raptor_grddl_parse_chunk depth_budget loop_budget visited_uris
                                        p s is_end).
Proof.
  induction depth_budget as [|n IH]; intros v p s is_end Hp.
  - apply returning_intro. discriminate.
  - cbn [raptor_grddl_parse_chunk]. now apply grddl_parse_chunk_routed.
Qed.

(** An engine goes into one document and into no other.  Once
    [raptor_grddl_run_recursive] has returned from a URI that was not
    visited, the engine has its GRDDL parser one level below; whatever
    URI not visited it is called with next, that parser is taken again and
    the sequence of visited URIs is freed under the engines. *)
Lemma engine_goes_into_one_document
      (depth_budget loop_budget : nat)
      (parse_chunk_below : list raptor_uri -> raptor_parser -> option string ->
                           bool -> outcome chunk_result)
      (visited_uris visited_uris' : list raptor_uri)
      (rdf_parser rdf_parser' : raptor_parser) (uri uri' : raptor_uri)
      (ret : Z) (calls : list handler_call) :
  well_routed rdf_parser ->
  raptor_grddl_seen_uri visited_uris uri = false ->
  raptor_grddl_run_recursive
    (raptor_grddl_parse_chunk depth_budget loop_budget) visited_uris
    rdf_parser uri
  = Ret (ret, rdf_parser', visited_uris', calls) ->
  raptor_grddl_seen_uri visited_uris' uri' = false ->
  raptor_grddl_run_recursive parse_chunk_below visited_uris' rdf_parser' uri'
  = Undefined.
Proof.
  intros Hp Hseen Hrun Hseen'.
  destruct (run_recursive_leaves_child
              (raptor_grddl_parse_chunk depth_budget loop_budget)
              (parse_chunk_routed loop_budget depth_budget)
              visited_uris rdf_parser uri Hp Hseen) as [_ Hq].
  destruct (Hq _ Hrun) as (Hname & inner & Hinner & Hdepth). cbn [fst snd] in *.
  apply (run_recursive_second_time parse_chunk_below visited_uris' rdf_parser'
           inner uri' Hseen' Hname Hinner).
  lia.
Qed.

(** X28. Every statement goes to the handler of the user.  For a GRDDL
    parser that is well routed - as is every parser that has no internal
    parser and no name of one recorded - each call of a statement handler
    that a call of [raptor_grddl_parse_chunk] has made when it returns, in
    its own transformations or in those of the namespace or profile
    document it goes into, is a call of the statement handler of that
    parser with its user data: none goes to another handler, and none is
    left with the relay.  The parser keeps its handler and its user data
    and is well routed again, so that this holds for the chunks that
    follow.  (A call in which an engine goes into a second document does
    not return: [engine_goes_into_one_document].) *)
Theorem statements_go_to_the_handler
        (depth_budget loop_budget : nat) (visited_uris : list raptor_uri)
        (rdf_parser : raptor_parser) (s : option string) (is_end : bool)
        (ret : Z) (rdf_parser' : raptor_parser)
        (visited_uris' : list raptor_uri) (calls : list handler_call) :
  well_routed rdf_parser ->
  raptor_grddl_parse_chunk depth_budget loop_budget visited_uris rdf_parser
                           s is_end
  = Ret (ret, rdf_parser', visited_uris', calls) ->
  Forall (fun call =>
            Some (call_handler call) = statement_handler rdf_parser
            /\ call_user_data call = user_data rdf_parser) calls
  /\ statement_handler rdf_parser' = statement_handler rdf_parser
  /\ user_data rdf_parser' = user_data rdf_parser
  /\ well_routed rdf_parser'.
Proof.
  intros Hp Hrun.
  destruct (parse_chunk_routed loop_budget depth_budget visited_uris
              rdf_parser s is_end Hp) as [_ Hq].
  destruct (Hq _ Hrun) as (Hp' & (Hh & Hd & _) & Hcalls). cbn [fst snd] in *.
  repeat split; assumption.
Qed.

End Engine.

(** *** A small web to run the engine on

    The documents are texts; what libxml2 and libxslt find in them is given
    by tables.  A stylesheet writes [out:] followed by its own text, and
    the parser of the result reads the statements off that text. *)

Definition example_create (s : option string) (len : nat)
           (filename : option raptor_uri) : option string :=
  Some (match s with Some bytes => string_upto len bytes | None => "" end).

Definition example_parse (c : string) (s : option string) (len : nat)
           (terminate : bool) : string :=
  (c ++ match s with Some bytes => string_upto len bytes | None => "" end)%string.

Definition example_doc (c : string) : option string := Some c.

Definition example_root_ns (doc : string) : option string :=
  if String.eqb doc "<page-in-ns/>" then Some "http://example.org/ns"
  else if String.eqb doc "<ns-doc/>" then Some "http://example.org/ns"
  else if String.eqb doc "<page-relay/>" then Some "http://example.org/gone"
  else if String.eqb doc "<page-loop/>" then Some "http://example.org/gone"
  else None.

Definition attribute (value : string) : xmlNode :=
  {| node_type := XML_ATTRIBUTE_NODE; children_content := value;
     ns_href := ""; node_base := None |}.

Definition example_xpath (doc xpathExpr : string) : option (list xmlNode) :=
  if String.eqb xpathExpr "//@dataview:transformation" then
    if String.eqb doc "<page/>" || String.eqb doc "<page-relay/>" then
      Some [attribute "http://example.org/a.xsl http://example.org/b.xsl"]
    else if String.eqb doc "<page-loop/>" then
      Some [attribute "http://example.org/d.xsl"]
    else Some []
  else if String.eqb xpathExpr "/html:html/html:head/@profile" then
    if String.eqb doc "<page-with-profile/>" then
      Some [attribute "http://www.w3.org/2003/g/data-view http://example.org/profile"]
    else if String.eqb doc "<page-one-profile/>" then
      Some [attribute "http://example.org/profile-a"]
    else if String.eqb doc "<page-profile-twice/>" then
      Some [attribute "http://example.org/profile-a http://example.org/profile-a"]
    else if String.eqb doc "<page-two-profiles/>" then
      Some [attribute "http://example.org/profile-a http://example.org/profile-b"]
    else Some []
  else Some [].

Definition example_xslt (xslt_doc : option string) (doc : string) : xslt_result :=
  match xslt_doc with
  | Some sheet => xslt_output false (Some "xml") None (Some ("out:" ++ sheet)%string)
  | None => xslt_parse_failed
  end.

Definition example_resolve (base : option raptor_uri) (reference : string)
  : raptor_uri := reference.

Definition example_www : list (raptor_uri * (list string * Z)) :=
  [ ("http://example.org/a.xsl", (["<sheet"; "-a/>"], 0%Z));
    ("http://example.org/b.xsl", (["<sheet-b/>"], 0%Z));
    ("http://example.org/c.xsl", (["<sheet-c/>"], 0%Z));
    ("http://example.org/d.xsl", (["<sheet-d/>"], 0%Z));
    ("http://example.org/ns", (["<ns-"; "doc/>"], 0%Z));
    ("http://example.org/profile-a", (["<profile-a/>"], 0%Z));
    ("http://example.org/profile-b", (["<profile-b/>"], 0%Z)) ].

Definition resource_statement (s p o : string) : raptor_statement :=
  {| subject := s; subject_type := RAPTOR_IDENTIFIER_TYPE_RESOURCE;
     predicate := p; predicate_type := RAPTOR_IDENTIFIER_TYPE_RESOURCE;
     object := o; object_type := RAPTOR_IDENTIFIER_TYPE_RESOURCE |}.

Definition statement_a : raptor_statement :=
  resource_statement "http://example.org/gone"
    "http://www.w3.org/2003/g/data-view#namespaceTransformation"
    "http://example.org/c.xsl".

Definition statement_b : raptor_statement :=
  {| subject := "http://example.org/page"; subject_type := RAPTOR_IDENTIFIER_TYPE_RESOURCE;
     predicate := "http://purl.org/dc/elements/1.1/title";
     predicate_type := RAPTOR_IDENTIFIER_TYPE_RESOURCE;
     object := "A page"; object_type := RAPTOR_IDENTIFIER_TYPE_LITERAL |}.

Definition statement_c : raptor_statement :=
  resource_statement "http://example.org/page"
    "http://www.w3.org/2000/01/rdf-schema#seeAlso" "http://example.org/more".

Definition statement_d : raptor_statement :=
  resource_statement "http://example.org/gone"
    "http://www.w3.org/2003/g/data-view#namespaceTransformation"
    "http://example.org/d.xsl".

Definition example_statements (name : string) (base : option raptor_uri)
           (content : string) : list raptor_statement :=
  if String.eqb content "out:<sheet-a/>" then [statement_a]
  else if String.eqb content "out:<sheet-b/>" then [statement_b]
  else if String.eqb content "out:<sheet-c/>" then [statement_c]
  else if String.eqb content "out:<sheet-d/>" then [statement_d; statement_d]
  else [].

Definition example_guess (mime_type content : string) (len : nat)
  : option string :=
  if String.eqb mime_type "application/rdf+xml" then Some "rdfxml" else None.

Definition example_registered (name : string) : bool := String.eqb name "rdfxml".

Definition example_parse_chunk :=
  raptor_grddl_parse_chunk string string example_create example_parse
    example_doc example_root_ns example_xpath example_xslt example_resolve
    example_www 1%Z example_registered (fun _ => 0%Z) example_statements
    example_guess.

(** A GRDDL parser as [raptor_new_parser] and [raptor_start_parse] leave
    it, with a statement handler of the user. *)
Definition example_parser (base : raptor_uri) : raptor_parser string :=
  mk_parser string "grddl" (Some base) false false (user_pointer 7)
            (Some (user_handler 1)) None None None None [] null_pointer None [] 0.

Definition user_call : raptor_statement -> handler_call :=
  mk_call (user_handler 1) (user_pointer 7).

(** What a test of the engine sees of a call: the value returned, the
    transformations left in the queue, the visited URIs and the calls of
    the user's statement handler. *)
Definition observed (o : outcome (chunk_result string))
  : option (Z * list raptor_uri * list raptor_uri * list handler_call) :=
  match o with
  | Ret (ret, rdf_parser, visited_uris, calls) =>
      Some (ret, doc_transform_uris string rdf_parser, visited_uris, calls)
  | _ => None
  end.

(** Scenario 3 of the specification: two transformations in a
    [dataview:transformation] attribute.  Only the first is applied; the
    second is still in the queue when the engine returns 0. *)
Example two_transformations_one_applied :
  observed (example_parse_chunk 3 10 [] (example_parser "http://example.org/page")
              (Some "<page/>") true)
  = Some (0%Z, ["http://example.org/b.xsl"], ["http://example.org/page"],
          [user_call statement_a]).
Proof. vm_compute. reflexivity. Qed.

(** The same with a root namespace: the statement that the first
    transformation gives names a third one, which the relay queues; the
    second is applied and the third is left. *)
Example relayed_transformation_not_applied :
  observed (example_parse_chunk 3 10 [] (example_parser "http://example.org/page")
              (Some "<page-relay/>") true)
  = Some (0%Z, ["http://example.org/c.xsl"], ["http://example.org/page"],
          [user_call statement_a; user_call statement_b]).
Proof. vm_compute. reflexivity. Qed.

(** Scenario 4: the namespace document names its own namespace.  It is
    retrieved once, and two engines are enough. *)
Example namespace_document_visited_once :
  observed (example_parse_chunk 2 10 [] (example_parser "http://example.org/page")
              (Some "<page-in-ns/>") true)
  = Some (0%Z, [], ["http://example.org/page"; "http://example.org/ns"], []).
Proof. vm_compute. reflexivity. Qed.

Example one_engine_is_not_enough :
  example_parse_chunk 1 10 [] (example_parser "http://example.org/page")
    (Some "<page-in-ns/>") true = RecursionLimit.
Proof. vm_compute. reflexivity. Qed.

(** A page whose head names one profile: the engine goes into the profile
    document and comes back with the URI visited.  And a page that names
    that profile twice: the second time the URI is visited, and
    [raptor_grddl_run_recursive] returns 0 at once. *)
Example one_profile_is_visited :
  observed (example_parse_chunk 2 10 [] (example_parser "http://example.org/page")
              (Some "<page-one-profile/>") true)
  = Some (0%Z, [], ["http://example.org/page"; "http://example.org/profile-a"], [])
  /\ observed (example_parse_chunk 2 10 [] (example_parser "http://example.org/page")
                 (Some "<page-profile-twice/>") true)
     = Some (0%Z, [], ["http://example.org/page"; "http://example.org/profile-a"],
             []).
Proof. split; vm_compute; reflexivity. Qed.

(** C3.  The recursion over namespace and profile documents does not end
    as the visited URIs would have it.  On a page whose head names two
    profiles, neither visited before and both retrievable, the engine goes
    into the first with a new GRDDL parser, which
    [raptor_grddl_parser_add_parent] makes point to the sequence of visited
    URIs of the engine; for the second profile it takes that parser again,
    and [raptor_grddl_parser_add_parent] frees the sequence the parser
    points to - the shared one - before the engines read it again.  The
    call of [raptor_grddl_parse_chunk] is undefined, whatever room the
    engines and the loops are given, where the claim has the second
    profile processed and the call return. *)
Theorem second_recursion_frees_visited_uris (depth_budget loop_budget : nat) :
  example_parse_chunk (S (S depth_budget)) (S loop_budget) []
    (example_parser "http://example.org/page") (Some "<page-two-profiles/>") true
  = Undefined.
Proof. vm_compute. reflexivity. Qed.

(** The head profile of a page that names the data-view profile: the
    engine takes it for a profile document like any other. *)
Example data_view_profile_is_processed :
  raptor_grddl_run_xpath_match string string example_xpath example_resolve
    (example_parser "http://example.org/page") "<page-with-profile/>"
    "/html:html/html:head/@profile" (Z.lor MATCH_IS_VALUE_LIST MATCH_IS_PROFILE)
  = Some ["http://www.w3.org/2003/g/data-view"; "http://example.org/profile"].
Proof. vm_compute. reflexivity. Qed.

(** The loop over the transformations need not end.  The result of
    [d.xsl] has two statements that name [d.xsl] as a transformation of
    the root namespace: each turn of the loop takes one URI off the queue
    and the relay puts two on it, so the counter never reaches the size. *)
Definition example_transform :=
  raptor_grddl_run_grddl_transform_uri string string example_create
    example_parse example_doc example_xslt example_www 1%Z example_registered
    (fun _ => 0%Z) example_statements example_guess.

Definition example_drain_loop :=
  drain_loop string string example_create example_parse example_doc
    example_xslt example_www 1%Z example_registered (fun _ => 0%Z)
    example_statements example_guess.

(** The engine of the page [<page-loop/>] once it has applied a
    transformation, with [queue] for its [doc_transform_uris]. *)
Definition looping_parser (queue : list raptor_uri) : raptor_parser string :=
  mk_parser string "grddl" (Some "http://example.org/page") false false
    (user_pointer 7) (Some (user_handler 1)) (Some "<page-loop/>")
    (Some (mk_parser string "rdfxml" (Some "http://example.org/page") false
             false (parser_pointer 0) (Some relay_triples_handler) None None
             None None [] null_pointer None [] 0))
    (Some "rdfxml") (Some "http://example.org/gone") queue
    (user_pointer 7) (Some (user_handler 1))
    [Some "http://example.org/gone"] 0.

Lemma transform_d_requeues (queue : list raptor_uri) (doc : string) :
  example_transform (looping_parser queue) "http://example.org/d.xsl" doc
  = Ret (0%Z,
         looping_parser ((queue ++ ["http://example.org/d.xsl"])
                         ++ ["http://example.org/d.xsl"]),
         [user_call statement_d; user_call statement_d]).
Proof. vm_compute. reflexivity. Qed.

Lemma drain_loop_unfold (budget : nat) (doc : string) (i : nat) (ret : Z)
      (rdf_parser : raptor_parser string) (calls : list handler_call)
      (uri : raptor_uri) (rest : list raptor_uri) :
  doc_transform_uris string rdf_parser = uri :: rest ->
  i < List.length (uri :: rest) ->
  example_drain_loop (S budget) doc i ret rdf_parser calls
  = '(ret, rdf_parser, calls') <-
      example_transform (set_doc_transform_uris string rdf_parser rest) uri doc ;;
    if negb (ret =? 0)%Z then Ret (ret, rdf_parser, calls ++ calls')
    else example_drain_loop budget doc (S i) ret rdf_parser (calls ++ calls').
Proof.
  intros Hq Hi. unfold example_drain_loop, example_transform.
  cbn [drain_loop]. unfold raptor_sequence_size, raptor_sequence_unshift.
  rewrite Hq. apply Nat.ltb_lt in Hi. now rewrite Hi.
Qed.

Lemma drain_loop_requeues (doc : string) (budget : nat) :
  forall i ret queue calls,
    i < List.length queue ->
    Forall (eq "http://example.org/d.xsl") queue ->
    example_drain_loop budget doc i ret (looping_parser queue) calls = LoopLimit.
Proof.
  induction budget as [|budget IH]; intros i ret queue calls Hi Hall;
    [reflexivity|].
  destruct queue as [|uri rest]; [simpl in Hi; lia|].
  inversion Hall as [|u r Huri Hrest]; subst u r. subst uri.
  rewrite (drain_loop_unfold budget doc i ret
             (looping_parser ("http://example.org/d.xsl" :: rest)) calls
             "http://example.org/d.xsl" rest eq_refl Hi).
  change (set_doc_transform_uris string
            (looping_parser ("http://example.org/d.xsl" :: rest)) rest)
    with (looping_parser rest).
  rewrite transform_d_requeues. cbn [bind Z.eqb negb].
  apply IH.
  - rewrite !length_app. cbn [List.length] in *. unfold raptor_uri in *. lia.
  - repeat (apply Forall_app; split); auto.
Qed.

(** A page with that one transformation: whatever the budget of the
    loop, it is used up. *)
Example transformations_need_not_end (loop_budget : nat) :
  example_parse_chunk 3 loop_budget [] (example_parser "http://example.org/page")
    (Some "<page-loop/>") true = LoopLimit.
Proof.
  destruct loop_budget as [|loop_budget]; [vm_compute; reflexivity|].
  transitivity
    ('(ret, rdf_parser, calls) <-
       example_drain_loop loop_budget "<page-loop/>" 1 0%Z
         (looping_parser ["http://example.org/d.xsl"; "http://example.org/d.xsl"])
         [user_call statement_d; user_call statement_d] ;;
     Ret (if (ret =? 0)%Z then 0%Z else 1%Z, rdf_parser,
          ["http://example.org/page"], calls)).
  - vm_compute. reflexivity.
  - rewrite drain_loop_requeues; [reflexivity| |].
    + simpl. lia.
    + repeat constructor.
Qed.

(** [drain_loop_leaves_queue_not_empty] on this web, with the two
    transformations of scenario 3 in the queue. *)
Lemma drain_loop_leaves_queue_not_empty_witness :
  exists ret rdf_parser' calls',
    drain_loop string string example_create example_parse example_doc
      example_xslt example_www 1%Z example_registered (fun _ => 0%Z)
      example_statements example_guess 10 "<page/>" 0 0%Z
      (set_doc_transform_uris string (example_parser "http://example.org/page")
         ["http://example.org/a.xsl"; "http://example.org/b.xsl"]) []
    = Ret (ret, rdf_parser', calls')
    /\ doc_transform_uris string rdf_parser' <> [].
Proof.
  destruct (drain_loop string string example_create example_parse example_doc
      example_xslt example_www 1%Z example_registered (fun _ => 0%Z)
      example_statements example_guess 10 "<page/>" 0 0%Z
      (set_doc_transform_uris string (example_parser "http://example.org/page")
         ["http://example.org/a.xsl"; "http://example.org/b.xsl"]) [])
    as [[[ret rdf_parser'] calls']| | | |] eqn:Hdrain;
    try (vm_compute in Hdrain; discriminate).
  exists ret, rdf_parser', calls'. split; [reflexivity|].
  eapply drain_loop_leaves_queue_not_empty; [|exact Hdrain].
  simpl. apply le_n.
Defined.

(** [profile_list_keeps_data_view] at the head profile of the page
    above. *)
Lemma profile_list_keeps_data_view_witness :
  exists seq,
    raptor_grddl_run_xpath_match string string example_xpath example_resolve
      (example_parser "http://example.org/page") "<page-with-profile/>"
      "/html:html/html:head/@profile" (Z.lor MATCH_IS_VALUE_LIST MATCH_IS_PROFILE)
    = Some seq
    /\ In "http://www.w3.org/2003/g/data-view"%string seq.
Proof.
  apply (profile_list_keeps_data_view string string example_xpath
           example_resolve (example_parser "http://example.org/page")
           "<page-with-profile/>" "/html:html/html:head/@profile"
           (attribute "http://www.w3.org/2003/g/data-view http://example.org/profile")
           "http://www.w3.org/2003/g/data-view").
  - reflexivity.
  - reflexivity.
  - simpl. now left.
  - reflexivity.
Defined.

(** An engine that has a root namespace and two head profiles, one of
    them the root namespace again. *)
Definition relaying_parser : raptor_parser string :=
  mk_parser string "grddl" (Some "http://example.org/page") false false
            (user_pointer 7) (Some (user_handler 1)) None None None
            (Some "http://example.org/gone") ["http://example.org/b.xsl"]
            (user_pointer 7) (Some (user_handler 1))
            [Some "http://example.org/gone"; Some "http://example.org/profile";
             Some "http://example.org/gone"] 0.

(** [relay_triples_profile_indexing] at a statement about the root
    namespace: it matches the entry at index 0, not the one at index 2. *)
Lemma relay_triples_profile_indexing_witness :
  doc_transform_uris string
    (fst (raptor_grddl_relay_triples string relaying_parser statement_a))
  = ["http://example.org/b.xsl"; "http://example.org/c.xsl"]
  /\ profile_uris string
       (fst (raptor_grddl_relay_triples string relaying_parser statement_a))
     = profile_uris string relaying_parser.
Proof.
  exact (relay_triples_profile_indexing string relaying_parser statement_a
           eq_refl eq_refl eq_refl).
Defined.

(** [relay_triples_forwards] at three statements, of which the first
    matches a relay rule. *)
Lemma relay_triples_forwards_witness :
  snd (relay_all string relaying_parser [statement_a; statement_b; statement_c])
  = [user_call statement_a; user_call statement_b; user_call statement_c].
Proof.
  exact (proj2 (relay_triples_forwards string relaying_parser (user_handler 1)
                  eq_refl)
               [statement_a; statement_b; statement_c]).
Defined.

(** *** Telling the syntax *)

(** [strstr(haystack, needle) != NULL]: the needle is found at the start
    of the haystack or further on. *)
Fixpoint strstr (haystack needle : string) : bool :=
  String.prefix needle haystack
  || match haystack with
     | EmptyString => false
     | String _ rest => strstr rest needle
     end.

(** [raptor_grddl_parse_recognise_syntax(factory, buffer, len, identifier,
    suffix, mime_type)] *)
Definition raptor_grddl_parse_recognise_syntax : Registry.recognise_syntax_fn :=
  fun buffer len identifier suffix mime_type =>
    let score := 0%Z in
    let score :=
      match suffix with
      | Some suffix =>
          let score := if String.eqb suffix "xhtml" then 7%Z else score in
          if String.eqb suffix "html" then 2%Z else score
      | None => score
      end in
    match identifier with
    | Some identifier =>
        if strstr identifier "xhtml" then (score + 5)%Z else score
    | None => score
    end.

Example recognise_xhtml_file :
  raptor_grddl_parse_recognise_syntax None 0 (Some "page.xhtml")
    (Registry.suffix_of (Some "page.xhtml")) None = 12%Z
  /\ raptor_grddl_parse_recognise_syntax None 0 (Some "PAGE.XHTML")
       (Registry.suffix_of (Some "PAGE.XHTML")) None = 7%Z
  /\ raptor_grddl_parse_recognise_syntax None 0 (Some "xhtml/page.html")
       (Registry.suffix_of (Some "xhtml/page.html")) None = 7%Z
  /\ raptor_grddl_parse_recognise_syntax None 0 (Some "data.rdf")
       (Registry.suffix_of (Some "data.rdf")) None = 0%Z.
Proof. repeat split. Qed.

Section RecogniseSyntax.

Import Registry.

(** The C library's [qsort], called with [compare_syntax_score]: where
    the comparison function does not overflow, it leaves a sorted
    permutation of the array. *)
Variable qsort : list syntax_score -> list syntax_score.

Hypothesis qsort_sorts :
  forall scores,
    differences_fit scores ->
    Permutation scores (qsort scores)
    /\ StronglySorted (fun a b => (compare_syntax_score a b <= 0)%Z)
                      (qsort scores).

Lemma recognise_syntax_scores (buffer : option string) (len : nat)
      (identifier suffix mime_type_ : option string) :
  In (raptor_grddl_parse_recognise_syntax buffer len identifier suffix
                                          mime_type_)
     [0; 2; 5; 7; 12]%Z.
Proof.
  unfold raptor_grddl_parse_recognise_syntax.
  destruct suffix as [suffix|], identifier as [identifier|];
    try destruct (String.eqb suffix "xhtml");
    try destruct (String.eqb suffix "html");
    try destruct (strstr identifier "xhtml"); simpl; tauto.
Qed.

(** X29. The score of the GRDDL syntax is never negative: it is 0, 2, 5,
    7 or 12.  So in a registry of at most [MAX_PARSERS] factories one of
    which has [raptor_grddl_parse_recognise_syntax], and in which no two
    recorded scores are further apart than [INT_MAX] (the comparison
    function does not overflow), [raptor_guess_parser_name] returns the
    name of a factory of the registry, whatever the URI, the MIME type,
    the buffer and the identifier are, and not NULL. *)
Theorem grddl_recognise_syntax_always_guesses
        (parsers : parser_list) (f : raptor_parser_factory)
        (uri mime_type_ buffer : option string) (len : nat)
        (identifier : option string) :
  List.length parsers <= MAX_PARSERS ->
  In f parsers ->
  recognise_syntax f = Some raptor_grddl_parse_recognise_syntax ->
  (forall g h, In g parsers -> In h parsers ->
               (score (scored buffer len identifier mime_type_ h)
                - score (scored buffer len identifier mime_type_ g)
                <= INT_MAX)%Z) ->
  (forall b l i s m,
      In (raptor_grddl_parse_recognise_syntax b l i s m) [0; 2; 5; 7; 12]%Z)
  /\ exists g,
       In g parsers
       /\ raptor_guess_parser_name qsort parsers uri mime_type_ buffer len
                                   identifier
          = Ret (Some (name g)).
Proof.
  intros Hlen Hf Hrec Hclose. split; [apply recognise_syntax_scores|].
  unfold raptor_guess_parser_name.
  rewrite guess_loop_scan by (simpl; lia).
  destruct (find (exact_match uri mime_type_) parsers) as [g|] eqn:Hfind.
  - exists g. split; [|reflexivity]. now apply find_some in Hfind.
  - cbn [bind app].
    set (scores := map (scored buffer len identifier mime_type_) parsers).
    assert (Hscore : (0 <= score (scored buffer len identifier mime_type_ f))%Z).
    { unfold scored, recognised. rewrite Hrec. cbn [score].
      pose proof (recognise_syntax_scores buffer len identifier
                    (suffix_of identifier) mime_type_) as Hin.
      simpl in Hin. lia. }
    destruct (qsort_head_greatest qsort qsort_sorts scores)
      as [s0 [others [Hq [Hs0 Hmax]]]].
    { now apply recorded_differences_fit. }
    { subst scores. destruct parsers; [destruct Hf|discriminate]. }
    rewrite Hq.
    assert (Hbest : (0 <= score s0)%Z).
    { specialize (Hmax (scored buffer len identifier mime_type_ f)).
      assert (In (scored buffer len identifier mime_type_ f) scores)
        by (subst scores; now apply in_map).
      specialize (Hmax H). lia. }
    apply in_map_iff in Hs0. destruct Hs0 as (g & Hg & Hin).
    exists g. split; [exact Hin|].
    destruct (Z.leb_spec 0 (score s0)); [|lia]. subst s0. reflexivity.
Qed.

End RecogniseSyntax.

(** A registry with a factory of the GRDDL syntax. *)
Definition grddl_factory : Registry.raptor_parser_factory :=
  {| Registry.name := "grddl";
     Registry.alias := None;
     Registry.label := "Gleaning Resource Descriptions from Dialects of Languages";
     Registry.mime_type := Some "text/html";
     Registry.uri_string := None;
     Registry.recognise_syntax := Some raptor_grddl_parse_recognise_syntax |}.

Example guess_falls_to_grddl :
  Registry.raptor_guess_parser_name Registry.sort_scores
    [Registry.by_uri_factory; grddl_factory; Registry.by_mime_factory]
    None None None 0 (Some "data.unknown") = Ret (Some "grddl").
Proof. reflexivity. Qed.

(** Beside a factory that scores [INT_MIN] the comparison function
    overflows, and the guess can be NULL with the GRDDL factory
    registered. *)
Example guess_overflows_beside_grddl :
  Registry.raptor_guess_parser_name Registry.sort_scores
    [Registry.lowest_factory; grddl_factory]
    None None None 0 (Some "data.unknown") = Ret None.
Proof. reflexivity. Qed.

(** [grddl_recognise_syntax_always_guesses] in that registry. *)
Lemma grddl_recognise_syntax_always_guesses_witness :
  (forall b l i s m,
      In (raptor_grddl_parse_recognise_syntax b l i s m) [0; 2; 5; 7; 12]%Z)
  /\ exists g,
       In g [Registry.by_uri_factory; grddl_factory; Registry.by_mime_factory]
       /\ Registry.raptor_guess_parser_name Registry.sort_scores
            [Registry.by_uri_factory; grddl_factory; Registry.by_mime_factory]
            None None None 0 (Some "data.unknown")
          = Ret (Some (Registry.name g)).
Proof.
  refine (grddl_recognise_syntax_always_guesses Registry.sort_scores
            Registry.sort_scores_sorts
            [Registry.by_uri_factory; grddl_factory; Registry.by_mime_factory]
            grddl_factory None None None 0 (Some "data.unknown") _ _ _ _).
  - vm_compute. lia.
  - right. left. reflexivity.
  - reflexivity.
  - intros g h Hg Hh. simpl in Hg, Hh.
    repeat (destruct Hg as [<-|Hg]; [repeat (destruct Hh as [<-|Hh];
              [vm_compute; discriminate|]); contradiction|]).
    contradiction.
Defined.

(** The engine of the page with [RAPTOR_FEATURE_NO_NET] set and two
    transformations in its queue. *)
Definition offline_parser : raptor_parser string :=
  mk_parser string "grddl" (Some "http://example.org/page") false true
            (user_pointer 7) (Some (user_handler 1)) None None None None
            ["http://example.org/a.xsl"; "http://example.org/b.xsl"]
            null_pointer None [] 0.

(** [no_net_applies_no_transformation] on that engine. *)
Lemma no_net_applies_no_transformation_witness :
  raptor_grddl_run_grddl_transform_uri string string example_create
    example_parse example_doc example_xslt example_www 1%Z example_registered
    (fun _ => 0%Z) example_statements example_guess offline_parser
    "http://example.org/a.xsl" "<page/>"
  = Ret (1%Z, offline_parser, [])
  /\ drain_loop string string example_create example_parse example_doc
       example_xslt example_www 1%Z example_registered (fun _ => 0%Z)
       example_statements example_guess 10 "<page/>" 0 0%Z offline_parser []
     = Ret (1%Z,
            set_doc_transform_uris string offline_parser
              ["http://example.org/b.xsl"], []).
Proof.
  destruct (no_net_applies_no_transformation string string example_create
              example_parse example_doc example_xslt example_www 1%Z
              example_registered (fun _ => 0%Z) example_statements
              example_guess offline_parser "<page/>" eq_refl)
    as [Hrun Hdrain].
  split.
  - exact (Hrun "http://example.org/a.xsl").
  - exact (Hdrain 9 0%Z [] "http://example.org/a.xsl"
                  ["http://example.org/b.xsl"] eq_refl).
Defined.


Example ensure_internal_parser_twice :
  exists rdf_parser',
    raptor_grddl_ensure_internal_parser string example_registered
      (example_parser "http://example.org/page") "rdfxml" true
    = Ret (0%Z, rdf_parser')
    /\ raptor_grddl_ensure_internal_parser string example_registered
         rdf_parser' "rdfxml" true
       = Ret (0%Z, rdf_parser')
    /\ raptor_grddl_ensure_internal_parser string example_registered
         rdf_parser' "turtle" true
       = Ret (1%Z, set_internal_parser_name string
                     (set_internal_parser string rdf_parser' None) None).
Proof. eexists. repeat split. Qed.

(** [statements_go_to_the_handler] on the page with a root namespace,
    whose two transformations give two statements. *)
Lemma statements_go_to_the_handler_witness :
  exists ret rdf_parser' visited_uris' calls,
    raptor_grddl_parse_chunk string string example_create example_parse
      example_doc example_root_ns example_xpath example_xslt example_resolve
      example_www 1%Z example_registered (fun _ => 0%Z) example_statements
      example_guess 3 10 [] (example_parser "http://example.org/page")
      (Some "<page-relay/>") true
    = Ret (ret, rdf_parser', visited_uris', calls)
    /\ Forall (fun call =>
                 Some (call_handler call) = Some (user_handler 1)
                 /\ call_user_data call = user_pointer 7) calls.
Proof.
  destruct (raptor_grddl_parse_chunk string string example_create example_parse
      example_doc example_root_ns example_xpath example_xslt example_resolve
      example_www 1%Z example_registered (fun _ => 0%Z) example_statements
      example_guess 3 10 [] (example_parser "http://example.org/page")
      (Some "<page-relay/>") true)
    as [[[[ret rdf_parser'] visited_uris'] calls]| | | |] eqn:Hrun;
    try (vm_compute in Hrun; discriminate).
  exists ret, rdf_parser', visited_uris', calls. split; [reflexivity|].
  refine (proj1 (statements_go_to_the_handler string string example_create
                   example_parse example_doc example_root_ns example_xpath
                   example_xslt example_resolve example_www 1%Z
                   example_registered (fun _ => 0%Z) example_statements
                   example_guess 3 10 []
                   (example_parser "http://example.org/page")
                   (Some "<page-relay/>") true ret rdf_parser' visited_uris'
                   calls _ Hrun)).
  split; [intros H; exfalso; apply H; reflexivity|exact I].
Defined.

End Grddl.
